(** * SecurePassGen: password generation and security assessment

    A shallow embedding of [password.c] and [security.c] (with the constants
    of [config.h] and [password.h]) and the properties of the generation and
    assessment engines established on it.

    Conventions.
    - A C string is the [list ascii] of the bytes stored in front of its
      terminating NUL; reading the position just behind the list yields the
      terminator.  [strlen] stops at the first NUL, as libc does.
    - [size_t] values are [N]; where the source computes in [size_t] the
      wrap-around modulo [2^64] is written out ([size_add], [size_sub]).
    - [int] values are [Z].
    - The byte source ([get_random_bytes], with its [random_range] fallback)
      and the allocator are part of an explicit [World] that is threaded
      through the generation code.
    - [double] quantities (entropy, crack time) are not computed: the one
      place where an integer is derived from them is a parameter. *)

From Stdlib Require Import ZArith NArith Lia Ascii String Bool.
From stdpp Require Import base tactics option numbers list.

Local Open Scope N_scope.

(* ===================================================================== *)
(** ** C strings and the libc functions the sources call                  *)
(* ===================================================================== *)

Module CStr.

Definition NUL : ascii := Ascii.zero.

Definition is_nul (c : ascii) : bool := Ascii.eqb c NUL.

(** String literals of the sources. *)
Definition lit (s : string) : list ascii := list_ascii_of_string s.

(** The value of a [char] as an [int]; every character the sources do
    arithmetic on is first checked to be a digit or converted through
    [(unsigned char)], so the unsigned code is the value used. *)
Definition code (c : ascii) : Z := Z.of_N (N_of_ascii c).

(** [strlen]: number of characters in front of the first NUL. *)
Fixpoint strlen (s : list ascii) : nat :=
  match s with
  | [] => 0%nat
  | c :: s' => if is_nul c then 0%nat else S (strlen s')
  end.

(** The characters of the C string held by a buffer. *)
Definition chars (s : list ascii) : list ascii := take (strlen s) s.

(** [s[i]] for a position inside the string or on its terminator. *)
Definition char_at (s : list ascii) (i : nat) : ascii := nth i s NUL.

(** [strchr(s, c) != NULL].  Searching for NUL finds the terminator. *)
Definition strchr (s : list ascii) (c : ascii) : bool :=
  is_nul c || existsb (Ascii.eqb c) (chars s).

(** [needle] is a prefix of [hay]. *)
Fixpoint prefixb (needle hay : list ascii) : bool :=
  match needle, hay with
  | [], _ => true
  | _ :: _, [] => false
  | a :: needle', b :: hay' => Ascii.eqb a b && prefixb needle' hay'
  end.

(** [needle] occurs in [hay] at some offset. *)
Fixpoint infixb (needle hay : list ascii) : bool :=
  prefixb needle hay ||
  match hay with
  | [] => false
  | _ :: hay' => infixb needle hay'
  end.

(** [strstr(hay, needle) != NULL]. *)
Definition strstr (hay needle : list ascii) : bool :=
  infixb (chars needle) (chars hay).

(** <ctype.h> in the "C" locale, on [(unsigned char)c]. *)
Definition in_range (lo hi : Z) (c : ascii) : bool :=
  ((lo <=? code c) && (code c <=? hi))%Z.

Definition islower (c : ascii) : bool := in_range 97 122 c.
Definition isupper (c : ascii) : bool := in_range 65 90 c.
Definition isdigit (c : ascii) : bool := in_range 48 57 c.
Definition isalpha (c : ascii) : bool := isupper c || islower c.

Definition tolower_code (c : ascii) : Z :=
  if isupper c then (code c + 32)%Z else code c.

Definition tolower (c : ascii) : ascii :=
  ascii_of_N (Z.to_N (tolower_code c)).

End CStr.

Import CStr.

(* ===================================================================== *)
(** ** config.h, password.h                                               *)
(* ===================================================================== *)

Module Config.

Definition CHARSET_LOWERCASE : list ascii := lit "abcdefghijklmnopqrstuvwxyz".
Definition CHARSET_UPPERCASE : list ascii := lit "ABCDEFGHIJKLMNOPQRSTUVWXYZ".
Definition CHARSET_NUMBERS : list ascii := lit "0123456789".
Definition CHARSET_SPECIAL : list ascii := lit "!@#$%^&*".
Definition CHARSET_AMBIGUOUS : list ascii := lit "lI1O0".

Definition MIN_PASSWORD_LENGTH : N := 8.
Definition MAX_PASSWORD_LENGTH : N := 128.
Definition DEFAULT_PASSWORD_LENGTH : N := 16.

Definition STRENGTH_THRESHOLD_VERY_WEAK : Z := 20.
Definition STRENGTH_THRESHOLD_WEAK : Z := 40.
Definition STRENGTH_THRESHOLD_FAIR : Z := 60.
Definition STRENGTH_THRESHOLD_GOOD : Z := 75.
Definition STRENGTH_THRESHOLD_STRONG : Z := 90.

(** [size_t] arithmetic. *)
Definition SIZE_MOD : N := 2 ^ 64.
Definition size_add (a b : N) : N := (a + b) mod SIZE_MOD.
Definition size_sub (a b : N) : N :=
  Z.to_N ((Z.of_N a - Z.of_N b) mod Z.of_N SIZE_MOD).

End Config.

Import Config.

(* ===================================================================== *)
(** ** password.c: options and their validation                           *)
(* ===================================================================== *)

Module Password.

Record CharSetConfig := {
  lowercase : bool;
  uppercase : bool;
  numbers : bool;
  special : bool;
  avoid_ambiguous : bool
}.

Record PasswordOptions := {
  opt_length : N;
  charset : CharSetConfig;
  require_all_types : bool;
  min_numbers : N;
  min_special : N
}.

Definition lowercase_chars := CHARSET_LOWERCASE.
Definition uppercase_chars := CHARSET_UPPERCASE.
Definition number_chars := CHARSET_NUMBERS.
Definition special_chars := CHARSET_SPECIAL.
Definition ambiguous_chars := CHARSET_AMBIGUOUS.

Definition password_options_init : PasswordOptions :=
  {| opt_length := DEFAULT_PASSWORD_LENGTH;
     charset := {| lowercase := true; uppercase := true; numbers := true;
                   special := true; avoid_ambiguous := false |};
     require_all_types := true;
     min_numbers := 1;
     min_special := 1 |}.

(** The [selected_types] counter of [validate_options]. *)
Definition selected_types (c : CharSetConfig) : N :=
  (if lowercase c then 1 else 0) + (if uppercase c then 1 else 0) +
  (if numbers c then 1 else 0) + (if special c then 1 else 0).

(** [validate_options]; a null pointer is [None]. *)
Definition validate_options (options : option PasswordOptions) : bool :=
  match options with
  | None => false
  | Some o =>
    let c := charset o in
    if (opt_length o <? MIN_PASSWORD_LENGTH) ||
       (MAX_PASSWORD_LENGTH <? opt_length o) then false
    else if negb (lowercase c) && negb (uppercase c) &&
            negb (numbers c) && negb (special c) then false
    else if require_all_types o && (opt_length o <? selected_types c)
    then false
    else
      let max_possible_numbers := if numbers c then opt_length o else 0 in
      let max_possible_special := if special c then opt_length o else 0 in
      if (max_possible_numbers <? min_numbers o) ||
         (max_possible_special <? min_special o) then false
      else if opt_length o <? size_add (min_numbers o) (min_special o)
      then false
      else true
  end.

(* --------------------------------------------------------------------- *)
(** *** The world of a generation call: random bytes and the allocator    *)
(* --------------------------------------------------------------------- *)

(** [random_bytes w k] is the [k]-th byte the process obtains from
    [get_random_bytes] (or, when that fails, from the [random_range(0, 255)]
    fallback); [alloc_ok w k] tells whether the [k]-th request to
    [calloc] succeeds. *)
Record World := {
  random_bytes : nat -> N;
  random_pos : nat;
  alloc_ok : nat -> bool;
  alloc_pos : nat
}.

(** Computations on the world; [None] is a computation that was cut off
    before it returned (see the [fuel] of the [while] loops below). *)
Definition M (A : Type) : Type := World -> option (A * World).

#[export] Instance M_ret : MRet M := fun A a w => Some (a, w).

#[export] Instance M_bind : MBind M := fun A B k m w =>
  match m w with
  | Some (a, w') => k a w'
  | None => None
  end.

Definition ret {A} (a : A) : M A := mret a.

Definition cut_off {A} : M A := fun _ => None.

(** One [unsigned char] from the random source. *)
Definition random_byte : M N := fun w =>
  Some (random_bytes w (random_pos w) mod 256,
        {| random_bytes := random_bytes w; random_pos := S (random_pos w);
           alloc_ok := alloc_ok w; alloc_pos := alloc_pos w |}).

(** One allocation request ([calloc], [secure_string_init]); the answer is
    whether memory was obtained. *)
Definition allocate : M bool := fun w =>
  Some (alloc_ok w (alloc_pos w),
        {| random_bytes := random_bytes w; random_pos := random_pos w;
           alloc_ok := alloc_ok w; alloc_pos := S (alloc_pos w) |}).

(* --------------------------------------------------------------------- *)
(** *** Helpers of password.c                                             *)
(* --------------------------------------------------------------------- *)

(** [get_random_char_from_set]. *)
Definition get_random_char_from_set (char_set : list ascii) (set_size : N)
  : M ascii :=
  if set_size =? 0 then ret NUL
  else
    random_byte ← random_byte;
    let index := random_byte mod set_size in
    ret (char_at char_set (N.to_nat index)).

(** [contains_char_type]: the scan stops at the terminator. *)
Fixpoint contains_char_type (password char_set : list ascii) : bool :=
  match password with
  | [] => false
  | c :: rest =>
    if is_nul c then false
    else if strchr char_set c then true
    else contains_char_type rest char_set
  end.

(** [count_char_type]. *)
Fixpoint count_char_type (password char_set : list ascii) : N :=
  match password with
  | [] => 0
  | c :: rest =>
    if is_nul c then 0
    else (if strchr char_set c then 1 else 0) + count_char_type rest char_set
  end.

(** [meets_minimum_requirements]. *)
Definition meets_minimum_requirements (password : list ascii)
  (options : PasswordOptions) : bool :=
  let c := charset options in
  if require_all_types options &&
     ((lowercase c && negb (contains_char_type password lowercase_chars)) ||
      (uppercase c && negb (contains_char_type password uppercase_chars)) ||
      (numbers c && negb (contains_char_type password number_chars)) ||
      (special c && negb (contains_char_type password special_chars)))
  then false
  else if (0 <? min_numbers options) &&
          (count_char_type password number_chars <? min_numbers options)
  then false
  else if (0 <? min_special options) &&
          (count_char_type password special_chars <? min_special options)
  then false
  else true.

(* --------------------------------------------------------------------- *)
(** *** ensure_minimum_requirements                                       *)
(* --------------------------------------------------------------------- *)

(** The buffer under repair together with the [modifiable] array. *)
Definition Repair : Type := list ascii * list Z.

(** The loop [for (i = 0; i < length; i++) if (modifiable[i]) { ...; break; }]
    whose body is [password[i] = get_random_char_from_set(set, strlen(set));
    modifiable[i] = 0;]: the first position whose mark is nonzero is
    overwritten and its mark cleared.  The answer tells whether such a
    position existed; the random source is asked only then. *)
Definition overwrite_first_modifiable (char_set : list ascii) (st : Repair)
  : M (bool * Repair) :=
  let '(password, modifiable) := st in
  match list_find (fun m : Z => m <> 0%Z) modifiable with
  | Some (i, _) =>
    c ← get_random_char_from_set char_set (N.of_nat (strlen char_set));
    ret (true, (<[i := c]> password, <[i := 0%Z]> modifiable))
  | None => ret (false, st)
  end.

(** One block of the [require_all_types] part. *)
Definition require_type (selected : bool) (char_set : list ascii)
  (st : Repair) : M Repair :=
  if selected && negb (contains_char_type (fst st) char_set) then
    '(_, st') ← overwrite_first_modifiable char_set st;
    ret st'
  else ret st.

(** The loop [while (count < minimum) { for ... }] of the two minimum
    blocks.  [count] is incremented in the branch that overwrites a
    position.  Each evaluation of the loop body uses one unit of [fuel]. *)
Fixpoint raise_count (fuel : nat) (char_set : list ascii) (minimum count : N)
  (st : Repair) : M Repair :=
  if count <? minimum then
    match fuel with
    | O => cut_off
    | S fuel' =>
      '(found, st') ← overwrite_first_modifiable char_set st;
      raise_count fuel' char_set minimum
                  (if found : bool then count + 1 else count) st'
    end
  else ret st.

(** One minimum block. *)
Definition require_minimum (fuel : nat) (minimum : N) (char_set : list ascii)
  (st : Repair) : M Repair :=
  if 0 <? minimum then
    raise_count fuel char_set minimum (count_char_type (fst st) char_set) st
  else ret st.

Definition ensure_minimum_requirements (fuel : nat) (password : list ascii)
  (options : PasswordOptions) : M (list ascii) :=
  let length := strlen password in
  if (length =? 0)%nat then ret password
  else
    got ← allocate;
    if negb got then ret password
    else
      let modifiable := replicate length 1%Z in
      let c := charset options in
      st ← (if require_all_types options then
               st ← require_type (lowercase c) lowercase_chars
                                  (password, modifiable);
               st ← require_type (uppercase c) uppercase_chars st;
               st ← require_type (numbers c) number_chars st;
               require_type (special c) special_chars st
             else ret (password, modifiable));
      st ← require_minimum fuel (min_numbers options) number_chars st;
      st ← require_minimum fuel (min_special options) special_chars st;
      ret (fst st).

(* --------------------------------------------------------------------- *)
(** *** Results and the two generators                                    *)
(* --------------------------------------------------------------------- *)

(** [PasswordResult]; the [double entropy] field is left out.  A null
    [password] or [strength] pointer is [None]. *)
Record PasswordResult := {
  password : option (list ascii);
  res_length : N;
  strength_score : Z;
  strength : option string
}.

(** [PasswordResult result = {0}; result.strength = reason; return result;],
    which is also what the result holds after [free_password_result] and
    the assignment of the reason. *)
Definition failure (reason : string) : PasswordResult :=
  {| password := None; res_length := 0; strength_score := 0%Z;
     strength := Some reason |}.

(** [get_strength_category]. *)
Definition get_strength_category (score : Z) : string :=
  (if score <? STRENGTH_THRESHOLD_VERY_WEAK then "Very Weak"
   else if score <? STRENGTH_THRESHOLD_WEAK then "Weak"
   else if score <? STRENGTH_THRESHOLD_FAIR then "Fair"
   else if score <? STRENGTH_THRESHOLD_GOOD then "Good"
   else if score <? STRENGTH_THRESHOLD_STRONG then "Strong"
   else "Very Strong")%Z%string.

(** [if (score > 100) score = 100; if (score < 0) score = 0;] *)
Definition clamp_score (score : Z) : Z :=
  let score := if (100 <? score)%Z then 100%Z else score in
  if (score <? 0)%Z then 0%Z else score.

Section Generators.

(** [entropy_percent password options] stands for the [int] obtained as
    [(int)((calculate_entropy(password, options) / 128.0) * 100)], a
    floating-point computation. *)
Variable entropy_percent : list ascii -> PasswordOptions -> Z.

(** The metadata block shared by both generators. *)
Definition with_metadata (password : list ascii) (length : N)
  (options : PasswordOptions) : PasswordResult :=
  let score := clamp_score (entropy_percent password options) in
  {| password := Some password; res_length := length;
     strength_score := score;
     strength := Some (get_strength_category score) |}.

(** The pool of [generate_password] before filtering.  At most 70
    characters are appended to a [SecureString] of capacity 256, so the
    appends never reallocate. *)
Definition build_char_set (c : CharSetConfig) : list ascii :=
  let char_set := [] in
  let char_set := if lowercase c then char_set ++ lowercase_chars
                  else char_set in
  let char_set := if uppercase c then char_set ++ uppercase_chars
                  else char_set in
  let char_set := if numbers c then char_set ++ number_chars
                  else char_set in
  let char_set := if special c then char_set ++ special_chars
                  else char_set in
  char_set.

(** The loop copying the characters that [strchr] does not find in
    [ambiguous_chars]. *)
Definition filter_ambiguous (char_set : list ascii) : list ascii :=
  List.filter (fun ch => negb (strchr ambiguous_chars ch)) char_set.

(** The loop [for (i = 0; i < options->length; i++)] that fills the buffer;
    [k] counts the iterations that remain. *)
Fixpoint fill_random (k i : nat) (char_set password : list ascii)
  : M (list ascii) :=
  match k with
  | O => ret password
  | S k' =>
    random_byte ← random_byte;
    let index := random_byte mod N.of_nat (length char_set) in
    fill_random k' (S i) char_set
                (<[i := char_at char_set (N.to_nat index)]> password)
  end.

Definition generate_password (fuel : nat) (options : option PasswordOptions)
  : M PasswordResult :=
  match options with
  | None => ret (failure "Invalid options")
  | Some o =>
    if negb (validate_options options) then ret (failure "Invalid options")
    else
      got ← allocate;
      if negb got then ret (failure "Memory error")
      else
        let c := charset o in
        let char_set := build_char_set c in
        filtered ←
          (if avoid_ambiguous c && (0 <? length char_set)%nat then
             got ← allocate;
             if negb got then ret None
             else ret (Some (filter_ambiguous char_set))
           else ret (Some char_set));
        match filtered with
        | None => ret (failure "Memory error")
        | Some char_set =>
          if (length char_set =? 0)%nat
          then ret (failure "No character set selected")
          else
            got ← allocate;
            if negb got then ret (failure "Memory error")
            else
              let n := N.to_nat (opt_length o) in
              password ← fill_random n 0 char_set (replicate n NUL);
              password ←
                (if require_all_types o || (0 <? min_numbers o) ||
                    (0 <? min_special o)
                 then ensure_minimum_requirements fuel password o
                 else ret password);
              ret (with_metadata password (opt_length o) o)
        end
  end.

(** The [switch] of [generate_password_from_pattern]; [None] is the
    [default] branch. *)
Definition pattern_char_set (pattern_char : ascii) : option (list ascii) :=
  if Ascii.eqb pattern_char "l" then Some lowercase_chars
  else if Ascii.eqb pattern_char "U" then Some uppercase_chars
  else if Ascii.eqb pattern_char "n" then Some number_chars
  else if Ascii.eqb pattern_char "s" then Some special_chars
  else None.

(** The loop over the pattern; [k] counts the iterations that remain.  The
    answer is the reason of an early return or the filled buffer. *)
Fixpoint pattern_loop (k i : nat) (pattern password : list ascii)
  : M (string + list ascii) :=
  match k with
  | O => ret (inr password)
  | S k' =>
    let pattern_char := char_at pattern i in
    match pattern_char_set pattern_char with
    | None => ret (inl "Invalid pattern character"%string)
    | Some char_set =>
      generated_char ←
        get_random_char_from_set char_set (N.of_nat (strlen char_set));
      if is_nul generated_char
      then ret (inl "Failed to generate character"%string)
      else pattern_loop k' (S i) pattern (<[i := generated_char]> password)
    end
  end.

Definition generate_password_from_pattern (pattern : option (list ascii))
  : M PasswordResult :=
  match pattern with
  | None => ret (failure "Invalid pattern")
  | Some pattern =>
    if (strlen pattern =? 0)%nat then ret (failure "Invalid pattern")
    else
      let length := strlen pattern in
      got ← allocate;
      if negb got then ret (failure "Memory error")
      else
        filled ← pattern_loop length 0 pattern (replicate length NUL);
        match filled with
        | inl reason => ret (failure reason)
        | inr password =>
          let options :=
            {| opt_length := N.of_nat length;
               charset := {| lowercase := strchr pattern "l";
                             uppercase := strchr pattern "U";
                             numbers := strchr pattern "n";
                             special := strchr pattern "s";
                             avoid_ambiguous := false |};
               require_all_types := true;
               min_numbers := 1;
               min_special := 1 |} in
          ret (with_metadata password (N.of_nat length) options)
        end
  end.

End Generators.

End Password.

(* ===================================================================== *)
(** ** security.c                                                         *)
(* ===================================================================== *)

Module Security.

(** *** Reads of a caller's buffer

    A password handed to the assessment functions is a buffer holding the
    characters of the list and the terminator behind them.  A read is
    either [Done] with the character or [OutOfBounds] at the index. *)
Inductive access (A : Type) : Type :=
  | Done (a : A)
  | OutOfBounds (index : N).

Arguments Done {A} a.
Arguments OutOfBounds {A} index.

#[export] Instance access_ret : MRet access := fun A a => Done a.

#[export] Instance access_bind : MBind access := fun A B k m =>
  match m with
  | Done a => k a
  | OutOfBounds index => OutOfBounds index
  end.

(** [password[i]]. *)
Definition read (password : list ascii) (i : N) : access ascii :=
  if i <=? N.of_nat (length password)
  then Done (char_at password (N.to_nat i))
  else OutOfBounds i.

(** *** [for] loops over a [size_t] counter

    The body of a loop either goes on to the [Next] iteration with the
    updated locals or [Leave]s the loop ([break], [return]). *)
Inductive flow (S R : Type) : Type :=
  | Next (s : S)
  | Leave (r : R).

Arguments Next {S R} s.
Arguments Leave {S R} r.

(** [2 ^ n] applications of [step], stopping at the first [Leave]. *)
Fixpoint iterate_pow2 {S R : Type} (n : nat) (step : S -> flow S R) (s : S)
  : flow S R :=
  match n with
  | O => step s
  | S n' =>
    match iterate_pow2 n' step s with
    | Next s' => iterate_pow2 n' step s'
    | Leave r => Leave r
    end
  end.

(** One evaluation of [i < hi], the body and [i++]. *)
Definition for_step {S R : Type} (hi : N)
  (body : N -> S -> access (flow S R)) (st : N * S)
  : flow (N * S) (access (flow S R)) :=
  let '(i, s) := st in
  if i <? hi then
    match body i s with
    | Done (Next s') => Next (i + 1, s')
    | Done (Leave r) => Leave (Done (Leave r))
    | OutOfBounds index => Leave (OutOfBounds index)
    end
  else Leave (Done (Next s)).

(** [for (size_t i = lo; i < hi; i++) body].  The condition is evaluated
    at most [hi + 1] times, and [2 ^ N.size hi] exceeds [hi]. *)
Definition for_size {S R : Type} (lo hi : N)
  (body : N -> S -> access (flow S R)) (s : S) : access (flow S R) :=
  match iterate_pow2 (N.size_nat hi) (for_step hi body) (lo, s) with
  | Leave r => r
  | Next (_, s') => Done (Next s')
  end.

(** The locals behind a loop that was left by [break]. *)
Definition after_break {S : Type} (f : flow S S) : S :=
  match f with
  | Next s => s
  | Leave s => s
  end.

(** *** Types of security.h *)

Inductive StrengthCategory : Type :=
  | STRENGTH_VERY_WEAK
  | STRENGTH_WEAK
  | STRENGTH_FAIR
  | STRENGTH_GOOD
  | STRENGTH_STRONG
  | STRENGTH_VERY_STRONG.

(** [SecurityAssessment] without its two [double] fields. *)
Record SecurityAssessment := {
  score : Z;
  category : StrengthCategory;
  has_weak_pattern : bool;
  has_dictionary_word : bool;
  is_duplicate : bool
}.

(** The patterns of the [weak_patterns] table. *)
Definition weak_patterns : list (list ascii) :=
  map lit
    ["123"; "abc"; "qwerty"; "password"; "admin"; "letmein"; "welcome";
     "monkey"; "dragon"; "baseball"; "football"; "mustang"; "master";
     "hello"; "secret"; "asdf"; "zxcv"; "111"; "aaa"; "000"]%string.

Definition dictionary_words : list (list ascii) :=
  map lit
    ["password"; "123456"; "12345678"; "1234"; "qwerty";
     "12345"; "dragon"; "pussy"; "baseball"; "football";
     "letmein"; "monkey"; "696969"; "abc123"; "mustang";
     "michael"; "shadow"; "master"; "jennifer"; "111111";
     "2000"; "jordan"; "superman"; "harley"; "1234567";
     "fuckme"; "hunter"; "fuckyou"; "trustno1"; "ranger";
     "buster"; "thomas"; "tigger"; "robert"; "soccer";
     "fuck"; "batman"; "test"; "pass"; "killer";
     "hockey"; "george"; "charlie"; "andrew"; "michelle";
     "love"; "sunshine"; "jessica"; "pepper"; "daniel";
     "access"; "123456789"; "654321"; "joshua"; "maggie";
     "starwars"; "silver"; "william"; "dallas"; "yankees";
     "123123"; "ashley"; "666666"; "hello"; "amanda";
     "orange"; "biteme"; "freedom"; "computer"; "sexy";
     "thunder"; "nicole"; "ginger"; "heather"; "hammer";
     "summer"; "corvette"; "taylor"; "fucker"; "austin";
     "1111"; "merlin"; "matthew"; "121212"; "golfer";
     "cheese"; "princess"; "martin"; "chelsea"; "patrick";
     "richard"; "diamond"; "yellow"; "bigdog"; "secret";
     "asdfgh"; "sparky"; "cowboy"]%string.

Definition security_assessment_init : SecurityAssessment :=
  {| score := 0; category := STRENGTH_VERY_WEAK;
     has_weak_pattern := false; has_dictionary_word := false;
     is_duplicate := false |}.

(** *** calculate_strength_score *)

(** The four flags [has_lower], [has_upper], [has_digit], [has_special]. *)
Definition Classes : Type := bool * bool * bool * bool.

Definition classify (c : ascii) (f : Classes) : Classes :=
  let '(has_lower, has_upper, has_digit, has_special) := f in
  if islower c then (true, has_upper, has_digit, has_special)
  else if isupper c then (has_lower, true, has_digit, has_special)
  else if isdigit c then (has_lower, has_upper, true, has_special)
  else (has_lower, has_upper, has_digit, true).

Definition calculate_strength_score (password : option (list ascii))
  (length : N) : access Z :=
  match password with
  | None => Done 0%Z
  | Some password =>
    if length <? MIN_PASSWORD_LENGTH then Done 0%Z
    else
      let score := 0%Z in
      let score := if 12 <=? length then (score + 40)%Z
                   else if 10 <=? length then (score + 30)%Z
                   else if 8 <=? length then (score + 20)%Z
                   else (score + 10)%Z in
      classes ← for_size (R := Classes) 0 length
                  (fun i f => c ← read password i; Done (Next (classify c f)))
                  (false, false, false, false);
      let '(has_lower, has_upper, has_digit, has_special) :=
        after_break (classes : flow Classes Classes) in
      let variety_count :=
        ((if has_lower then 1 else 0) + (if has_upper then 1 else 0) +
         (if has_digit then 1 else 0) + (if has_special then 1 else 0))%Z in
      let score := (if variety_count =? 4 then score + 40
                    else if variety_count =? 3 then score + 30
                    else if variety_count =? 2 then score + 20
                    else if variety_count =? 1 then score + 10
                    else score)%Z in
      middle ← for_size 1 (size_sub length 1)
                 (fun i score =>
                    c ← read password i;
                    if negb (isalpha c) then Done (Leave (score + 10)%Z)
                    else Done (Next score))
                 score;
      let score := after_break (middle : flow Z Z) in
      let score := if (8 <=? length) && has_lower && has_upper && has_digit
                   then (score + 10)%Z else score in
      let score := if (100 <? score)%Z then 100%Z else score in
      Done score
  end.

(** *** check_weak_patterns *)

(** The body of the sequential-characters loop. *)
Definition sequential_body (password : list ascii) (i : N) (_ : unit)
  : access (flow unit bool) :=
  c1 ← read password i;
  c2 ← read password (i + 1);
  c3 ← read password (i + 2);
  if isdigit c1 && isdigit c2 && isdigit c3 &&
     ((code c1 + 1 =? code c2) && (code c2 + 1 =? code c3))%Z
  then Done (Leave true)
  else if isdigit c1 && isdigit c2 && isdigit c3 &&
          ((code c1 - 1 =? code c2) && (code c2 - 1 =? code c3))%Z
  then Done (Leave true)
  else if isalpha c1 && isalpha c2 && isalpha c3 &&
          ((tolower_code c1 + 1 =? tolower_code c2) &&
           (tolower_code c2 + 1 =? tolower_code c3))%Z
  then Done (Leave true)
  else if isalpha c1 && isalpha c2 && isalpha c3 &&
          ((tolower_code c1 - 1 =? tolower_code c2) &&
           (tolower_code c2 - 1 =? tolower_code c3))%Z
  then Done (Leave true)
  else Done (Next tt).

(** The body of the repeated-characters loop; [&&] reads [password[i + 2]]
    only behind a successful first comparison. *)
Definition repeated_body (password : list ascii) (i : N) (_ : unit)
  : access (flow unit bool) :=
  a ← read password i;
  b ← read password (i + 1);
  if Ascii.eqb a b then
    a' ← read password i;
    c ← read password (i + 2);
    if Ascii.eqb a' c then Done (Leave true) else Done (Next tt)
  else Done (Next tt).

Definition keyboard_rows : list (list ascii) :=
  map lit ["qwertyuiop"; "asdfghjkl"; "zxcvbnm"; "1234567890"]%string.

(** The loops over [keyboard_rows]: [i] runs over [0 .. row_len - 3]. *)
Definition keyboard_match (password : list ascii) : bool :=
  existsb
    (fun row =>
       let row_len := strlen row in
       existsb
         (fun i =>
            strstr password
                   [char_at row i; char_at row (i + 1); char_at row (i + 2)]
            || strstr password
                      [char_at row (i + 2); char_at row (i + 1);
                       char_at row i])
         (seq 0 (row_len - 2)))
    keyboard_rows.

Definition check_weak_patterns (password : option (list ascii))
  : access bool :=
  match password with
  | None => Done false
  | Some password =>
    let pass_len := N.of_nat (strlen password) in
    if existsb (strstr password) weak_patterns then Done true
    else
      sequential ← for_size 0 (size_sub pass_len 2)
                     (sequential_body password) tt;
      match sequential : flow unit bool with
      | Leave found => Done found
      | Next _ =>
        repeated ← for_size 0 (size_sub pass_len 2)
                     (repeated_body password) tt;
        match repeated : flow unit bool with
        | Leave found => Done found
        | Next _ => Done (keyboard_match password)
        end
      end
  end.

(** *** check_dictionary_words *)

(** The [switch] of the leet-speak loop. *)
Definition leet_substitute (c : ascii) : ascii :=
  if Ascii.eqb c "4" then "a"
  else if Ascii.eqb c "3" then "e"
  else if Ascii.eqb c "0" then "o"
  else if Ascii.eqb c "1" then "i"
  else if Ascii.eqb c "5" then "s"
  else if Ascii.eqb c "7" then "t"
  else if Ascii.eqb c "@" then "a"
  else if Ascii.eqb c "$" then "s"
  else if Ascii.eqb c "!" then "i"
  else c.

(** [check_dictionary_words]; [strdup_ok] tells whether [strdup] obtains
    memory.  [lower_password] is a local array of 256 characters. *)
Definition check_dictionary_words (strdup_ok : bool)
  (password : option (list ascii)) : bool :=
  match password with
  | None => false
  | Some password =>
    let pass_len := strlen password in
    let pass_len := if (256 <=? pass_len)%nat then (256 - 1)%nat
                    else pass_len in
    let lower_password := map tolower (take pass_len password) in
    if existsb (strstr lower_password) dictionary_words then true
    else if negb strdup_ok then false
    else
      let leet_password := map leet_substitute (chars lower_password) in
      existsb (strstr leet_password) dictionary_words
  end.

(** *** assess_password_security *)

(** [(StrengthCategory)v] followed by
    [if (category > STRENGTH_VERY_STRONG) category = STRENGTH_VERY_STRONG],
    for the values [v >= 0] that a score divided by 20 takes. *)
Definition category_of_int (v : Z) : StrengthCategory :=
  (if v =? 0 then STRENGTH_VERY_WEAK
   else if v =? 1 then STRENGTH_WEAK
   else if v =? 2 then STRENGTH_FAIR
   else if v =? 3 then STRENGTH_GOOD
   else if v =? 4 then STRENGTH_STRONG
   else STRENGTH_VERY_STRONG)%Z.

(** [assess_password_security].  The category assigned in front of the
    checks is overwritten behind them and is left out.  The calls of
    [calculate_simple_entropy] and [estimate_crack_time] compute [double]s;
    the former reads the same positions as the first loop of
    [calculate_strength_score]. *)
Definition assess_password_security (strdup_ok : bool)
  (password : option (list ascii)) (length : N) : access SecurityAssessment :=
  let assessment := security_assessment_init in
  match password with
  | None => Done assessment
  | Some pw =>
    if length =? 0 then Done assessment
    else
      score ← calculate_strength_score password length;
      has_weak_pattern ← check_weak_patterns password;
      let has_dictionary_word := check_dictionary_words strdup_ok password in
      let score := if has_weak_pattern : bool
                   then (score * 70 ÷ 100)%Z else score in
      let score := if has_dictionary_word
                   then (score * 60 ÷ 100)%Z else score in
      let score := if (score <? 0)%Z then 0%Z else score in
      let score := if (100 <? score)%Z then 100%Z else score in
      Done {| score := score;
              category := category_of_int (score ÷ 20);
              has_weak_pattern := has_weak_pattern;
              has_dictionary_word := has_dictionary_word;
              is_duplicate := false |}
  end.

End Security.

Import Password Security.

(* ===================================================================== *)
(** ** Concrete inputs used in the examples                               *)
(* ===================================================================== *)

Module Inputs.

(** A world whose random source delivers the bytes of [l] and then zeros,
    and whose allocator always succeeds. *)
Definition world_of (l : list N) : World :=
  {| random_bytes := fun k => nth k l 0; random_pos := 0;
     alloc_ok := fun _ => true; alloc_pos := 0 |}.

(** A world whose first allocation fails. *)
Definition world_out_of_memory : World :=
  {| random_bytes := fun _ => 0; random_pos := 0;
     alloc_ok := fun _ => false; alloc_pos := 0 |}.

Definition default_like : PasswordOptions :=
  {| opt_length := 12;
     charset := {| lowercase := true; uppercase := true; numbers := true;
                   special := false; avoid_ambiguous := false |};
     require_all_types := true; min_numbers := 2; min_special := 0 |}.

(** All four categories, all types required, no minimums. *)
Definition all_types_options : PasswordOptions :=
  {| opt_length := 8;
     charset := {| lowercase := true; uppercase := true; numbers := true;
                   special := true; avoid_ambiguous := false |};
     require_all_types := true; min_numbers := 0; min_special := 0 |}.

(** Lowercase letters and digits, two digits wanted. *)
Definition two_digits_options : PasswordOptions :=
  {| opt_length := 8;
     charset := {| lowercase := true; uppercase := false; numbers := true;
                   special := false; avoid_ambiguous := false |};
     require_all_types := false; min_numbers := 2; min_special := 0 |}.

(** Lowercase letters and digits without the ambiguous characters, all
    types required. *)
Definition unambiguous_options : PasswordOptions :=
  {| opt_length := 8;
     charset := {| lowercase := true; uppercase := false; numbers := true;
                   special := false; avoid_ambiguous := true |};
     require_all_types := true; min_numbers := 0; min_special := 0 |}.

(** Letters and digits, all types required, eight digits wanted in a
    password of length eight. *)
Definition eight_digits_options : PasswordOptions :=
  {| opt_length := 8;
     charset := {| lowercase := true; uppercase := true; numbers := true;
                   special := false; avoid_ambiguous := false |};
     require_all_types := true; min_numbers := 8; min_special := 0 |}.

End Inputs.

Import Inputs.

(* ===================================================================== *)
(** ** Vocabulary of the statements                                       *)
(* ===================================================================== *)

Module Vocabulary.

(** Number of positions that [ensure_minimum_requirements] may still
    overwrite. *)
Definition modifiable_count (modifiable : list Z) : nat :=
  length (List.filter (fun m => negb (m =? 0)%Z) modifiable).

(** The password holds one of the characters [l], [I], [1], [O], [0]. *)
Definition has_ambiguous (password : list ascii) : bool :=
  existsb (fun c => existsb (Ascii.eqb c) (lit "lI1O0")) password.

(** The pattern codes [l], [U], [n], [s]. *)
Definition is_code (c : ascii) : bool :=
  existsb (Ascii.eqb c) (lit "lUns").

(** [generated] belongs to the sub-alphabet named by the code: lowercase
    for [l], uppercase for [U], digits for [n], the special set for [s]. *)
Definition matches_code (pattern_char generated : ascii) : bool :=
  if Ascii.eqb pattern_char "l" then islower generated
  else if Ascii.eqb pattern_char "U" then isupper generated
  else if Ascii.eqb pattern_char "n" then isdigit generated
  else if Ascii.eqb pattern_char "s"
  then existsb (Ascii.eqb generated) (lit "!@#$%^&*")
  else false.

(** The reason strings of the generators' failure results. *)
Definition failure_reasons : list string :=
  ["Invalid options"; "Memory error"; "No character set selected";
   "Invalid pattern"; "Invalid pattern character";
   "Failed to generate character"]%string.

(** The labels of [get_strength_category]. *)
Definition strength_labels : list string :=
  ["Very Weak"; "Weak"; "Fair"; "Good"; "Strong"; "Very Strong"]%string.

(** A result that reports a failure: no password, and a reason. *)
Definition is_failure_result (r : PasswordResult) : Prop :=
  exists reason, In reason failure_reasons /\ r = failure reason.

(** A result that carries a password, labelled with a strength category. *)
Definition is_success_result (r : PasswordResult) : Prop :=
  exists password_chars label,
    password r = Some password_chars /\ In label strength_labels /\
    strength r = Some label.

(** The pool [generate_password] draws from. *)
Definition selected_pool (c : CharSetConfig) : list ascii :=
  if avoid_ambiguous c then filter_ambiguous (build_char_set c)
  else build_char_set c.

(** One of the allocation requests of [generate_password] itself fails:
    the pool, the filtered pool when ambiguous characters are avoided, or
    the password buffer. *)
Definition generator_out_of_memory (o : PasswordOptions) (w : World) : bool :=
  let p := alloc_pos w in
  negb (alloc_ok w p) ||
  (if avoid_ambiguous (charset o)
   then negb (alloc_ok w (S p)) || negb (alloc_ok w (S (S p)))
   else negb (alloc_ok w (S p))).

(** The part of [generate_password] behind its three allocations. *)
Definition generate_tail (entropy_percent : list ascii -> PasswordOptions -> Z)
  (fuel : nat) (o : PasswordOptions) : M PasswordResult :=
  let n := N.to_nat (opt_length o) in
  password ← fill_random n 0 (selected_pool (charset o)) (replicate n NUL);
  password ←
    (if require_all_types o || (0 <? min_numbers o) || (0 <? min_special o)
     then ensure_minimum_requirements fuel password o
     else ret password);
  ret (with_metadata entropy_percent password (opt_length o) o).

(** [k] applications of a loop step, stopping at the first [Leave]. *)
Fixpoint iterate {S R : Type} (k : nat) (step : S -> flow S R) (s : S)
  : flow S R :=
  match k with
  | O => Next s
  | S k' =>
    match step s with
    | Next s' => iterate k' step s'
    | Leave r => Leave r
    end
  end.

(** A [for] loop that runs its body for the counter values
    [i, i + 1, ..., i + count - 1] unless the body leaves it. *)
Fixpoint for_range {S R : Type} (count : nat) (i : N)
  (body : N -> S -> access (flow S R)) (s : S) : access (flow S R) :=
  match count with
  | O => Done (Next s)
  | S count' =>
    match body i s with
    | Done (Next s') => for_range count' (i + 1) body s'
    | Done (Leave r) => Done (Leave r)
    | OutOfBounds index => OutOfBounds index
    end
  end.

(** A character that is neither a lowercase letter, an uppercase letter
    nor a digit. *)
Definition is_other (c : ascii) : bool :=
  negb (islower c) && negb (isupper c) && negb (isdigit c).

(** Number of character classes among lower/upper/digit/other that occur
    in the password. *)
Definition class_count (s : list ascii) : Z :=
  Z.b2z (existsb islower s) + Z.b2z (existsb isupper s) +
  Z.b2z (existsb isdigit s) + Z.b2z (existsb is_other s).

(** L: the length component for a password of at least 8 characters. *)
Definition length_points (s : list ascii) : Z :=
  if (12 <=? length s)%nat then 40
  else if (10 <=? length s)%nat then 30
  else 20.

(** The characters strictly between the first and the last position. *)
Definition middle (s : list ascii) : list ascii := removelast (tail s).

(** M: the middle-complexity bonus. *)
Definition middle_points (s : list ascii) : Z :=
  if existsb (fun c => negb (isalpha c)) (middle s) then 10 else 0.

(** C: the composite bonus. *)
Definition composite_points (s : list ascii) : Z :=
  if existsb islower s && existsb isupper s && existsb isdigit s
  then 10 else 0.

(** [min(100, L + V + M + C)]. *)
Definition strength_score_formula (s : list ascii) : Z :=
  Z.min 100 (length_points s + 10 * class_count s + middle_points s +
             composite_points s).

(** The score behind the penalties: times 0.70 for a weak pattern, then
    times 0.60 for a dictionary word, each truncated, and the clamp to
    [0, 100]. *)
Definition adjusted_score (weak_pattern dictionary_word : bool) (base : Z)
  : Z :=
  let reduced := if weak_pattern then (base * 70 / 100)%Z else base in
  let reduced := if dictionary_word then (reduced * 60 / 100)%Z
                 else reduced in
  Z.max 0 (Z.min 100 reduced).

(** The category read off the generation table: VeryWeak below 20, Weak
    below 40, Fair below 60, Good below 75, Strong below 90, else
    VeryStrong. *)
Definition category_by_generation_table (score : Z) : StrengthCategory :=
  (if score <? 20 then STRENGTH_VERY_WEAK
   else if score <? 40 then STRENGTH_WEAK
   else if score <? 60 then STRENGTH_FAIR
   else if score <? 75 then STRENGTH_GOOD
   else if score <? 90 then STRENGTH_STRONG
   else STRENGTH_VERY_STRONG)%Z.

(** The category in steps of twenty: VeryWeak below 20, Weak below 40,
    Fair below 60, Good below 80, Strong below 100, VeryStrong at 100. *)
Definition category_by_twenties (score : Z) : StrengthCategory :=
  (if score <? 20 then STRENGTH_VERY_WEAK
   else if score <? 40 then STRENGTH_WEAK
   else if score <? 60 then STRENGTH_FAIR
   else if score <? 80 then STRENGTH_GOOD
   else if score <? 100 then STRENGTH_STRONG
   else STRENGTH_VERY_STRONG)%Z.

End Vocabulary.

Import Vocabulary.

(* ===================================================================== *)
(** ** password.c: the remaining functions                                *)
(* ===================================================================== *)

Module PasswordRest.

(** Equality of characters is decidable. *)
Definition ascii_eq_decision : EqDecision ascii := Ascii.ascii_dec.

Definition MAX_BULK_GENERATE : N := 100.

(** The local [pool_size] of [calculate_entropy] in front of the test
    [pool_size == 0]: the sizes of the selected alphabets, and for each
    character of [ambiguous_chars] that [strchr] finds in a selected
    alphabet of letters or digits one less when ambiguous characters are
    avoided. *)
Definition without_ambiguous (char_set : list ascii) (pool_size : N) : N :=
  fold_left
    (fun pool_size c =>
       if strchr char_set c then size_sub pool_size 1 else pool_size)
    (chars ambiguous_chars) pool_size.

Definition entropy_pool_size (options : PasswordOptions) : N :=
  let c := charset options in
  let pool_size := 0 in
  let pool_size :=
    if lowercase c then
      let pool_size := size_add pool_size (N.of_nat (strlen lowercase_chars)) in
      if avoid_ambiguous c then without_ambiguous lowercase_chars pool_size
      else pool_size
    else pool_size in
  let pool_size :=
    if uppercase c then
      let pool_size := size_add pool_size (N.of_nat (strlen uppercase_chars)) in
      if avoid_ambiguous c then without_ambiguous uppercase_chars pool_size
      else pool_size
    else pool_size in
  let pool_size :=
    if numbers c then
      let pool_size := size_add pool_size (N.of_nat (strlen number_chars)) in
      if avoid_ambiguous c then without_ambiguous number_chars pool_size
      else pool_size
    else pool_size in
  let pool_size :=
    if special c then size_add pool_size (N.of_nat (strlen special_chars))
    else pool_size in
  pool_size.

(** [calculate_entropy] returns [0.0] for a null argument or an empty pool
    ([None]) and otherwise the [double]
    [(double)strlen(password) * log2((double)pool_size)], of which the two
    integers are given. *)
Definition calculate_entropy_factors (password : option (list ascii))
  (options : option PasswordOptions) : option (nat * N) :=
  match password, options with
  | Some password, Some options =>
    let pool_size := entropy_pool_size options in
    if pool_size =? 0 then None else Some (strlen password, pool_size)
  | _, _ => None
  end.

Section Bulk.

Variable entropy_percent : list ascii -> PasswordOptions -> Z.

(** The loop of [generate_bulk_passwords]; [k] counts the iterations that
    remain, [results] is the caller's array. *)
Fixpoint bulk_loop (k i : nat) (fuel : nat) (options : PasswordOptions)
  (results : list PasswordResult) (successful : N)
  : M (N * list PasswordResult) :=
  match k with
  | O => ret (successful, results)
  | S k' =>
    r ← generate_password entropy_percent fuel (Some options);
    let results := <[i := r]> results in
    match password r with
    | Some _ => bulk_loop k' (S i) fuel options results (successful + 1)
    | None => ret (successful, results)
    end
  end.

(** [generate_bulk_passwords]: the number returned and the array behind
    the call. *)
Definition generate_bulk_passwords (fuel : nat)
  (options : option PasswordOptions) (count : N)
  (results : option (list PasswordResult))
  : M (N * option (list PasswordResult)) :=
  match options, results with
  | Some o, Some rs =>
    if (count =? 0) || (MAX_BULK_GENERATE <? count) then ret (0, results)
    else if negb (validate_options options) then ret (0, results)
    else
      '(successful, rs') ← bulk_loop (N.to_nat count) 0 fuel o rs 0;
      ret (successful, Some rs')
  | _, _ => ret (0, results)
  end.

End Bulk.

End PasswordRest.

Import PasswordRest.

(* ===================================================================== *)
(** ** security.c and ui.c: the strength labels                           *)
(* ===================================================================== *)

Module Labels.

(** [get_strength_string] of security.c. *)
Definition get_strength_string (category : StrengthCategory) : string :=
  match category with
  | STRENGTH_VERY_WEAK => "Very Weak"
  | STRENGTH_WEAK => "Weak"
  | STRENGTH_FAIR => "Fair"
  | STRENGTH_GOOD => "Good"
  | STRENGTH_STRONG => "Strong"
  | STRENGTH_VERY_STRONG => "Very Strong"
  end.

(** What [show_strength_meter] of ui.c prints: the twenty cells of the
    bar, each either filled in the colour with the given index into
    [colors] or empty, and the label behind the bar.  The products are
    taken in [Z]; for the scores 0..100 they are far from the range of
    [int]. *)
Definition show_strength_meter (score : Z) : list (option Z) * string :=
  let labels := ["Very Weak"; "Weak"; "Fair"; "Good"; "Strong";
                 "Very Strong"]%string in
  let segments := 20%Z in
  let filled_segments := ((score * segments) ÷ 100)%Z in
  let cells :=
    map (fun i : nat =>
           let i := Z.of_nat i in
           if (i <? filled_segments)%Z then
             let color_index := ((i * 6) ÷ segments)%Z in
             let color_index := if (6 <=? color_index)%Z then 5%Z
                                else color_index in
             Some color_index
           else None)
        (seq 0 (Z.to_nat segments)) in
  let label_index := (score ÷ 20)%Z in
  let label_index := if (6 <=? label_index)%Z then 5%Z else label_index in
  let label_index := if (label_index <? 0)%Z then 0%Z else label_index in
  (cells, nth (Z.to_nat label_index) labels ""%string).

End Labels.

Import Labels.

(* ===================================================================== *)
(** ** Vocabulary of the statements on the repair pass                    *)
(* ===================================================================== *)

Module RepairVocabulary.

(** A sub-alphabet the repair may draw from: a nonempty C string whose
    characters all satisfy [P]. *)
Definition drawable (P : ascii -> Prop) (char_set : list ascii) : Prop :=
  strlen char_set = length char_set /\ char_set <> [] /\
  forall ch, In ch char_set -> P ch.

(** What every step of the repair keeps: the two array lengths and [P] on
    every character of the buffer. *)
Definition kept (P : ascii -> Prop) (n : nat) (st : Repair) : Prop :=
  length (fst st) = n /\ length (snd st) = n /\ Forall P (fst st).

(** The sub-alphabets a run of the repair pass on [o] may draw from. *)
Definition repair_sets_drawable (P : ascii -> Prop) (o : PasswordOptions)
  : Prop :=
  (require_all_types o = true -> lowercase (charset o) = true ->
   drawable P lowercase_chars) /\
  (require_all_types o = true -> uppercase (charset o) = true ->
   drawable P uppercase_chars) /\
  ((require_all_types o = true /\ numbers (charset o) = true) \/
   0 < min_numbers o -> drawable P number_chars) /\
  ((require_all_types o = true /\ special (charset o) = true) \/
   0 < min_special o -> drawable P special_chars).

(** Positions the required-types part may consume: one per selected
    category when all types are required. *)
Definition required_positions (o : PasswordOptions) : N :=
  if require_all_types o then selected_types (charset o) else 0.

End RepairVocabulary.

Import RepairVocabulary.

(* ===================================================================== *)
(** ** Further concrete inputs                                            *)
(* ===================================================================== *)

Module MoreInputs.

(** Lowercase letters and digits without the ambiguous characters, no
    required types and no minimums. *)
Definition plain_unambiguous_options : PasswordOptions :=
  {| opt_length := 8;
     charset := {| lowercase := true; uppercase := false; numbers := true;
                   special := false; avoid_ambiguous := true |};
     require_all_types := false; min_numbers := 0; min_special := 0 |}.

(** A world whose random source delivers zeros and whose allocator serves
    the first [k] requests and none after them. *)
Definition world_with_memory_for (k : nat) : World :=
  {| random_bytes := fun _ => 0; random_pos := 0;
     alloc_ok := fun request => (request <? k)%nat; alloc_pos := 0 |}.

End MoreInputs.

Import MoreInputs.

(* ===================================================================== *)
(** ** Vocabulary of the statements on the assessment                     *)
(* ===================================================================== *)

Module SecurityVocabulary.

(** The three characters at [i], [i + 1], [i + 2] are digits in steps of
    one, up or down, or letters in steps of one, up or down, case
    ignored. *)
Definition sequential_at (s : list ascii) (i : nat) : bool :=
  let c1 := char_at s i in
  let c2 := char_at s (i + 1) in
  let c3 := char_at s (i + 2) in
  (isdigit c1 && isdigit c2 && isdigit c3 &&
   (((code c1 + 1 =? code c2) && (code c2 + 1 =? code c3)) ||
    ((code c1 - 1 =? code c2) && (code c2 - 1 =? code c3)))%Z) ||
  (isalpha c1 && isalpha c2 && isalpha c3 &&
   (((tolower_code c1 + 1 =? tolower_code c2) &&
     (tolower_code c2 + 1 =? tolower_code c3)) ||
    ((tolower_code c1 - 1 =? tolower_code c2) &&
     (tolower_code c2 - 1 =? tolower_code c3)))%Z).

(** The three characters at [i], [i + 1], [i + 2] are the same. *)
Definition repeated_at (s : list ascii) (i : nat) : bool :=
  Ascii.eqb (char_at s i) (char_at s (i + 1)) &&
  Ascii.eqb (char_at s i) (char_at s (i + 2)).

(** A weak pattern: a table entry, a run or a repetition at some position,
    or three neighbours of a keyboard row. *)
Definition weak_pattern_present (s : list ascii) : bool :=
  existsb (strstr s) weak_patterns ||
  existsb (sequential_at s) (seq 0 (strlen s - 2)) ||
  existsb (repeated_at s) (seq 0 (strlen s - 2)) ||
  keyboard_match s.

(** The string [p] stands somewhere in the string of [s]. *)
Definition occurs (p s : list ascii) : Prop :=
  exists pre post, chars s = pre ++ p ++ post.

(** [a], [b], [c] are neighbours, in this order, on a keyboard row. *)
Definition neighbours (row : list ascii) (a b c : ascii) : Prop :=
  exists pre post, row = pre ++ [a; b; c] ++ post.

(** What the scan of [check_weak_patterns] is there to find: an entry of
    the table somewhere in the password, a run or a repetition of three
    characters, or three neighbours of a keyboard row, forwards or
    backwards. *)
Definition weak_pattern (s : list ascii) : Prop :=
  (exists p, In p weak_patterns /\ occurs p s) \/
  (exists i, (i + 2 < strlen s)%nat /\ sequential_at s i = true) \/
  (exists i, (i + 2 < strlen s)%nat /\ repeated_at s i = true) \/
  (exists row a b c,
     In row keyboard_rows /\ neighbours row a b c /\
     (occurs [a; b; c] s \/ occurs [c; b; a] s)).

End SecurityVocabulary.

Import SecurityVocabulary.

(* ===================================================================== *)
(** ** utils.c: text typed by the user                                    *)
(* ===================================================================== *)

Module Utils.

(** [isspace] of <ctype.h> in the "C" locale. *)
Definition isspace (c : ascii) : bool :=
  in_range 9 13 c || (code c =? 32)%Z.

Definition newline : ascii := ascii_of_nat 10.

(** [while (isspace((unsigned char)*str)) str++;]: by how far [str]
    moves. *)
Fixpoint skip_space (str : list ascii) : nat :=
  match str with
  | [] => 0%nat
  | c :: str' => if isspace c then S (skip_space str') else 0%nat
  end.

(** [while (end > str && isspace((unsigned char)*end)) end--;] entered
    with [end = str + k]; the answer is [end - str] behind the loop. *)
Fixpoint back_over_space (str : list ascii) (k : nat) : nat :=
  match k with
  | O => 0%nat
  | S k' => if isspace (char_at str k) then back_over_space str k' else k
  end.

(** [trim_whitespace] on a buffer: the offset of the returned pointer in
    the buffer, and the buffer behind the call. *)
Definition trim_buffer (buffer : list ascii) : nat * list ascii :=
  let start := skip_space buffer in
  let str := drop start buffer in
  if is_nul (char_at str 0) then (start, buffer)
  else
    let end_ := back_over_space str (strlen str - 1) in
    (start, <[(start + (end_ + 1))%nat := NUL]> buffer).

(** [trim_whitespace]; a null pointer is [None]. *)
Definition trim_whitespace (str : option (list ascii))
  : option (nat * list ascii) :=
  match str with
  | None => None
  | Some buffer => Some (trim_buffer buffer)
  end.

(** <limits.h> with a 32-bit [int] and a 64-bit [long]. *)
Definition INT_MIN : Z := (- 2 ^ 31)%Z.
Definition INT_MAX : Z := (2 ^ 31 - 1)%Z.
Definition LONG_MIN : Z := (- 2 ^ 63)%Z.
Definition LONG_MAX : Z := (2 ^ 63 - 1)%Z.

(** The decimal digits at the front of a string, and their value. *)
Fixpoint leading_digits (s : list ascii) : list ascii :=
  match s with
  | [] => []
  | c :: s' => if isdigit c then c :: leading_digits s' else []
  end.

Definition decimal (ds : list ascii) : Z :=
  fold_left (fun acc c => (10 * acc + (code c - 48))%Z) ds 0%Z.

Record strtol_result := {
  strtol_value : Z;
  strtol_endptr : nat;
  strtol_erange : bool
}.

(** [strtol(s, &endptr, 10)] of the C library: white space, an optional
    sign, decimal digits.  Without a digit nothing is converted: the value
    is 0 and [endptr] is [s].  A value that does not fit a [long] is
    clamped and [errno] becomes [ERANGE]. *)
Definition strtol (s : list ascii) : strtol_result :=
  let white := skip_space s in
  let signed := drop white s in
  let negative := Ascii.eqb (char_at signed 0) "-" in
  let sign := if negative || Ascii.eqb (char_at signed 0) "+"
              then 1%nat else 0%nat in
  let ds := leading_digits (drop sign signed) in
  if (length ds =? 0)%nat
  then {| strtol_value := 0; strtol_endptr := 0; strtol_erange := false |}
  else
    let v := if negative then (- decimal ds)%Z else decimal ds in
    {| strtol_value := Z.max LONG_MIN (Z.min LONG_MAX v);
       strtol_endptr := (white + sign + length ds)%nat;
       strtol_erange := ((v <? LONG_MIN) || (LONG_MAX <? v))%Z |}.

(** [string_to_int]; [None] is the answer [false], which leaves [*result]
    alone, and [Some value] is [true] with [*result = value]. *)
Definition string_to_int (str : option (list ascii)) (min max : Z)
  : option Z :=
  match str with
  | None => None
  | Some s =>
    let r := strtol s in
    let value := strtol_value r in
    let end_char := char_at s (strtol_endptr r) in
    if (strtol_erange r || (value <? INT_MIN) || (INT_MAX <? value))%Z
    then None
    else if negb (is_nul end_char) && negb (Ascii.eqb end_char newline)
    then None
    else if ((value <? min) || (max <? value))%Z then None
    else Some value
  end.

(** [prompt_yes_no] behind its [printf]; [line] is what [fgets] put into
    [buffer], [None] when it returned [NULL]. *)
Definition prompt_yes_no (line : option (list ascii)) (default_yes : bool)
  : bool :=
  match line with
  | None => default_yes
  | Some buffer =>
    let buffer := snd (trim_buffer buffer) in
    if (strlen buffer =? 0)%nat then default_yes
    else
      let first_char := tolower (char_at buffer 0) in
      Ascii.eqb first_char "y"
  end.

(** [get_integer_input] behind its [printf]. *)
Definition get_integer_input (line : option (list ascii))
  (min max default_value : Z) : Z :=
  match line with
  | None => default_value
  | Some buffer =>
    let buffer := snd (trim_buffer buffer) in
    if (strlen buffer =? 0)%nat then default_value
    else
      match string_to_int (Some buffer) min max with
      | None => default_value
      | Some result => result
      end
  end.

End Utils.

Import Utils.

(* ===================================================================== *)
(** ** ui.c: the prompts                                                  *)
(* ===================================================================== *)

Module Ui.

(** [strcspn(buffer, "\n")]. *)
Fixpoint strcspn_newline (buffer : list ascii) : nat :=
  match buffer with
  | [] => 0%nat
  | c :: rest =>
    if is_nul c || Ascii.eqb c newline then 0%nat
    else S (strcspn_newline rest)
  end.

(** [get_user_input] behind its [printf]; the answer and the buffer. *)
Definition get_user_input (line : option (list ascii))
  : bool * option (list ascii) :=
  match line with
  | None => (false, None)
  | Some buffer =>
    let buffer := <[strcspn_newline buffer := NUL]> buffer in
    let buffer := snd (trim_buffer buffer) in
    ((0 <? strlen buffer)%nat, Some buffer)
  end.

(** The choice that [print_main_menu] returns. *)
Definition print_main_menu (line : option (list ascii)) : Z :=
  match line with
  | Some input =>
    let input := snd (trim_buffer input) in
    match string_to_int (Some input) 1 8 with
    | None => 0%Z
    | Some choice => choice
    end
  | None => 0%Z
  end.

End Ui.

Import Ui.

(* ===================================================================== *)
(** ** Vocabulary of the statements about typed text                      *)
(* ===================================================================== *)

Module TextVocabulary.

(** A string without its leading white space, without its trailing white
    space, and without both. *)
Fixpoint strip_left (l : list ascii) : list ascii :=
  match l with
  | [] => []
  | c :: l' => if isspace c then strip_left l' else l
  end.

Definition strip_right (l : list ascii) : list ascii :=
  rev (strip_left (rev l)).

Definition strip (l : list ascii) : list ascii :=
  strip_right (strip_left l).

(** White space only. *)
Definition blank (l : list ascii) : Prop :=
  Forall (fun c => isspace c = true) l.

(** Decimal digits only. *)
Definition numeral (l : list ascii) : Prop :=
  l <> [] /\ Forall (fun c => isdigit c = true) l.

(** [char buffer[32]] of [get_integer_input] and [char input[32]] of
    [print_main_menu]: [fgets] delivers a line whole when the line, its
    newline included, has fewer bytes than this. *)
Definition LINE_BUFFER_SIZE : nat := 32.

End TextVocabulary.

Import TextVocabulary.

(* ===================================================================== *)
(** ** file_ops.c: passwords written to CSV and JSON                      *)
(* ===================================================================== *)

Module FileOps.

(** [sizeof(escaped_password)]. *)
Definition ESCAPED_SIZE : nat := 1024.

Definition quote : ascii := ascii_of_nat 34.
Definition backslash : ascii := ascii_of_nat 92.

(** What one character of the password adds to [escaped_password] in
    [save_passwords_to_csv]. *)
Definition csv_escaped (c : ascii) : list ascii :=
  if Ascii.eqb c quote then [quote; quote]
  else if Ascii.eqb c "," then [quote; ","%char; quote]
  else [c].

(** The [switch] of [save_passwords_to_json]. *)
Definition json_escaped (c : ascii) : list ascii :=
  if Ascii.eqb c quote then [backslash; quote]
  else if Ascii.eqb c backslash then [backslash; backslash]
  else if Ascii.eqb c (ascii_of_nat 8) then [backslash; "b"%char]
  else if Ascii.eqb c (ascii_of_nat 12) then [backslash; "f"%char]
  else if Ascii.eqb c (ascii_of_nat 10) then [backslash; "n"%char]
  else if Ascii.eqb c (ascii_of_nat 13) then [backslash; "r"%char]
  else if Ascii.eqb c (ascii_of_nat 9) then [backslash; "t"%char]
  else [c].

(** The loop [for (j = 0; password[j] != '\0' && dest_index <
    sizeof(escaped_password) - 3; j++)] of both functions.  [dest] holds
    the bytes written so far, so that [dest_index] is its length; the
    array was zeroed, and the terminator is written behind [dest]. *)
Fixpoint escape_loop (escaped : ascii -> list ascii)
  (password dest : list ascii) : list ascii :=
  match password with
  | [] => dest
  | c :: rest =>
    if is_nul c then dest
    else if (length dest <? ESCAPED_SIZE - 3)%nat
    then escape_loop escaped rest (dest ++ escaped c)
    else dest
  end.

(** The string printed as the password field of a CSV line and of a JSON
    entry. *)
Definition csv_escaped_password (password : list ascii) : list ascii :=
  escape_loop csv_escaped password [].

Definition json_escaped_password (password : list ascii) : list ascii :=
  escape_loop json_escaped password [].

End FileOps.

Import FileOps.

(* ===================================================================== *)
(** ** utils.c: [SecureString]                                            *)
(* ===================================================================== *)

Module SecureStrings.

(** [str_data] is [NULL] or holds the [str_length] bytes of the buffer in
    front of the terminator that every operation writes behind them; the
    buffer has [str_capacity + 1] bytes. *)
Record SecureString := {
  str_data : option (list ascii);
  str_length : N;
  str_capacity : N
}.

(** [secure_string_init] on a pointer that is not null; [None] is the
    answer [false]. *)
Definition secure_string_init (initial_capacity : N)
  : M (option SecureString) :=
  if initial_capacity =? 0 then ret None
  else
    got ← allocate;
    if negb got then ret None
    else ret (Some {| str_data := Some [];
                      str_length := 0;
                      str_capacity := initial_capacity |}).

(** [secure_string_append]: the answer and the string behind the call.
    [realloc] is one more request to the allocator. *)
Definition secure_string_append (str : SecureString) (c : ascii)
  : M (bool * SecureString) :=
  match str_data str with
  | None => ret (false, str)
  | Some data =>
    grown ←
      (if str_capacity str <=? str_length str then
         let new_capacity := (str_capacity str * 2) mod SIZE_MOD in
         got ← allocate;
         if negb got then ret None else ret (Some new_capacity)
       else ret (Some (str_capacity str)));
    match grown : option N with
    | None => ret (false, str)
    | Some capacity =>
      ret (true, {| str_data := Some (data ++ [c]);
                    str_length := size_add (str_length str) 1;
                    str_capacity := capacity |})
    end
  end.

(** [while (str->length + src_len >= new_capacity) new_capacity *= 2;] *)
Fixpoint grow_capacity (fuel : nat) (needed new_capacity : N) : option N :=
  if needed <? new_capacity then Some new_capacity
  else
    match fuel with
    | O => None
    | S fuel' => grow_capacity fuel' needed ((new_capacity * 2) mod SIZE_MOD)
    end.

(** [secure_string_append_cstr]. *)
Definition secure_string_append_cstr (fuel : nat) (str : SecureString)
  (src : option (list ascii)) : M (bool * SecureString) :=
  match str_data str, src with
  | Some data, Some src =>
    let src_len := N.of_nat (strlen src) in
    if src_len =? 0 then ret (true, str)
    else
      let needed := size_add (str_length str) src_len in
      grown ←
        (if str_capacity str <=? needed then
           match grow_capacity fuel needed (str_capacity str) with
           | None => cut_off
           | Some new_capacity =>
             got ← allocate;
             if negb got then ret None else ret (Some new_capacity)
           end
         else ret (Some (str_capacity str)));
      match grown : option N with
      | None => ret (false, str)
      | Some capacity =>
        ret (true, {| str_data := Some (data ++ chars src);
                      str_length := needed;
                      str_capacity := capacity |})
      end
  | _, _ => ret (false, str)
  end.

(** The loop of [generate_password] that copies into [filtered_set] the
    characters [char_set.data[i]] that [strchr] does not find in
    [ambiguous_chars]; the answers of [secure_string_append] are not
    looked at. *)
Fixpoint copy_unambiguous (k i : nat) (char_set filtered_set : SecureString)
  : M SecureString :=
  match k with
  | O => ret filtered_set
  | S k' =>
    let ch := char_at (default [] (str_data char_set)) i in
    if negb (strchr ambiguous_chars ch) then
      appended ← secure_string_append filtered_set ch;
      copy_unambiguous k' (S i) char_set (snd (appended : bool * SecureString))
    else copy_unambiguous k' (S i) char_set filtered_set
  end.

(** The statements of [generate_password] that build [char_set], from
    [secure_string_init(&char_set, 256)] to the end of the filtering;
    [None] is the return with "Memory error".  The answers of
    [secure_string_append_cstr] are not looked at. *)
Definition build_secure_char_set (fuel : nat) (options : PasswordOptions)
  : M (option SecureString) :=
  char_set ← secure_string_init 256;
  match char_set : option SecureString with
  | None => ret None
  | Some char_set =>
    let c := charset options in
    let append (selected : bool) (alphabet : list ascii)
               (char_set : SecureString) : M SecureString :=
      if selected then
        appended ← secure_string_append_cstr fuel char_set (Some alphabet);
        ret (snd (appended : bool * SecureString))
      else ret char_set in
    char_set ← append (lowercase c) lowercase_chars char_set;
    char_set ← append (uppercase c) uppercase_chars char_set;
    char_set ← append (numbers c) number_chars char_set;
    char_set ← append (special c) special_chars char_set;
    if avoid_ambiguous c && (0 <? str_length char_set) then
      filtered_set ← secure_string_init (str_capacity char_set);
      match filtered_set : option SecureString with
      | None => ret None
      | Some filtered_set =>
        filtered_set ←
          copy_unambiguous (N.to_nat (str_length char_set)) 0
                           char_set filtered_set;
        ret (Some filtered_set)
      end
    else ret (Some char_set)
  end.

(** A string of capacity 256 that holds the given characters. *)
Definition pool_string (char_set : list ascii) : SecureString :=
  {| str_data := Some char_set;
     str_length := N.of_nat (length char_set);
     str_capacity := 256 |}.

(** The buffer of capacity + 1 bytes holds the characters and the
    terminator behind them. *)
Definition well_formed (str : SecureString) : Prop :=
  exists data,
    str_data str = Some data /\
    N.of_nat (length data) = str_length str /\
    str_length str <= str_capacity str /\
    0 < str_capacity str.

End SecureStrings.

Import SecureStrings.

(* ===================================================================== *)
(** ** main.c: the command line                                           *)
(* ===================================================================== *)

Module Main.

Inductive UIMode :=
| UI_MODE_INTERACTIVE
| UI_MODE_COMMAND_LINE
| UI_MODE_SILENT
| UI_MODE_HELP.

Record CommandLineOptions := {
  mode : UIMode;
  pass_opts : PasswordOptions;
  count : Z;
  output_file : option (list ascii);
  copy_to_clipboard : bool;
  show_help : bool;
  show_version : bool;
  show_entropy : bool;
  quiet_mode : bool
}.

(** What one call of [getopt_long] hands to the loop: its return value,
    [optarg], and the [option_index] of a long option. *)
Record getopt_answer := {
  opt : Z;
  optarg : option (list ascii);
  option_index : nat
}.

(** The names of [long_options], in their order. *)
Definition long_options : list string :=
  ["help"; "version"; "interactive"; "quiet"; "length"; "count";
   "uppercase"; "lowercase"; "numbers"; "special"; "avoid-ambiguous";
   "pattern"; "output"; "format"; "copy"; "entropy"; "strength";
   "save-config"; "load-config"]%string.

(** Assignments to one field. *)
Definition set_mode (v : UIMode) (o : CommandLineOptions) :=
  {| mode := v; pass_opts := pass_opts o; count := count o;
     output_file := output_file o;
     copy_to_clipboard := copy_to_clipboard o; show_help := show_help o;
     show_version := show_version o; show_entropy := show_entropy o;
     quiet_mode := quiet_mode o |}.

Definition set_pass_opts (v : PasswordOptions) (o : CommandLineOptions) :=
  {| mode := mode o; pass_opts := v; count := count o;
     output_file := output_file o;
     copy_to_clipboard := copy_to_clipboard o; show_help := show_help o;
     show_version := show_version o; show_entropy := show_entropy o;
     quiet_mode := quiet_mode o |}.

Definition set_count (v : Z) (o : CommandLineOptions) :=
  {| mode := mode o; pass_opts := pass_opts o; count := v;
     output_file := output_file o;
     copy_to_clipboard := copy_to_clipboard o; show_help := show_help o;
     show_version := show_version o; show_entropy := show_entropy o;
     quiet_mode := quiet_mode o |}.

Definition set_output_file (v : option (list ascii))
  (o : CommandLineOptions) :=
  {| mode := mode o; pass_opts := pass_opts o; count := count o;
     output_file := v;
     copy_to_clipboard := copy_to_clipboard o; show_help := show_help o;
     show_version := show_version o; show_entropy := show_entropy o;
     quiet_mode := quiet_mode o |}.

Definition set_copy_to_clipboard (v : bool) (o : CommandLineOptions) :=
  {| mode := mode o; pass_opts := pass_opts o; count := count o;
     output_file := output_file o;
     copy_to_clipboard := v; show_help := show_help o;
     show_version := show_version o; show_entropy := show_entropy o;
     quiet_mode := quiet_mode o |}.

Definition set_show_help (v : bool) (o : CommandLineOptions) :=
  {| mode := mode o; pass_opts := pass_opts o; count := count o;
     output_file := output_file o;
     copy_to_clipboard := copy_to_clipboard o; show_help := v;
     show_version := show_version o; show_entropy := show_entropy o;
     quiet_mode := quiet_mode o |}.

Definition set_show_version (v : bool) (o : CommandLineOptions) :=
  {| mode := mode o; pass_opts := pass_opts o; count := count o;
     output_file := output_file o;
     copy_to_clipboard := copy_to_clipboard o; show_help := show_help o;
     show_version := v; show_entropy := show_entropy o;
     quiet_mode := quiet_mode o |}.

Definition set_show_entropy (v : bool) (o : CommandLineOptions) :=
  {| mode := mode o; pass_opts := pass_opts o; count := count o;
     output_file := output_file o;
     copy_to_clipboard := copy_to_clipboard o; show_help := show_help o;
     show_version := show_version o; show_entropy := v;
     quiet_mode := quiet_mode o |}.

Definition set_quiet_mode (v : bool) (o : CommandLineOptions) :=
  {| mode := mode o; pass_opts := pass_opts o; count := count o;
     output_file := output_file o;
     copy_to_clipboard := copy_to_clipboard o; show_help := show_help o;
     show_version := show_version o; show_entropy := show_entropy o;
     quiet_mode := v |}.

Definition set_length (v : N) (p : PasswordOptions) : PasswordOptions :=
  {| opt_length := v; charset := charset p;
     require_all_types := require_all_types p;
     min_numbers := min_numbers p; min_special := min_special p |}.

Definition set_charset (v : CharSetConfig) (p : PasswordOptions)
  : PasswordOptions :=
  {| opt_length := opt_length p; charset := v;
     require_all_types := require_all_types p;
     min_numbers := min_numbers p; min_special := min_special p |}.

Definition set_lowercase (v : bool) (c : CharSetConfig) : CharSetConfig :=
  {| lowercase := v; uppercase := uppercase c; numbers := numbers c;
     special := special c; avoid_ambiguous := avoid_ambiguous c |}.

Definition set_uppercase (v : bool) (c : CharSetConfig) : CharSetConfig :=
  {| lowercase := lowercase c; uppercase := v; numbers := numbers c;
     special := special c; avoid_ambiguous := avoid_ambiguous c |}.

Definition set_numbers (v : bool) (c : CharSetConfig) : CharSetConfig :=
  {| lowercase := lowercase c; uppercase := uppercase c; numbers := v;
     special := special c; avoid_ambiguous := avoid_ambiguous c |}.

Definition set_special (v : bool) (c : CharSetConfig) : CharSetConfig :=
  {| lowercase := lowercase c; uppercase := uppercase c;
     numbers := numbers c; special := v;
     avoid_ambiguous := avoid_ambiguous c |}.

Definition set_avoid_ambiguous (v : bool) (c : CharSetConfig)
  : CharSetConfig :=
  {| lowercase := lowercase c; uppercase := uppercase c;
     numbers := numbers c; special := special c; avoid_ambiguous := v |}.

(** [options->pass_opts.charset.<field> = true]. *)
Definition in_charset (set : bool -> CharSetConfig -> CharSetConfig)
  (o : CommandLineOptions) : CommandLineOptions :=
  set_pass_opts
    (set_charset (set true (charset (pass_opts o))) (pass_opts o)) o.

(** The options behind [memset] and the assignments of the defaults. *)
Definition default_command_line : CommandLineOptions :=
  {| mode := UI_MODE_INTERACTIVE;
     pass_opts := password_options_init;
     count := 1;
     output_file := None;
     copy_to_clipboard := false;
     show_help := false;
     show_version := false;
     show_entropy := false;
     quiet_mode := false |}.

(** [case 'c':] of a [switch] on an [int]. *)
Definition case_char (opt : Z) (c : ascii) : bool := (opt =? code c)%Z.

(** The [switch (opt)]; [None] is its [default] branch, which returns
    [false]. *)
Definition parse_option (a : getopt_answer) (options : CommandLineOptions)
  : option CommandLineOptions :=
  if case_char (opt a) "h" then Some (set_show_help true options)
  else if case_char (opt a) "v" then Some (set_show_version true options)
  else if case_char (opt a) "i" then Some (set_mode UI_MODE_INTERACTIVE options)
  else if case_char (opt a) "q"
  then Some (set_mode UI_MODE_SILENT (set_quiet_mode true options))
  else if case_char (opt a) "l" then
    match string_to_int (optarg a) (Z.of_N MIN_PASSWORD_LENGTH)
                        (Z.of_N MAX_PASSWORD_LENGTH) with
    | Some length =>
      Some (set_pass_opts (set_length (Z.to_N length) (pass_opts options))
                          options)
    | None => Some options
    end
  else if case_char (opt a) "c" then
    match string_to_int (optarg a) 1 (Z.of_N MAX_BULK_GENERATE) with
    | Some count => Some (set_count count options)
    | None => Some options
    end
  else if case_char (opt a) "u" then Some (in_charset set_uppercase options)
  else if case_char (opt a) "L" then Some (in_charset set_lowercase options)
  else if case_char (opt a) "n" then Some (in_charset set_numbers options)
  else if case_char (opt a) "s" then Some (in_charset set_special options)
  else if case_char (opt a) "a"
  then Some (in_charset set_avoid_ambiguous options)
  else if case_char (opt a) "p" then Some (set_output_file (optarg a) options)
  else if case_char (opt a) "o" then Some (set_output_file (optarg a) options)
  else if (opt a =? 0)%Z then
    let name := nth (option_index a) long_options ""%string in
    if String.eqb name "copy" then Some (set_copy_to_clipboard true options)
    else if String.eqb name "entropy"
    then Some (set_show_entropy true options)
    else if String.eqb name "strength"
    then Some (set_show_entropy true options)
    else Some options
  else None.

(** The loop [while ((opt = getopt_long(...)) != -1)] over the answers of
    [getopt_long]; [false] is the return from the [default] branch. *)
Fixpoint parse_loop (answers : list getopt_answer)
  (options : CommandLineOptions) : bool * CommandLineOptions :=
  match answers with
  | [] => (true, options)
  | a :: answers' =>
    if (opt a =? -1)%Z then (true, options)
    else
      match parse_option a options with
      | Some options' => parse_loop answers' options'
      | None => (false, options)
      end
  end.

(** [parse_command_line] on a pointer that is not null: the answer and
    [*options]. *)
Definition parse_command_line (answers : list getopt_answer)
  : bool * CommandLineOptions :=
  let '(parsed, options) := parse_loop answers default_command_line in
  if negb parsed then (false, options)
  else
    let c := charset (pass_opts options) in
    if negb (lowercase c) && negb (uppercase c) && negb (numbers c) &&
       negb (special c)
    then
      (true,
       in_charset set_special
         (in_charset set_numbers
            (in_charset set_uppercase (in_charset set_lowercase options))))
    else (true, options).

(** What [main] goes on to do. *)
Inductive MainAction :=
| return_without_random
| return_usage
| run_print_help
| run_print_version
| run_interactive_mode
| run_command_line.

(** [main] up to the choice of what to run: the return with status 1 when
    [init_secure_random] fails ([init_ok] is its answer) or the command
    line is refused, help, version, the interactive menu, or the
    generation from the command line (pattern, single or bulk). *)
Definition main (init_ok : bool) (answers : list getopt_answer)
  : MainAction :=
  if negb init_ok then return_without_random
  else
    let '(parsed, options) := parse_command_line answers in
    if negb parsed then return_usage
    else if show_help options then run_print_help
    else if show_version options then run_print_version
    else
      match mode options with
      | UI_MODE_INTERACTIVE => run_interactive_mode
      | _ => run_command_line
      end.

End Main.

Import Main.

(* ===================================================================== *)
(** ** Vocabulary of the statements about the command line                *)
(* ===================================================================== *)

Module MainVocabulary.

(** What every option set by the command line has in common. *)
Definition generation_ready (o : CommandLineOptions) : Prop :=
  let p := pass_opts o in
  let c := charset p in
  lowercase c = true /\ uppercase c = true /\ numbers c = true /\
  special c = true /\
  MIN_PASSWORD_LENGTH <= opt_length p <= MAX_PASSWORD_LENGTH /\
  require_all_types p = true /\ min_numbers p = 1 /\ min_special p = 1 /\
  (1 <= count o <= Z.of_N MAX_BULK_GENERATE)%Z.

(** An answer of [getopt_long] for the switch [-c] or [--c...]. *)
Definition short_option (c : ascii) (arg : option (list ascii))
  : getopt_answer :=
  {| opt := code c; optarg := arg; option_index := 0 |}.

(** The answers of [getopt_long] for the switches that concern the
    generation: 0 for a long option without a short form, and [-i], [-l],
    [-c], [-u], [-L], [-n], [-s], [-a], [-p], [-o]. *)
Definition generation_switches : list Z :=
  0%Z :: map code (lit "ilcuLnsapo").

End MainVocabulary.

Import MainVocabulary.

(* ===================================================================== *)
(** ** Vocabulary of the statements about drawing characters              *)
(* ===================================================================== *)

Module DrawVocabulary.



End DrawVocabulary.

Import DrawVocabulary.

(* ===================================================================== *)
(** ** Properties of option validation                                    *)
(* ===================================================================== *)

Section Validation.

Implicit Types o : PasswordOptions.

Lemma validate_options_null : validate_options None = false.
Proof. reflexivity. Qed.

Lemma size_add_small (a b : N) : a + b < SIZE_MOD -> size_add a b = a + b.
Proof. intros H. unfold size_add. now apply N.mod_small. Qed.

(** C7: [validate_options] accepts exactly the options with a selected
    category, a length between 8 and 128 that is at least the number of
    selected categories when all types are required, a digit minimum that
    is at most the length when digits are selected and zero otherwise,
    likewise for the special minimum, and minimums whose sum is at most
    the length. *)
Theorem validate_options_iff o :
  validate_options (Some o) = true <->
  (lowercase (charset o) || uppercase (charset o) ||
   numbers (charset o) || special (charset o) = true) /\
  (8 <= opt_length o /\ opt_length o <= 128) /\
  (require_all_types o = true ->
   selected_types (charset o) <= opt_length o) /\
  (if numbers (charset o) then min_numbers o <= opt_length o
   else min_numbers o = 0) /\
  (if special (charset o) then min_special o <= opt_length o
   else min_special o = 0) /\
  min_numbers o + min_special o <= opt_length o.
Proof.
  destruct o as [len [l u n s a] req mn ms]; cbn.
  unfold MIN_PASSWORD_LENGTH, MAX_PASSWORD_LENGTH, selected_types; cbn.
  assert (Hsum : mn + ms < SIZE_MOD -> size_add mn ms = mn + ms)
    by apply size_add_small.
  assert (Hlt : size_add mn ms < SIZE_MOD)
    by (apply N.mod_upper_bound; discriminate).
  change SIZE_MOD with 18446744073709551616 in Hsum, Hlt.
  destruct (N.ltb_spec len 8); cbn; [intuition (discriminate || lia)|].
  destruct (N.ltb_spec 128 len); cbn; [intuition (discriminate || lia)|].
  destruct l, u, n, s, req; cbn;
    repeat match goal with
           | |- context [?x <? ?y] => destruct (N.ltb_spec x y); cbn
           end;
    try (split; [discriminate | intros (? & ? & ? & ? & ? & ?);
                                 try discriminate; lia]);
    try (split; [intros _ | reflexivity]; repeat split;
         try discriminate; lia).
Qed.

Lemma validate_options_iff_witness :
  validate_options (Some default_like) = true.
Proof.
  apply (proj2 (validate_options_iff default_like)).
  cbn. repeat split; try discriminate; lia.
Defined.

End Validation.

(* ===================================================================== *)
(** ** Properties of the world monad                                      *)
(* ===================================================================== *)

Section Monad.

Context {A B : Type}.
Implicit Types (m : M A) (k : A -> M B) (w : World).

Lemma bind_Some m k w a w' : m w = Some (a, w') -> (m ≫= k) w = k a w'.
Proof. intros H. unfold mbind, M_bind. now rewrite H. Qed.

Lemma bind_None m k w : m w = None -> (m ≫= k) w = None.
Proof. intros H. unfold mbind, M_bind. now rewrite H. Qed.

Lemma bind_inv m k w b w'' :
  (m ≫= k) w = Some (b, w'') ->
  exists a w', m w = Some (a, w') /\ k a w' = Some (b, w'').
Proof.
  unfold mbind, M_bind. destruct (m w) as [[a w']|]; [|discriminate].
  intros H. now exists a, w'.
Qed.

End Monad.

(** Runs the computation in front of a bind on its concrete world. *)
Ltac run_bind :=
  match goal with
  | |- context [ (?m ≫= ?k) ?w ] =>
    let r := eval vm_compute in (m w) in
    match r with
    | Some (?a, ?w') =>
      rewrite (bind_Some m k w a w') by (vm_compute; reflexivity)
    end
  end.

(* ===================================================================== *)
(** ** The repair pass                                                    *)
(* ===================================================================== *)

Section RepairPass.

Implicit Types (password char_set : list ascii) (modifiable : list Z).
Implicit Types (w : World) (fuel : nat).

Lemma get_random_char_from_set_total char_set n w :
  exists c w', get_random_char_from_set char_set n w = Some (c, w').
Proof.
  unfold get_random_char_from_set. destruct (n =? 0); now eexists _, _.
Qed.

Lemma modifiable_count_clear modifiable i m :
  modifiable !! i = Some m -> m <> 0%Z ->
  S (modifiable_count (<[i := 0%Z]> modifiable)) = modifiable_count modifiable.
Proof.
  unfold modifiable_count. revert i.
  induction modifiable as [|x l IH]; intros [|i] Hi Hm; try discriminate.
  - cbn in Hi. injection Hi as ->. cbn.
    destruct (Z.eqb_spec m 0); [contradiction | reflexivity].
  - cbn in Hi. cbn.
    destruct (negb (x =? 0)%Z); cbn; rewrite <- (IH i Hi Hm); reflexivity.
Qed.

(** A [while] loop that needs more positions than are left never gets its
    count up to the minimum: no amount of fuel lets it return. *)
Lemma raise_count_starved fuel char_set minimum count password modifiable w :
  N.of_nat (modifiable_count modifiable) + count < minimum ->
  raise_count fuel char_set minimum count (password, modifiable) w = None.
Proof.
  revert count password modifiable w.
  induction fuel as [|fuel IH]; intros count password modifiable w Hlt; cbn.
  - destruct (N.ltb_spec count minimum); [reflexivity | lia].
  - destruct (N.ltb_spec count minimum); [|lia].
    unfold overwrite_first_modifiable.
    destruct (list_find _ modifiable) as [[i m]|] eqn:Hfind.
    + apply list_find_Some in Hfind as (Hi & Hm & _).
      destruct (get_random_char_from_set_total char_set
                  (N.of_nat (strlen char_set)) w) as (c & w' & Hc).
      erewrite bind_Some; [|erewrite bind_Some; [reflexivity | exact Hc]].
      apply IH. pose proof (modifiable_count_clear _ _ _ Hi Hm). lia.
    + erewrite bind_Some; [|reflexivity]. now apply IH.
Qed.

Lemma list_find_modifiable modifiable :
  list_find (fun m : Z => m <> 0%Z) modifiable = None ->
  modifiable_count modifiable = 0%nat.
Proof.
  intros H. apply list_find_None in H. unfold modifiable_count.
  induction H as [|m l Hm _ IH]; [reflexivity|]. cbn.
  destruct (Z.eqb_spec m 0) as [_|Hne]; [exact IH|].
  exfalso. apply Hm. exact Hne.
Qed.

(** A [while] loop that finds enough positions returns, and the missing
    count is all the fuel it needs. *)
Lemma raise_count_returns char_set minimum count password modifiable w :
  minimum <= N.of_nat (modifiable_count modifiable) + count ->
  exists st' w',
    raise_count (N.to_nat (minimum - count)) char_set minimum count
      (password, modifiable) w = Some (st', w').
Proof.
  remember (N.to_nat (minimum - count)) as fuel eqn:Hfuel.
  revert count password modifiable w Hfuel.
  induction fuel as [|fuel IH]; intros count password modifiable w Hfuel Hle;
    cbn [raise_count].
  - destruct (N.ltb_spec count minimum); [lia|]. now eexists _, _.
  - destruct (N.ltb_spec count minimum); [|lia].
    unfold overwrite_first_modifiable.
    destruct (list_find _ modifiable) as [[i m]|] eqn:Hfind.
    + apply list_find_Some in Hfind as (Hi & Hm & _).
      destruct (get_random_char_from_set_total char_set
                  (N.of_nat (strlen char_set)) w) as (c & w' & Hc).
      erewrite bind_Some; [|erewrite bind_Some; [reflexivity | exact Hc]].
      apply IH; [lia|].
      pose proof (modifiable_count_clear _ _ _ Hi Hm). lia.
    + apply list_find_modifiable in Hfind. lia.
Qed.

(** Evaluates the repair pass on a concrete buffer and world up to a
    [while] loop that is short of positions. *)
Ltac repair_starves :=
  unfold ensure_minimum_requirements, require_minimum;
  cbn -[raise_count];
  run_bind; cbn [negb]; run_bind;
  apply bind_None, raise_count_starved; vm_compute; reflexivity.

(** C3 (evaluation at the failing input): the options ask for lowercase,
    uppercase and digits with all types required and eight digits in eight
    positions, and pass validation.  On the buffer [aaaaaaaa] the
    required-types part overwrites positions 0 and 1, the digit loop
    consumes the six positions that are left and reaches a count of 7, and
    from then on its inner scan finds no position: the repair pass does not
    return for any amount of fuel, and neither does [generate_password] on
    a random source that delivers zeros. *)
Theorem ensure_minimum_requirements_diverges :
  validate_options (Some eight_digits_options) = true /\
  (forall fuel,
     ensure_minimum_requirements fuel (lit "aaaaaaaa") eight_digits_options
       (world_of []) = None) /\
  (forall entropy_percent fuel,
     generate_password entropy_percent fuel (Some eight_digits_options)
       (world_of []) = None).
Proof.
  split; [reflexivity|]. split.
  - intros fuel. repair_starves.
  - intros entropy_percent fuel. unfold generate_password.
    change (validate_options (Some eight_digits_options)) with true.
    cbn [negb]. run_bind. cbn [negb]. cbn -[ensure_minimum_requirements].
    run_bind. cbn -[ensure_minimum_requirements]. run_bind. cbn [negb].
    run_bind. apply bind_None. repair_starves.
Qed.

(** C1 (evaluation at the failing input): all four categories are
    selected and required.  The random source yields [Aaaaaaaa]; the digit
    repair overwrites position 0, the only uppercase letter, and the
    special repair position 1.  The password returned is [0!aaaaaa]: it
    has no uppercase letter and fails [meets_minimum_requirements]. *)
Theorem generate_password_drops_required_type :
  validate_options (Some all_types_options) = true /\
  (forall entropy_percent fuel, exists w',
     generate_password entropy_percent fuel (Some all_types_options)
       (world_of [26]) =
     Some (with_metadata entropy_percent (lit "0!aaaaaa") 8
             all_types_options, w')) /\
  contains_char_type (lit "0!aaaaaa") uppercase_chars = false /\
  meets_minimum_requirements (lit "0!aaaaaa") all_types_options = false.
Proof.
  split; [reflexivity|]. split; [|split; reflexivity].
  intros entropy_percent fuel. eexists. vm_compute. reflexivity.
Qed.

(** The digit loop counts an overwritten digit as a new one: with two
    digits wanted and the buffer [0aaaaaaa], position 0 is overwritten by
    a digit and the count goes from 1 to 2 while the password still holds
    one digit. *)
Lemma generate_password_misses_digit_minimum :
  validate_options (Some two_digits_options) = true /\
  (forall entropy_percent fuel, exists w',
     generate_password entropy_percent (S fuel) (Some two_digits_options)
       (world_of [26]) =
     Some (with_metadata entropy_percent (lit "0aaaaaaa") 8
             two_digits_options, w')) /\
  count_char_type (lit "0aaaaaaa") number_chars = 1 /\
  meets_minimum_requirements (lit "0aaaaaaa") two_digits_options = false.
Proof.
  split; [reflexivity|]. split; [|split; reflexivity].
  intros entropy_percent [|fuel]; eexists; vm_compute; reflexivity.
Qed.

(** C2 (evaluation at the failing input): lowercase letters and digits
    with [avoid_ambiguous] and all types required.  The filtered pool
    yields [aaaaaaaa]; the digit repair draws from the unfiltered
    [number_chars] and writes [0].  The password returned is [0aaaaaaa]. *)
Theorem generate_password_inserts_ambiguous :
  validate_options (Some unambiguous_options) = true /\
  avoid_ambiguous (charset unambiguous_options) = true /\
  (forall entropy_percent fuel, exists w',
     generate_password entropy_percent fuel (Some unambiguous_options)
       (world_of []) =
     Some (with_metadata entropy_percent (lit "0aaaaaaa") 8
             unambiguous_options, w')) /\
  has_ambiguous (lit "0aaaaaaa") = true.
Proof.
  split; [reflexivity|]. split; [reflexivity|]. split; [|reflexivity].
  intros entropy_percent fuel. eexists. vm_compute. reflexivity.
Qed.

End RepairPass.

(* ===================================================================== *)
(** ** C strings                                                          *)
(* ===================================================================== *)

Section CStrings.

Implicit Types (s : list ascii) (i : nat) (c : ascii).

Lemma strlen_le_length s : (strlen s <= length s)%nat.
Proof.
  induction s as [|c s IH]; cbn; [lia|]. destruct (is_nul c); cbn; lia.
Qed.

Lemma strlen_nul_free s :
  forallb (fun c => negb (is_nul c)) s = true -> strlen s = length s.
Proof.
  induction s as [|c s IH]; cbn; [reflexivity|].
  destruct (is_nul c); cbn; [discriminate|]. intros H. now rewrite IH.
Qed.

Lemma chars_nul_free s :
  forallb (fun c => negb (is_nul c)) s = true -> chars s = s.
Proof.
  intros H. unfold chars. rewrite (strlen_nul_free s H). apply firstn_all.
Qed.

Lemma length_chars s : length (chars s) = strlen s.
Proof.
  unfold chars. rewrite length_take. pose proof (strlen_le_length s). lia.
Qed.

Lemma char_at_lookup s i c : s !! i = Some c -> char_at s i = c.
Proof. intros H. unfold char_at. rewrite nth_lookup, H. reflexivity. Qed.

Lemma chars_lookup s i :
  (i < strlen s)%nat -> chars s !! i = Some (char_at s i).
Proof.
  intros Hi. unfold chars. rewrite lookup_take_lt by exact Hi.
  pose proof (strlen_le_length s).
  destruct (lookup_lt_is_Some_2 s i) as [c Hc]; [lia|].
  now rewrite (char_at_lookup s i c Hc).
Qed.

End CStrings.

(* ===================================================================== *)
(** ** Pattern generation                                                 *)
(* ===================================================================== *)

Section PatternGeneration.

Variable entropy_percent : list ascii -> PasswordOptions -> Z.

Implicit Types (pattern password char_set : list ascii) (w : World).

Lemma allocate_eq w :
  exists w', allocate w = Some (alloc_ok w (alloc_pos w), w').
Proof. now eexists. Qed.

(** A draw from a nonempty set without NUL yields one of its members. *)
Lemma get_random_char_from_set_member char_set w :
  strlen char_set = length char_set -> char_set <> [] ->
  exists c w',
    get_random_char_from_set char_set (N.of_nat (strlen char_set)) w =
      Some (c, w') /\ In c char_set.
Proof.
  intros Hlen Hne. unfold get_random_char_from_set. rewrite Hlen.
  assert (Hpos : (0 < length char_set)%nat)
    by (destruct char_set; [contradiction | cbn; lia]).
  destruct (N.eqb_spec (N.of_nat (length char_set)) 0) as [H0|H0]; [lia|].
  eexists _, _. split; [reflexivity|].
  unfold char_at. apply nth_In.
  pose proof (N.mod_upper_bound
                (random_bytes w (random_pos w) mod 256)
                (N.of_nat (length char_set)) H0).
  lia.
Qed.

(** The sets of the [switch] are well-formed and hold only characters of
    the class the code names. *)
Lemma pattern_char_set_sound c char_set :
  pattern_char_set c = Some char_set ->
  strlen char_set = length char_set /\ char_set <> [] /\
  forallb (fun g => matches_code c g && negb (is_nul g)) char_set = true.
Proof.
  unfold pattern_char_set.
  destruct (Ascii.eqb_spec c "l") as [->|_];
    [intros [= <-]; now vm_compute|].
  destruct (Ascii.eqb_spec c "U") as [->|_];
    [intros [= <-]; now vm_compute|].
  destruct (Ascii.eqb_spec c "n") as [->|_];
    [intros [= <-]; now vm_compute|].
  destruct (Ascii.eqb_spec c "s") as [->|_];
    [intros [= <-]; now vm_compute|].
  discriminate.
Qed.

Lemma is_code_pattern_char_set c :
  is_code c = true <-> exists char_set, pattern_char_set c = Some char_set.
Proof.
  unfold is_code, pattern_char_set. cbn.
  destruct (Ascii.eqb c "l"); [split; eauto|].
  destruct (Ascii.eqb c "U"); [split; eauto|].
  destruct (Ascii.eqb c "n"); [split; eauto|].
  destruct (Ascii.eqb c "s"); [split; eauto|].
  cbn. split; [discriminate | intros [? [=]]].
Qed.

(** One draw inside the pattern loop. *)
Lemma pattern_draw c w :
  is_code c = true ->
  exists char_set g w',
    pattern_char_set c = Some char_set /\
    get_random_char_from_set char_set (N.of_nat (strlen char_set)) w =
      Some (g, w') /\
    matches_code c g = true /\ is_nul g = false.
Proof.
  intros Hc. apply is_code_pattern_char_set in Hc as [char_set Hset].
  destruct (pattern_char_set_sound c char_set Hset) as (Hlen & Hne & Hall).
  destruct (get_random_char_from_set_member char_set w Hlen Hne)
    as (g & w' & Hg & Hin).
  rewrite forallb_forall in Hall. specialize (Hall g Hin).
  apply andb_true_iff in Hall as [Hm Hn]. apply negb_true_iff in Hn.
  now exists char_set, g, w'.
Qed.

Lemma pattern_loop_valid pattern k i password w :
  (i + k = length pattern)%nat -> length password = length pattern ->
  forallb is_code pattern = true ->
  Forall2 (fun c g => matches_code c g = true)
          (take i pattern) (take i password) ->
  exists password' w',
    pattern_loop k i pattern password w = Some (inr password', w') /\
    Forall2 (fun c g => matches_code c g = true) pattern password'.
Proof.
  intros Hik Hlen Hcodes. revert i password w Hik Hlen.
  induction k as [|k IH]; intros i password w Hik Hlen Hdone.
  - exists password, w. split; [reflexivity|].
    rewrite !firstn_all2 in Hdone by lia. exact Hdone.
  - destruct (lookup_lt_is_Some_2 pattern i) as [c Hc]; [lia|].
    assert (Hcode : is_code c = true).
    { rewrite forallb_forall in Hcodes. apply Hcodes.
      apply list_elem_of_In, list_elem_of_lookup. eauto. }
    destruct (pattern_draw c w Hcode)
      as (char_set & g & w1 & Hset & Hg & Hm & Hn).
    cbn [pattern_loop]. rewrite (char_at_lookup pattern i c Hc), Hset.
    erewrite bind_Some by exact Hg. rewrite Hn.
    apply IH; [lia | now rewrite length_insert |].
    rewrite (take_S_r pattern i c Hc).
    rewrite (take_S_r (<[i := g]> password) i g)
      by (apply list_lookup_insert_eq; lia).
    rewrite take_insert_ge by lia.
    apply Forall2_app; [exact Hdone | now constructor].
Qed.

Lemma pattern_loop_invalid pattern k i password w :
  (i + k = strlen pattern)%nat ->
  forallb is_code (drop i (chars pattern)) = false ->
  exists w',
    pattern_loop k i pattern password w =
      Some (inl "Invalid pattern character"%string, w').
Proof.
  revert i password w.
  induction k as [|k IH]; intros i password w Hik Hbad.
  - rewrite drop_ge in Hbad by (rewrite length_chars; lia). discriminate.
  - assert (Hc : chars pattern !! i = Some (char_at pattern i))
      by (apply chars_lookup; lia).
    rewrite (drop_S _ _ _ Hc) in Hbad. cbn [forallb] in Hbad.
    cbn [pattern_loop].
    destruct (is_code (char_at pattern i)) eqn:Hcode.
    + destruct (pattern_draw _ w Hcode)
        as (char_set & g & w1 & Hset & Hg & Hm & Hn).
      rewrite Hset. erewrite bind_Some by exact Hg. rewrite Hn.
      apply IH; [lia | exact Hbad].
    + destruct (pattern_char_set (char_at pattern i)) as [char_set|] eqn:Hset.
      * assert (is_code (char_at pattern i) = true)
          by (apply is_code_pattern_char_set; eauto).
        congruence.
      * now eexists.
Qed.

Lemma is_code_not_nul pattern :
  forallb is_code pattern = true ->
  forallb (fun c => negb (is_nul c)) pattern = true.
Proof.
  rewrite !forallb_forall. intros H c Hin. specialize (H c Hin).
  destruct (is_nul c) eqn:Hn; [|reflexivity].
  apply Ascii.eqb_eq in Hn. subst c. discriminate.
Qed.

(** C5: when the allocation succeeds, a nonempty pattern made of the codes
    [l], [U], [n], [s] yields a password that has one character per code,
    each from the sub-alphabet the code names; a pattern that holds any
    other character yields a failure result, whose password is null. *)
Theorem generate_password_from_pattern_spec pattern w :
  (pattern <> [] -> forallb is_code pattern = true ->
   alloc_ok w (alloc_pos w) = true ->
   exists r w',
     generate_password_from_pattern entropy_percent (Some pattern) w =
       Some (r, w') /\
     res_length r = N.of_nat (length pattern) /\
     exists password_chars,
       password r = Some password_chars /\
       Forall2 (fun c g => matches_code c g = true) pattern password_chars) /\
  (forallb is_code (chars pattern) = false ->
   exists reason w',
     generate_password_from_pattern entropy_percent (Some pattern) w =
       Some (failure reason, w') /\
     (alloc_ok w (alloc_pos w) = true ->
      reason = "Invalid pattern character"%string)).
Proof.
  split.
  - intros Hne Hcodes Halloc.
    pose proof (strlen_nul_free pattern (is_code_not_nul pattern Hcodes))
      as Hlen.
    unfold generate_password_from_pattern. rewrite Hlen.
    destruct (Nat.eqb_spec (length pattern) 0) as [H0|H0];
      [destruct pattern; [contradiction | discriminate]|].
    destruct (allocate_eq w) as [w1 Hw1].
    erewrite bind_Some by exact Hw1. rewrite Halloc. cbn [negb].
    destruct (pattern_loop_valid pattern (length pattern) 0
                (replicate (length pattern) NUL) w1)
      as (password' & w2 & Hloop & Hall);
      [lia | apply length_replicate | exact Hcodes | constructor |].
    erewrite bind_Some by exact Hloop.
    eexists _, _. split; [reflexivity|]. split; [reflexivity|].
    now exists password'.
  - intros Hbad. unfold generate_password_from_pattern.
    destruct (Nat.eqb_spec (strlen pattern) 0) as [H0|H0].
    { unfold chars in Hbad. rewrite H0 in Hbad. discriminate. }
    destruct (allocate_eq w) as [w1 Hw1].
    erewrite bind_Some by exact Hw1.
    destruct (alloc_ok w (alloc_pos w)); cbn [negb].
    + destruct (pattern_loop_invalid pattern (strlen pattern) 0
                  (replicate (strlen pattern) NUL) w1) as [w2 Hloop];
        [lia | exact Hbad |].
      erewrite bind_Some by exact Hloop.
      eexists _, _. split; [reflexivity | reflexivity].
    + eexists _, _. split; [reflexivity | discriminate].
Qed.

End PatternGeneration.

Lemma generate_password_from_pattern_spec_witness :
  (exists r w',
     generate_password_from_pattern (fun _ _ => 0%Z) (Some (lit "llUnss"))
       (world_of [1; 2; 3; 4; 5; 6]) = Some (r, w') /\
     res_length r = 6 /\
     exists password_chars,
       password r = Some password_chars /\
       Forall2 (fun c g => matches_code c g = true) (lit "llUnss")
               password_chars) /\
  (exists reason w',
     generate_password_from_pattern (fun _ _ => 0%Z) (Some (lit "llUxss"))
       (world_of [1; 2; 3; 4; 5; 6]) = Some (failure reason, w') /\
     (true = true -> reason = "Invalid pattern character"%string)).
Proof.
  split.
  - apply (proj1 (generate_password_from_pattern_spec (fun _ _ => 0%Z)
                    (lit "llUnss") (world_of [1; 2; 3; 4; 5; 6]))).
    + discriminate.
    + reflexivity.
    + reflexivity.
  - apply (proj2 (generate_password_from_pattern_spec (fun _ _ => 0%Z)
                    (lit "llUxss") (world_of [1; 2; 3; 4; 5; 6]))).
    reflexivity.
Defined.

(* ===================================================================== *)
(** ** All-or-nothing results                                             *)
(* ===================================================================== *)

Section AllOrNothing.

Variable entropy_percent : list ascii -> PasswordOptions -> Z.

Implicit Types (o : PasswordOptions) (w : World) (r : PasswordResult).

Lemma get_strength_category_label score :
  In (get_strength_category score) strength_labels.
Proof.
  unfold get_strength_category, strength_labels.
  repeat match goal with
         | |- context [(?a <? ?b)%Z] => destruct (a <? b)%Z
         end; cbn; tauto.
Qed.

Lemma with_metadata_success password length o :
  is_success_result (with_metadata entropy_percent password length o).
Proof.
  eexists _, _. split; [reflexivity|]. split; [|reflexivity].
  apply get_strength_category_label.
Qed.

Lemma failure_is_failure reason :
  In reason failure_reasons -> is_failure_result (failure reason).
Proof. intros H. now exists reason. Qed.

(** Reasons and labels are different strings. *)
Lemma reasons_not_labels reason :
  In reason failure_reasons -> ~ In reason strength_labels.
Proof.
  unfold failure_reasons, strength_labels. cbn.
  intros H; repeat destruct H as [<-|H]; try contradiction;
    intros H'; repeat destruct H' as [H'|H']; try discriminate;
    try contradiction.
Qed.

Lemma success_not_failure_status r :
  is_success_result r ->
  forall reason, In reason failure_reasons -> strength r <> Some reason.
Proof.
  intros (pw & label & _ & Hl & Hs) reason Hr Heq.
  rewrite Hs in Heq. injection Heq as ->.
  exact (reasons_not_labels reason Hr Hl).
Qed.

Lemma valid_pool_nonempty o :
  validate_options (Some o) = true ->
  (0 <? length (build_char_set (charset o)))%nat = true /\
  (length (selected_pool (charset o)) =? 0)%nat = false.
Proof.
  destruct o as [len [l u n s a] req mn ms]. cbn.
  destruct (_ || _); [discriminate|].
  destruct l, u, n, s, a; cbn; try discriminate; intros _; now vm_compute.
Qed.

Lemma generate_password_valid o w :
  validate_options (Some o) = true ->
  exists w1 w2, forall fuel,
    generate_password entropy_percent fuel (Some o) w =
      if generator_out_of_memory o w
      then Some (failure "Memory error", w1)
      else generate_tail entropy_percent fuel o w2.
Proof.
  intros Hvalid. destruct (valid_pool_nonempty o Hvalid) as [Hpool Hsel].
  unfold generator_out_of_memory, generate_tail, selected_pool in *.
  unfold generate_password. rewrite Hvalid. cbn [negb].
  unfold mbind at 1, M_bind at 1, allocate at 1.
  destruct (alloc_ok w (alloc_pos w)) eqn:H0; cbn [negb orb];
    [|eexists _, w; intros fuel; reflexivity].
  rewrite Hpool, andb_true_r.
  destruct (avoid_ambiguous (charset o)).
  - unfold mbind at 1, M_bind at 1. unfold mbind at 1, M_bind at 1.
    unfold allocate at 1. cbn [alloc_ok alloc_pos].
    destruct (alloc_ok w (S (alloc_pos w))) eqn:H1; cbn [negb orb];
      [|eexists _, w; intros fuel; reflexivity].
    unfold ret at 1, mret at 1, M_ret at 1. rewrite Hsel.
    unfold mbind at 1, M_bind at 1, allocate at 1.
    cbn [alloc_ok alloc_pos].
    destruct (alloc_ok w (S (S (alloc_pos w)))) eqn:H2; cbn [negb orb];
      [|eexists _, w; intros fuel; reflexivity].
    eexists w, _; intros fuel; reflexivity.
  - unfold mbind at 1, M_bind at 1.
    unfold ret at 1, mret at 1, M_ret at 1. rewrite Hsel.
    unfold mbind at 1, M_bind at 1, allocate at 1.
    cbn [alloc_ok alloc_pos].
    destruct (alloc_ok w (S (alloc_pos w))) eqn:H1; cbn [negb orb];
      [|eexists _, w; intros fuel; reflexivity].
    eexists w, _; intros fuel; reflexivity.
Qed.

Lemma generate_tail_success fuel o w r w' :
  generate_tail entropy_percent fuel o w = Some (r, w') ->
  is_success_result r.
Proof.
  unfold generate_tail. intros H.
  apply bind_inv in H as (pw1 & w1 & _ & H).
  apply bind_inv in H as (pw2 & w2 & _ & H).
  injection H as <- _. apply with_metadata_success.
Qed.

Lemma pattern_loop_total k i pattern password w :
  exists filled w',
    pattern_loop k i pattern password w = Some (filled, w') /\
    match filled with
    | inl reason => In reason failure_reasons
    | inr _ => True
    end.
Proof.
  revert i password w. induction k as [|k IH]; intros i password w.
  - now exists (inr password), w.
  - cbn [pattern_loop].
    destruct (pattern_char_set (char_at pattern i)) as [char_set|].
    + destruct (get_random_char_from_set_total char_set
                  (N.of_nat (strlen char_set)) w) as (g & w1 & Hg).
      erewrite bind_Some by exact Hg.
      destruct (is_nul g); [|apply IH].
      eexists (inl _), _. split; [reflexivity|]. cbn. tauto.
    + eexists (inl _), _. split; [reflexivity|]. cbn. tauto.
Qed.

(** X30: every result that [generate_password] returns, and the result
    that [generate_password_from_pattern] returns on every input, is either
    a failure result (null password, length 0, one of the reason strings)
    or carries a password and a strength label; a failure result has no
    password, and the strength of a result with a password is never one of
    the reason strings.  The failures that the generators report: options
    that are null or fail validation give [Invalid options]; a failed
    allocation of the pool, the filtered pool or the password buffer gives
    [Memory error]; a null or empty pattern gives [Invalid pattern]; a
    failed allocation of the pattern's buffer gives [Memory error]; a
    pattern with a character that is no code gives
    [Invalid pattern character]. *)
Theorem generation_failure_or_success :
  (forall fuel options w,
     validate_options options = false ->
     generate_password entropy_percent fuel options w =
       Some (failure "Invalid options", w)) /\
  (forall o w,
     validate_options (Some o) = true ->
     generator_out_of_memory o w = true ->
     exists w', forall fuel,
       generate_password entropy_percent fuel (Some o) w =
         Some (failure "Memory error", w')) /\
  (forall fuel options w r w',
     generate_password entropy_percent fuel options w = Some (r, w') ->
     is_failure_result r \/ is_success_result r) /\
  (forall pattern w,
     exists r w',
       generate_password_from_pattern entropy_percent pattern w =
         Some (r, w') /\
       (is_failure_result r \/ is_success_result r)) /\
  (forall pattern w,
     from_option strlen 0%nat pattern = 0%nat ->
     generate_password_from_pattern entropy_percent pattern w =
       Some (failure "Invalid pattern", w)) /\
  (forall pattern w,
     (0 < strlen pattern)%nat -> alloc_ok w (alloc_pos w) = false ->
     exists w',
       generate_password_from_pattern entropy_percent (Some pattern) w =
         Some (failure "Memory error", w')) /\
  (forall pattern w,
     forallb is_code (chars pattern) = false ->
     alloc_ok w (alloc_pos w) = true ->
     exists w',
       generate_password_from_pattern entropy_percent (Some pattern) w =
         Some (failure "Invalid pattern character", w')) /\
  (forall r, is_failure_result r -> password r = None) /\
  (forall r reason,
     is_success_result r -> In reason failure_reasons ->
     strength r <> Some reason).
Proof.
  assert (Hinvalid : forall fuel options w,
             validate_options options = false ->
             generate_password entropy_percent fuel options w =
               Some (failure "Invalid options", w)).
  { intros fuel [o|] w H; [|reflexivity].
    unfold generate_password. now rewrite H. }
  repeat split.
  - exact Hinvalid.
  - intros o w Hvalid Hoom.
    destruct (generate_password_valid o w Hvalid) as (w1 & w2 & H).
    exists w1. intros fuel. now rewrite H, Hoom.
  - intros fuel options w r w' H.
    destruct (validate_options options) eqn:Hvalid.
    + destruct options as [o|]; [|discriminate].
      destruct (generate_password_valid o w Hvalid) as (w1 & w2 & Hgen).
      rewrite Hgen in H. destruct (generator_out_of_memory o w).
      * injection H as <- _. left. apply failure_is_failure. cbn. tauto.
      * right. eapply generate_tail_success. exact H.
    + rewrite (Hinvalid fuel options w Hvalid) in H. injection H as <- _.
      left. apply failure_is_failure. cbn. tauto.
  - intros [pattern|] w.
    2:{ eexists _, _. split; [reflexivity|].
        left. apply failure_is_failure. cbn. tauto. }
    unfold generate_password_from_pattern.
    destruct (strlen pattern =? 0)%nat.
    { eexists _, _. split; [reflexivity|].
      left. apply failure_is_failure. cbn. tauto. }
    destruct (allocate_eq w) as [w1 Hw1]. erewrite bind_Some by exact Hw1.
    destruct (alloc_ok w (alloc_pos w)); cbn [negb].
    2:{ eexists _, _. split; [reflexivity|].
        left. apply failure_is_failure. cbn. tauto. }
    destruct (pattern_loop_total (strlen pattern) 0 pattern
                (replicate (strlen pattern) NUL) w1)
      as (filled & w2 & Hloop & Hfilled).
    erewrite bind_Some by exact Hloop.
    destruct filled as [reason|password'].
    + eexists _, _. split; [reflexivity|].
      left. now apply failure_is_failure.
    + eexists _, _. split; [reflexivity|].
      right. apply with_metadata_success.
  - intros [pattern|] w H; [|reflexivity]. cbn in H.
    unfold generate_password_from_pattern. now rewrite H.
  - intros pattern w Hlen Halloc. unfold generate_password_from_pattern.
    destruct (Nat.eqb_spec (strlen pattern) 0) as [H0|_]; [lia|].
    destruct (allocate_eq w) as [w1 Hw1]. erewrite bind_Some by exact Hw1.
    rewrite Halloc. now eexists.
  - intros pattern w Hbad Halloc. unfold generate_password_from_pattern.
    destruct (Nat.eqb_spec (strlen pattern) 0) as [H0|H0].
    { unfold chars in Hbad. rewrite H0 in Hbad. discriminate. }
    destruct (allocate_eq w) as [w1 Hw1]. erewrite bind_Some by exact Hw1.
    rewrite Halloc. cbn [negb].
    destruct (pattern_loop_invalid pattern (strlen pattern) 0
                (replicate (strlen pattern) NUL) w1) as [w2 Hloop];
      [lia | exact Hbad |].
    erewrite bind_Some by exact Hloop. now eexists.
  - intros r (reason & _ & ->). reflexivity.
  - intros r reason Hs Hr. now apply success_not_failure_status.
Qed.

End AllOrNothing.

Lemma generation_failure_or_success_witness :
  generate_password (fun _ _ => 0%Z) 0 None (world_of []) =
    Some (failure "Invalid options", world_of []) /\
  (exists w', forall fuel,
     generate_password (fun _ _ => 0%Z) fuel (Some default_like)
       world_out_of_memory = Some (failure "Memory error", w')) /\
  generate_password_from_pattern (fun _ _ => 0%Z) (Some []) (world_of []) =
    Some (failure "Invalid pattern", world_of []) /\
  (exists w',
     generate_password_from_pattern (fun _ _ => 0%Z) (Some (lit "lUns"))
       world_out_of_memory = Some (failure "Memory error", w')) /\
  (exists w',
     generate_password_from_pattern (fun _ _ => 0%Z) (Some (lit "llUxss"))
       (world_of []) = Some (failure "Invalid pattern character", w')) /\
  password (failure "Memory error") = None /\
  strength (with_metadata (fun _ _ => 0%Z) (lit "0!aaaaaa") 8
              all_types_options) <> Some "Memory error"%string.
Proof.
  destruct (generation_failure_or_success (fun _ _ => 0%Z))
    as (Hinvalid & Hmemory & _ & _ & Hpattern & Hbuffer & Hcode & Hnull &
        Hlabel).
  split; [apply Hinvalid; reflexivity|].
  split; [apply Hmemory; reflexivity|].
  split; [apply Hpattern; reflexivity|].
  split; [apply Hbuffer; [cbn; lia | reflexivity]|].
  split; [apply Hcode; reflexivity|].
  split.
  - apply Hnull. exists "Memory error"%string. split; [|reflexivity].
    cbn. tauto.
  - apply Hlabel; [|cbn; tauto].
    exists (lit "0!aaaaaa"), "Very Weak"%string.
    split; [reflexivity|]. split; [cbn; tauto | reflexivity].
Defined.

(** C6 (evaluation at the failing input): the options ask for lowercase
    letters, uppercase letters and digits, all of them required, and two
    digits at least.  When the allocator serves one request, the second
    one, for the password buffer, fails and [generate_password] reports
    [Memory error].  When it serves two, the third one fails: it is the
    [calloc] of the scratch array in [ensure_minimum_requirements], which
    returns without a word; [generate_password] then returns the buffer as
    the random source filled it, [aaaaaaaaaaaa], with a strength label.
    The failed allocation is reported nowhere, and the password has
    neither an uppercase letter nor a digit. *)
Theorem generate_password_hides_allocation_failure :
  validate_options (Some default_like) = true /\
  (forall entropy_percent fuel, exists w',
     generate_password entropy_percent fuel (Some default_like)
       (world_with_memory_for 1) = Some (failure "Memory error", w')) /\
  (forall entropy_percent fuel, exists w',
     generate_password entropy_percent fuel (Some default_like)
       (world_with_memory_for 2) =
     Some (with_metadata entropy_percent (lit "aaaaaaaaaaaa") 12
             default_like, w') /\
     alloc_pos w' = 3%nat /\ alloc_ok w' 2 = false) /\
  (forall entropy_percent,
     is_success_result
       (with_metadata entropy_percent (lit "aaaaaaaaaaaa") 12
          default_like)) /\
  meets_minimum_requirements (lit "aaaaaaaaaaaa") default_like = false.
Proof.
  split; [reflexivity|]. split; [|split; [|split; [|reflexivity]]].
  - intros entropy_percent fuel. eexists. vm_compute. reflexivity.
  - intros entropy_percent fuel. eexists. split; [vm_compute; reflexivity|].
    split; reflexivity.
  - intros entropy_percent. apply with_metadata_success.
Qed.

(* ===================================================================== *)
(** ** Loops over a [size_t] counter                                      *)
(* ===================================================================== *)

Section Iteration.

Context {S R : Type}.

Lemma iterate_add (a b : nat) (step : S -> flow S R) (s : S) :
  iterate (a + b) step s =
  match iterate a step s with
  | Next s' => iterate b step s'
  | Leave r => Leave r
  end.
Proof.
  revert s. induction a as [|a IH]; intros s; cbn; [reflexivity|].
  destruct (step s); [apply IH | reflexivity].
Qed.

Lemma iterate_pow2_iterate (n : nat) (step : S -> flow S R) (s : S) :
  iterate_pow2 n step s = iterate (2 ^ n) step s.
Proof.
  revert s. induction n as [|n IH]; intros s.
  - cbn. now destruct (step s).
  - cbn [iterate_pow2]. rewrite Nat.pow_succ_r', Nat.mul_succ_l.
    rewrite Nat.mul_1_l. rewrite iterate_add, !IH.
    destruct (iterate (2 ^ n) step s); [apply IH | reflexivity].
Qed.

End Iteration.

Section Loops.

Context {S R : Type}.

Lemma size_nat_bound (x : N) : (N.to_nat x < 2 ^ N.size_nat x)%nat.
Proof.
  destruct x as [|p]; cbn; [lia|].
  induction p as [p IH|p IH|]; cbn [Pos.size_nat];
    rewrite ?Pos2Nat.inj_xI, ?Pos2Nat.inj_xO, ?Nat.pow_succ_r';
    cbn; lia.
Qed.

Lemma iterate_for_step (hi : N) (body : N -> S -> access (flow S R))
  (count k : nat) (lo : N) (s : S) :
  N.to_nat (hi - lo) = count -> (count < k)%nat ->
  iterate k (for_step hi body) (lo, s) = Leave (for_range count lo body s).
Proof.
  revert k lo s. induction count as [|count IH]; intros k lo s Hc Hk;
    (destruct k as [|k]; [lia|]); cbn [iterate for_step for_range].
  - destruct (N.ltb_spec lo hi); [lia | reflexivity].
  - destruct (N.ltb_spec lo hi); [|lia].
    destruct (body lo s) as [[s'|r]|index]; try reflexivity.
    apply IH; lia.
Qed.

(** [for_size] runs the body for the counter values from [lo] up to
    [hi - 1]. *)
Lemma for_size_range (lo hi : N) (body : N -> S -> access (flow S R)) (s : S) :
  for_size lo hi body s = for_range (N.to_nat (hi - lo)) lo body s.
Proof.
  unfold for_size. rewrite iterate_pow2_iterate.
  rewrite (iterate_for_step hi body (N.to_nat (hi - lo))); [reflexivity..|].
  pose proof (size_nat_bound hi). lia.
Qed.

End Loops.

Section Reads.

Implicit Types (s : list ascii) (i : nat).

Lemma read_in_bounds s i :
  (i <= length s)%nat -> read s (N.of_nat i) = Done (char_at s i).
Proof.
  intros H. unfold read.
  destruct (N.leb_spec (N.of_nat i) (N.of_nat (length s))); [|lia].
  now rewrite Nat2N.id.
Qed.

Lemma size_sub_le (a b : N) : b <= a -> size_sub a b <= a - b.
Proof.
  intros H. unfold size_sub, SIZE_MOD.
  pose proof (Z.mod_le (Z.of_N a - Z.of_N b) (Z.of_N (2 ^ 64))).
  lia.
Qed.

Lemma size_sub_small (a b : N) :
  b <= a -> a < SIZE_MOD -> size_sub a b = a - b.
Proof.
  intros H Ha. unfold size_sub, SIZE_MOD in *.
  rewrite Z.mod_small; lia.
Qed.

End Reads.

(* ===================================================================== *)
(** ** The weak-pattern scan                                              *)
(* ===================================================================== *)

Section WeakPatterns.

Implicit Types (s : list ascii) (i k : nat).

Lemma sequential_body_in_bounds s i :
  (i + 2 <= length s)%nat ->
  exists f, sequential_body s (N.of_nat i) tt = Done f.
Proof.
  intros H. unfold sequential_body.
  replace (N.of_nat i + 1) with (N.of_nat (i + 1)) by lia.
  replace (N.of_nat i + 2) with (N.of_nat (i + 2)) by lia.
  rewrite !read_in_bounds by lia. cbn [mbind access_bind].
  repeat match goal with
         | |- context [if ?b then _ else _] => destruct b
         end; eauto.
Qed.

Lemma repeated_body_in_bounds s i :
  (i + 2 <= length s)%nat ->
  exists f, repeated_body s (N.of_nat i) tt = Done f.
Proof.
  intros H. unfold repeated_body.
  replace (N.of_nat i + 1) with (N.of_nat (i + 1)) by lia.
  replace (N.of_nat i + 2) with (N.of_nat (i + 2)) by lia.
  rewrite !read_in_bounds by lia. cbn [mbind access_bind].
  destruct (Ascii.eqb _ _); [|eauto].
  rewrite ?read_in_bounds by lia. cbn [mbind access_bind].
  destruct (Ascii.eqb _ _); eauto.
Qed.

(** A scan whose counter stays two positions in front of the end of the
    buffer reads inside it. *)
Lemma scan_in_bounds s (body : N -> unit -> access (flow unit bool)) :
  (forall i, (i + 2 <= length s)%nat ->
             exists f, body (N.of_nat i) tt = Done f) ->
  forall k i, (i + k + 1 <= length s)%nat ->
              exists f, for_range k (N.of_nat i) body tt = Done f.
Proof.
  intros Hbody. induction k as [|k IH]; intros i Hi; cbn [for_range];
    [eauto|].
  destruct (Hbody i) as [[[]|b] ->]; [lia| |eauto].
  replace (N.of_nat i + 1) with (N.of_nat (S i)) by lia.
  apply IH. lia.
Qed.

(** On a password of at least two characters every read of
    [check_weak_patterns] is inside the string, and the function
    returns. *)
Lemma check_weak_patterns_in_bounds s :
  (2 <= strlen s)%nat -> exists b, check_weak_patterns (Some s) = Done b.
Proof.
  intros Hlen. unfold check_weak_patterns.
  destruct (existsb _ _); [eauto|].
  pose proof (strlen_le_length s) as Hle.
  pose proof (size_sub_le (N.of_nat (strlen s)) 2 ltac:(lia)) as Hsub.
  rewrite !for_size_range.
  destruct (scan_in_bounds s (sequential_body s)
              (sequential_body_in_bounds s)
              (N.to_nat (size_sub (N.of_nat (strlen s)) 2 - 0)) 0%nat)
    as [f1 Hf1]; [lia|].
  change (N.of_nat 0) with 0 in Hf1. rewrite Hf1. cbn [mbind access_bind].
  destruct f1 as [[]|b]; [|eauto].
  destruct (scan_in_bounds s (repeated_body s)
              (repeated_body_in_bounds s)
              (N.to_nat (size_sub (N.of_nat (strlen s)) 2 - 0)) 0%nat)
    as [f2 Hf2]; [lia|].
  change (N.of_nat 0) with 0 in Hf2. rewrite Hf2. cbn [mbind access_bind].
  destruct f2 as [[]|b]; eauto.
Qed.

(** Every one-character password sends the sequential scan to
    [password[2]]. *)
Lemma check_weak_patterns_one_char c :
  is_nul c = false -> check_weak_patterns (Some [c]) = OutOfBounds 2.
Proof.
  intros Hc. unfold check_weak_patterns.
  assert (Hs : strlen [c] = 1%nat) by (cbn; now rewrite Hc).
  assert (Hpat : existsb (strstr [c]) weak_patterns = false).
  { unfold strstr, chars. rewrite Hs. cbn. now rewrite !andb_false_r. }
  rewrite Hpat, Hs, for_size_range.
  change (size_sub (N.of_nat 1) 2 - 0) with 18446744073709551615.
  destruct (N.to_nat 18446744073709551615) as [|k] eqn:Hk; [lia|].
  reflexivity.
Qed.

(** C9 (evaluation at the failing input): for the one-character password
    [x] the bound [pass_len - 2] wraps to [2^64 - 1], the first iteration
    of the sequential scan reads [password[2]], one position behind the
    terminator, and so does the assessment of that password; on the empty
    string the scan reads [password[1]]. *)
Theorem check_weak_patterns_reads_out_of_bounds :
  size_sub (N.of_nat (strlen (lit "x"))) 2 = 18446744073709551615 /\
  check_weak_patterns (Some (lit "x")) = OutOfBounds 2 /\
  (forall strdup_ok,
     assess_password_security strdup_ok (Some (lit "x")) 1 = OutOfBounds 2) /\
  check_weak_patterns (Some (lit "")) = OutOfBounds 1.
Proof.
  split; [reflexivity|]. split; [now vm_compute|].
  split; [|now vm_compute]. intros strdup_ok.
  unfold assess_password_security. cbn [N.eqb].
  replace (calculate_strength_score (Some (lit "x")) 1) with (Done 0%Z)
    by reflexivity.
  cbn [mbind access_bind].
  replace (check_weak_patterns (Some (lit "x"))) with (@OutOfBounds bool 2)
    by now vm_compute.
  reflexivity.
Qed.

End WeakPatterns.

(* ===================================================================== *)
(** ** The dictionary check                                               *)
(* ===================================================================== *)

Section Dictionary.

Implicit Types (s : list ascii) (n : nat).

Lemma strlen_take s n : strlen (take n s) = Nat.min n (strlen s).
Proof.
  revert n. induction s as [|c s IH]; intros [|n]; cbn; try reflexivity.
  destruct (is_nul c); [reflexivity|]. now rewrite IH.
Qed.

(** C10: the result of [check_dictionary_words] on a password is its
    result on the first [min(length, 255)] characters; a password made of
    255 times [x] followed by [password] is not reported. *)
Theorem check_dictionary_words_prefix :
  (forall strdup_ok s,
     check_dictionary_words strdup_ok (Some s) =
     check_dictionary_words strdup_ok
       (Some (take (Nat.min (length s) 255) s))) /\
  (forall strdup_ok,
     check_dictionary_words strdup_ok
       (Some (replicate 255 "x"%char ++ lit "password")) = false) /\
  (forall strdup_ok,
     check_dictionary_words strdup_ok
       (Some (replicate 247 "x"%char ++ lit "password")) = true).
Proof.
  split; [|split].
  - intros strdup_ok s. unfold check_dictionary_words.
    rewrite strlen_take.
    pose proof (strlen_le_length s) as Hle.
    set (pass_len := if (256 <=? strlen s)%nat then (256 - 1)%nat
                     else strlen s).
    assert (Hp : pass_len = Nat.min (strlen s) 255).
    { unfold pass_len. destruct (Nat.leb_spec 256 (strlen s)); lia. }
    replace (if (256 <=? Nat.min (Nat.min (length s) 255) (strlen s))%nat
             then (256 - 1)%nat
             else Nat.min (Nat.min (length s) 255) (strlen s))
      with pass_len.
    2:{ destruct (Nat.leb_spec 256
                    (Nat.min (Nat.min (length s) 255) (strlen s))); lia. }
    rewrite take_take.
    replace (Nat.min pass_len (Nat.min (length s) 255)) with pass_len by lia.
    reflexivity.
  - intros []; now vm_compute.
  - intros []; now vm_compute.
Qed.

End Dictionary.

(* ===================================================================== *)
(** ** The strength score                                                 *)
(* ===================================================================== *)

Section StrengthScore.

Implicit Types (s l : list ascii) (i k : nat) (c : ascii).

Lemma classes_disjoint c :
  (islower c = true -> isupper c = false /\ isdigit c = false) /\
  (isupper c = true -> isdigit c = false).
Proof.
  unfold islower, isupper, isdigit, in_range.
  split; [intros H; split | intros H];
    apply andb_true_iff in H as [H1 H2]; apply andb_false_iff; lia.
Qed.

Lemma fold_classify l (a b d e : bool) :
  fold_left (fun f c => classify c f) l (a, b, d, e) =
  (a || existsb islower l, b || existsb isupper l,
   d || existsb isdigit l, e || existsb is_other l).
Proof.
  revert a b d e. induction l as [|c l IH]; intros a b d e; cbn.
  - now rewrite !orb_false_r.
  - destruct (classes_disjoint c) as [Hl Hu]. unfold is_other.
    destruct (islower c) eqn:L.
    + destruct (Hl eq_refl) as [-> ->]. rewrite IH. cbn.
      now rewrite orb_true_r.
    + destruct (isupper c) eqn:U.
      * rewrite (Hu eq_refl), IH. cbn. now rewrite orb_true_r.
      * destruct (isdigit c) eqn:D; rewrite IH; cbn;
          now rewrite orb_true_r.
Qed.

Lemma drop_char_at s i :
  (i < length s)%nat -> drop i s = char_at s i :: drop (S i) s.
Proof.
  intros H. destruct (lookup_lt_is_Some_2 s i H) as [c Hc].
  rewrite (char_at_lookup s i c Hc). now apply drop_S.
Qed.

Lemma classify_loop s k i (f : Classes) :
  (i + k <= length s)%nat ->
  for_range (R := Classes) k (N.of_nat i)
    (fun j f => c ← read s j; Done (Next (classify c f))) f =
  Done (Next (fold_left (fun f c => classify c f) (take k (drop i s)) f)).
Proof.
  revert i f. induction k as [|k IH]; intros i f H; cbn [for_range].
  - now rewrite take_0.
  - rewrite read_in_bounds by lia. cbn [mbind access_bind].
    replace (N.of_nat i + 1) with (N.of_nat (S i)) by lia.
    rewrite IH by lia. rewrite (drop_char_at s i) by lia. reflexivity.
Qed.

Lemma middle_loop s k i (score : Z) :
  (i + k <= length s)%nat ->
  for_range k (N.of_nat i)
    (fun j score =>
       c ← read s j;
       if negb (isalpha c) then Done (Leave (score + 10)%Z)
       else Done (Next score)) score =
  Done (if existsb (fun c => negb (isalpha c)) (take k (drop i s))
        then Leave (score + 10)%Z else Next score).
Proof.
  revert i. induction k as [|k IH]; intros i H; cbn [for_range].
  - now rewrite take_0.
  - rewrite read_in_bounds by lia. cbn [mbind access_bind].
    rewrite (drop_char_at s i) by lia. cbn [take existsb].
    destruct (negb (isalpha (char_at s i))); [reflexivity|].
    replace (N.of_nat i + 1) with (N.of_nat (S i)) by lia.
    now rewrite IH by lia.
Qed.

Lemma middle_take_drop s : middle s = take (length s - 2) (drop 1 s).
Proof.
  unfold middle. destruct s as [|c s]; [reflexivity|]. cbn [tail drop].
  rewrite removelast_firstn_len. cbn [length]. f_equal. lia.
Qed.

(** The score of a password of at least 8 characters whose length is a
    [size_t]. *)
Lemma calculate_strength_score_formula s :
  (8 <= length s)%nat -> N.of_nat (length s) < SIZE_MOD ->
  calculate_strength_score (Some s) (N.of_nat (length s)) =
    Done (strength_score_formula s).
Proof.
  intros H8 Hsize. unfold calculate_strength_score.
  unfold MIN_PASSWORD_LENGTH.
  destruct (N.ltb_spec (N.of_nat (length s)) 8); [lia|].
  rewrite !for_size_range, N.sub_0_r, Nat2N.id.
  change 0 with (N.of_nat 0) at 1.
  rewrite classify_loop by lia. cbn [mbind access_bind after_break].
  rewrite drop_0, firstn_all, fold_classify. cbn [orb].
  rewrite size_sub_small by lia. rewrite for_size_range.
  replace (N.to_nat (N.of_nat (length s) - 1 - 1)) with (length s - 2)%nat
    by lia.
  change 1 with (N.of_nat 1) at 1.
  rewrite middle_loop by lia. cbn [mbind access_bind].
  unfold strength_score_formula, length_points, class_count, middle_points,
    composite_points.
  rewrite <- middle_take_drop.
  destruct (N.leb_spec 8 (N.of_nat (length s))); [|lia].
  destruct (N.leb_spec 12 (N.of_nat (length s)));
    destruct (Nat.leb_spec 12 (length s)); try lia;
    [|destruct (N.leb_spec 10 (N.of_nat (length s)));
      destruct (Nat.leb_spec 10 (length s)); try lia];
    destruct (existsb islower s), (existsb isupper s), (existsb isdigit s),
      (existsb is_other s),
      (existsb (fun c => negb (isalpha c)) (middle s));
    vm_compute; reflexivity.
Qed.

Lemma strength_score_formula_range s :
  (0 <= strength_score_formula s <= 100)%Z.
Proof.
  unfold strength_score_formula, length_points, class_count, middle_points,
    composite_points.
  destruct (12 <=? length s)%nat, (10 <=? length s)%nat,
    (existsb islower s), (existsb isupper s), (existsb isdigit s),
    (existsb is_other s), (existsb (fun c => negb (isalpha c)) (middle s));
    vm_compute; split; discriminate.
Qed.

Lemma calculate_strength_score_short password length :
  length < 8 -> calculate_strength_score password length = Done 0%Z.
Proof.
  intros H. unfold calculate_strength_score, MIN_PASSWORD_LENGTH.
  destruct password; [|reflexivity].
  now destruct (N.ltb_spec length 8); [|lia].
Qed.

Lemma all_lower_classes s :
  s <> [] -> forallb islower s = true ->
  existsb islower s = true /\ existsb isupper s = false /\
  existsb isdigit s = false /\ existsb is_other s = false /\
  forall l, (forall c, In c l -> In c s) ->
            existsb (fun c => negb (isalpha c)) l = false.
Proof.
  intros Hne Hall. rewrite forallb_forall in Hall.
  assert (Hnone : forall (p : ascii -> bool) l,
             (forall c, In c l -> In c s) ->
             (forall c, islower c = true -> p c = false) ->
             existsb p l = false).
  { intros p l Hsub Hp. apply not_true_is_false. intros He.
    apply existsb_exists in He as (c & Hin & Hc).
    rewrite (Hp c (Hall c (Hsub c Hin))) in Hc. discriminate. }
  repeat split.
  - destruct s as [|c s]; [contradiction|]. cbn.
    rewrite (Hall c (or_introl eq_refl)). reflexivity.
  - apply Hnone; [auto|]. intros c Hc.
    exact (proj1 (proj1 (classes_disjoint c) Hc)).
  - apply Hnone; [auto|]. intros c Hc.
    exact (proj2 (proj1 (classes_disjoint c) Hc)).
  - apply Hnone; [auto|]. intros c Hc. unfold is_other. now rewrite Hc.
  - intros l Hsub. apply Hnone; [auto|]. intros c Hc.
    unfold isalpha. rewrite Hc. now rewrite orb_true_r.
Qed.

Lemma middle_subset s c : In c (middle s) -> In c s.
Proof.
  rewrite middle_take_drop. intros H.
  apply list_elem_of_In in H. apply list_elem_of_In.
  apply (subseteq_drop 1 s), (subseteq_take (length s - 2) _). exact H.
Qed.

(** C8: a length below 8 scores 0 whatever the characters; a password of
    at least 8 characters scores [min(100, L + V + M + C)]; eight
    lowercase letters score at most 30. *)
Theorem calculate_strength_score_spec :
  (forall password length,
     length < 8 -> calculate_strength_score password length = Done 0%Z) /\
  (forall s,
     (8 <= length s)%nat -> N.of_nat (length s) < SIZE_MOD ->
     calculate_strength_score (Some s) (N.of_nat (length s)) =
       Done (Z.min 100 (length_points s + 10 * class_count s +
                        middle_points s + composite_points s))) /\
  (forall s,
     length s = 8%nat -> forallb islower s = true ->
     exists v, calculate_strength_score (Some s) 8 = Done v /\ (v <= 30)%Z).
Proof.
  split; [exact calculate_strength_score_short|].
  split; [exact calculate_strength_score_formula|].
  intros s H8 Hall. exists (strength_score_formula s). split.
  - rewrite <- (calculate_strength_score_formula s); [|lia|now rewrite H8].
    now rewrite H8.
  - destruct (all_lower_classes s) as (Hl & Hu & Hd & Ho & Hm);
      [now destruct s | exact Hall |].
    unfold strength_score_formula, length_points, class_count,
      middle_points, composite_points.
    rewrite Hl, Hu, Hd, Ho, (Hm (middle s) (middle_subset s)), H8.
    cbn. lia.
Qed.

End StrengthScore.

Lemma calculate_strength_score_spec_witness :
  calculate_strength_score (Some (lit "Ab1!")) 4 = Done 0%Z /\
  calculate_strength_score (Some (lit "Xk9mTq2wLp7z")) 12 = Done 90%Z /\
  (exists v,
     calculate_strength_score (Some (lit "qzmvbxkw")) 8 = Done v /\
     (v <= 30)%Z).
Proof.
  destruct calculate_strength_score_spec as (Hshort & Hformula & Hlower).
  split; [apply Hshort; reflexivity|]. split.
  - apply (Hformula (lit "Xk9mTq2wLp7z")); [cbn; lia | reflexivity].
  - apply (Hlower (lit "qzmvbxkw")); reflexivity.
Defined.

(* ===================================================================== *)
(** ** The assessment                                                     *)
(* ===================================================================== *)

Section Assessment.

Implicit Types (s : list ascii) (base : Z).

Lemma calculate_strength_score_total s :
  N.of_nat (length s) < SIZE_MOD ->
  exists base,
    calculate_strength_score (Some s) (N.of_nat (length s)) = Done base /\
    (0 <= base <= 100)%Z.
Proof.
  intros Hsize. destruct (Nat.lt_ge_cases (length s) 8) as [H|H].
  - exists 0%Z. split; [|lia].
    apply calculate_strength_score_short. lia.
  - exists (strength_score_formula s).
    split; [now apply calculate_strength_score_formula|].
    apply strength_score_formula_range.
Qed.

Lemma penalty_truncated (x k : Z) :
  (0 <= x <= 100)%Z -> (0 <= k <= 100)%Z ->
  (x * k ÷ 100 = x * k / 100)%Z /\ (0 <= x * k / 100 <= 100)%Z.
Proof.
  intros Hx Hk. split; [apply Z.quot_div_nonneg; nia|].
  split; [apply Z.div_pos; nia | apply Z.div_le_upper_bound; nia].
Qed.

(** The two penalties and the clamp of the source, on a base score between
    0 and 100. *)
Lemma penalties_adjusted (p d : bool) base :
  (0 <= base <= 100)%Z ->
  (let score := if p then base * 70 ÷ 100 else base in
   let score := if d then score * 60 ÷ 100 else score in
   let score := if score <? 0 then 0 else score in
   if 100 <? score then 100 else score)%Z = adjusted_score p d base.
Proof.
  intros Hb. unfold adjusted_score. cbn zeta.
  destruct (penalty_truncated base 70 Hb ltac:(lia)) as [-> H70].
  set (first := if p then (base * 70 / 100)%Z else base).
  assert (Hfirst : (0 <= first <= 100)%Z) by (unfold first; now destruct p).
  destruct (penalty_truncated first 60 Hfirst ltac:(lia)) as [-> H60].
  set (second := if d then (first * 60 / 100)%Z else first).
  assert (Hsecond : (0 <= second <= 100)%Z)
    by (unfold second; now destruct d).
  destruct (Z.ltb_spec second 0); [lia|].
  destruct (Z.ltb_spec 100 second); lia.
Qed.

Lemma category_of_int_twenties score :
  (0 <= score <= 100)%Z ->
  category_of_int (score ÷ 20) = category_by_twenties score.
Proof.
  intros H. rewrite Z.quot_div_nonneg by lia.
  unfold category_of_int, category_by_twenties.
  repeat match goal with
         | |- context [(?a <? ?b)%Z] => destruct (Z.ltb_spec a b)
         | |- context [(?a =? ?b)%Z] => destruct (Z.eqb_spec a b)
         end; try reflexivity; Z.to_euclidean_division_equations; lia.
Qed.

Lemma adjusted_score_range p d base :
  (0 <= adjusted_score p d base <= 100)%Z.
Proof. unfold adjusted_score. cbn zeta. lia. Qed.

(** C4, as the code has it: for a password of at least two characters
    (whose length is a [size_t]) the assessment is returned; its score is
    the base score of [calculate_strength_score] times 0.70 (truncated)
    when a weak pattern was found, then times 0.60 (truncated) when a
    dictionary word was found, clamped to [0, 100]; and its category is
    that score divided by 20, capped at VeryStrong: VeryWeak below 20,
    Weak below 40, Fair below 60, Good below 80, Strong below 100,
    VeryStrong at 100. *)
Theorem assess_password_security_adjusts strdup_ok s :
  (2 <= strlen s)%nat -> N.of_nat (length s) < SIZE_MOD ->
  exists base weak,
    calculate_strength_score (Some s) (N.of_nat (length s)) = Done base /\
    check_weak_patterns (Some s) = Done weak /\
    let word := check_dictionary_words strdup_ok (Some s) in
    let adjusted := adjusted_score weak word base in
    assess_password_security strdup_ok (Some s) (N.of_nat (length s)) =
      Done {| score := adjusted;
              category := category_by_twenties adjusted;
              has_weak_pattern := weak;
              has_dictionary_word := word;
              is_duplicate := false |}.
Proof.
  intros Hlen Hsize.
  destruct (calculate_strength_score_total s Hsize) as (base & Hbase & Hb).
  destruct (check_weak_patterns_in_bounds s Hlen) as [weak Hweak].
  exists base, weak. split; [exact Hbase|]. split; [exact Hweak|].
  cbn zeta. unfold assess_password_security.
  pose proof (strlen_le_length s).
  destruct (N.eqb_spec (N.of_nat (length s)) 0); [lia|].
  rewrite Hbase, Hweak. cbn [mbind access_bind].
  pose proof (penalties_adjusted weak
                (check_dictionary_words strdup_ok (Some s)) base Hb) as Hp.
  cbn zeta in Hp. rewrite Hp.
  rewrite category_of_int_twenties by apply adjusted_score_range.
  reflexivity.
Qed.

(** C4, the category as the claim has it, refuted: the password
    [Xk9mTq2wLp7z] has neither a weak pattern nor a dictionary word and
    scores 90; the assessment puts it in Strong, the generation table puts
    90 in VeryStrong. *)
Lemma assess_category_not_generation_table :
  assess_password_security true (Some (lit "Xk9mTq2wLp7z")) 12 =
    Done {| score := 90; category := STRENGTH_STRONG;
            has_weak_pattern := false; has_dictionary_word := false;
            is_duplicate := false |} /\
  category_by_generation_table 90 = STRENGTH_VERY_STRONG /\
  category_by_generation_table 90 <> STRENGTH_STRONG.
Proof.
  split; [now vm_compute|]. split; [reflexivity | discriminate].
Qed.

End Assessment.

Lemma assess_password_security_adjusts_witness :
  exists base weak,
    calculate_strength_score (Some (lit "password123")) 11 = Done base /\
    check_weak_patterns (Some (lit "password123")) = Done weak /\
    assess_password_security true (Some (lit "password123")) 11 =
      Done {| score :=
                adjusted_score weak
                  (check_dictionary_words true (Some (lit "password123")))
                  base;
              category :=
                category_by_twenties
                  (adjusted_score weak
                     (check_dictionary_words true
                        (Some (lit "password123")))
                     base);
              has_weak_pattern := weak;
              has_dictionary_word :=
                check_dictionary_words true (Some (lit "password123"));
              is_duplicate := false |}.
Proof.
  apply (assess_password_security_adjusts true (lit "password123")).
  - cbn. lia.
  - reflexivity.
Defined.

(* ===================================================================== *)
(** ** The pool                                                           *)
(* ===================================================================== *)

Section Pool.

#[local] Existing Instance ascii_eq_decision.

Implicit Types (c : CharSetConfig) (o : PasswordOptions).

Lemma selected_pool_facts c :
  NoDup (selected_pool c) /\
  forallb (fun ch => negb (is_nul ch)) (selected_pool c) = true /\
  (avoid_ambiguous c = true -> has_ambiguous (selected_pool c) = false) /\
  length (selected_pool c) =
    ((if lowercase c then if avoid_ambiguous c then 25 else 26 else 0) +
     (if uppercase c then if avoid_ambiguous c then 24 else 26 else 0) +
     (if numbers c then if avoid_ambiguous c then 8 else 10 else 0) +
     (if special c then 8 else 0))%nat.
Proof.
  destruct c as [l u n s a].
  split; [|destruct l, u, n, s, a; repeat split; try reflexivity;
           discriminate].
  destruct l, u, n, s, a;
    apply (bool_decide_unpack _); vm_compute; reflexivity.
Qed.

End Pool.

(* ===================================================================== *)
(** ** What the repair pass keeps                                         *)
(* ===================================================================== *)

Section RepairInvariants.

Implicit Types (password char_set : list ascii) (modifiable : list Z).
Implicit Types (w : World) (fuel : nat) (st : Repair) (P : ascii -> Prop).

Lemma overwrite_first_modifiable_kept P n char_set st w :
  drawable P char_set -> kept P n st ->
  exists found st' w',
    overwrite_first_modifiable char_set st w = Some ((found, st'), w') /\
    kept P n st' /\
    (modifiable_count (snd st') + (if found : bool then 1 else 0) =
       modifiable_count (snd st))%nat /\
    (found = false -> modifiable_count (snd st) = 0%nat).
Proof.
  intros (Hlen & Hne & HP) (Hp & Hm & Hall). destruct st as [password modifiable].
  cbn [fst snd] in *. unfold overwrite_first_modifiable.
  destruct (list_find _ modifiable) as [[i m]|] eqn:Hfind.
  - apply list_find_Some in Hfind as (Hi & Hmi & _).
    destruct (get_random_char_from_set_member char_set w Hlen Hne)
      as (c & w' & Hc & Hin).
    erewrite bind_Some by exact Hc.
    exists true, (<[i := c]> password, <[i := 0%Z]> modifiable), w'.
    split; [reflexivity|]. cbn [fst snd].
    split; [|split; [|discriminate]].
    + unfold kept. cbn [fst snd]. rewrite !length_insert.
      split; [assumption|]. split; [assumption|].
      apply Forall_insert; [assumption | now apply HP].
    + pose proof (modifiable_count_clear _ _ _ Hi Hmi). lia.
  - exists false, (password, modifiable), w. split; [reflexivity|].
    cbn [fst snd]. split; [now repeat split|]. split; [lia|].
    intros _. now apply list_find_modifiable.
Qed.

Lemma require_type_kept P n selected char_set st w :
  (selected = true -> drawable P char_set) -> kept P n st ->
  exists st' w',
    require_type selected char_set st w = Some (st', w') /\ kept P n st' /\
    (modifiable_count (snd st) <=
       modifiable_count (snd st') + (if selected then 1 else 0))%nat.
Proof.
  intros Hset Hst. unfold require_type.
  destruct selected; cbn [andb];
    [|exists st, w; split; [reflexivity|]; split; [assumption | lia]].
  destruct (negb _);
    [|exists st, w; split; [reflexivity|]; split; [assumption | lia]].
  destruct (overwrite_first_modifiable_kept P n char_set st w (Hset eq_refl)
              Hst) as (found & st' & w' & Hrun & Hkept & Hcount & _).
  erewrite bind_Some by exact Hrun.
  exists st', w'. split; [reflexivity|]. split; [assumption|].
  destruct found; lia.
Qed.

(** Whatever the fuel, a [while] loop that returns has kept the buffer. *)
Lemma raise_count_kept P n fuel char_set minimum count st w st' w' :
  drawable P char_set -> kept P n st ->
  raise_count fuel char_set minimum count st w = Some (st', w') ->
  kept P n st'.
Proof.
  intros Hset. revert count st w.
  induction fuel as [|fuel IH]; intros count st w Hst; cbn [raise_count];
    destruct (count <? minimum); try discriminate;
    try (intros [= <- _]; exact Hst).
  destruct (overwrite_first_modifiable_kept P n char_set st w Hset Hst)
    as (found & st1 & w1 & Hrun & Hkept & _).
  erewrite bind_Some by exact Hrun. apply IH. exact Hkept.
Qed.

(** A [while] loop that has enough positions returns once the fuel covers
    the missing count, and consumes exactly that many positions. *)
Lemma raise_count_enough P n fuel char_set minimum count st w :
  drawable P char_set -> kept P n st ->
  minimum <= N.of_nat (modifiable_count (snd st)) + count ->
  (N.to_nat (minimum - count) <= fuel)%nat ->
  exists st' w',
    raise_count fuel char_set minimum count st w = Some (st', w') /\
    (modifiable_count (snd st') + N.to_nat (minimum - count) =
       modifiable_count (snd st))%nat.
Proof.
  intros Hset. revert count st w.
  induction fuel as [|fuel IH]; intros count st w Hst Hle Hfuel;
    cbn [raise_count]; destruct (N.ltb_spec count minimum);
    try lia; try (exists st, w; split; [reflexivity | lia]).
  destruct (overwrite_first_modifiable_kept P n char_set st w Hset Hst)
    as (found & st1 & w1 & Hrun & Hkept & Hcount & Hnone).
  erewrite bind_Some by exact Hrun.
  destruct found; [|specialize (Hnone eq_refl); lia].
  destruct (IH (count + 1) st1 w1 Hkept) as (st' & w' & Hgo & Hleft);
    [lia | lia |].
  exists st', w'. split; [exact Hgo | lia].
Qed.

End RepairInvariants.


Section RepairedPasswords.

Implicit Types (password : list ascii) (o : PasswordOptions) (w : World).
Implicit Types (fuel : nat) (P : ascii -> Prop).

Lemma modifiable_count_replicate (n : nat) :
  modifiable_count (replicate n 1%Z) = n.
Proof.
  unfold modifiable_count. induction n as [|n IH]; cbn; [reflexivity|].
  now rewrite IH.
Qed.

Lemma strlen_Forall password :
  Forall (fun ch => is_nul ch = false) password ->
  strlen password = length password.
Proof.
  induction 1 as [|ch l Hch _ IH]; cbn; [reflexivity|]. now rewrite Hch, IH.
Qed.

(** The required-types part always returns; it keeps the buffer and
    consumes at most one position per selected category. *)
Lemma required_types_kept P n o st w :
  repair_sets_drawable P o -> kept P n st ->
  exists st' w',
    (if require_all_types o then
       st ← require_type (lowercase (charset o)) lowercase_chars st;
       st ← require_type (uppercase (charset o)) uppercase_chars st;
       st ← require_type (numbers (charset o)) number_chars st;
       require_type (special (charset o)) special_chars st
     else ret st) w = Some (st', w') /\
    kept P n st' /\
    (modifiable_count (snd st) <=
       modifiable_count (snd st') + N.to_nat (required_positions o))%nat.
Proof.
  intros (Hl & Hu & Hn & Hs) Hst. unfold required_positions, selected_types.
  destruct (require_all_types o) eqn:Hreq;
    [|exists st, w; split; [reflexivity|]; split; [assumption | lia]].
  destruct (require_type_kept P n (lowercase (charset o)) lowercase_chars
              st w (Hl eq_refl) Hst) as (st1 & w1 & H1 & K1 & C1).
  destruct (require_type_kept P n (uppercase (charset o)) uppercase_chars
              st1 w1 (Hu eq_refl) K1) as (st2 & w2 & H2 & K2 & C2).
  destruct (require_type_kept P n (numbers (charset o)) number_chars
              st2 w2 (fun H => Hn (or_introl (conj eq_refl H))) K2)
    as (st3 & w3 & H3 & K3 & C3).
  destruct (require_type_kept P n (special (charset o)) special_chars
              st3 w3 (fun H => Hs (or_introl (conj eq_refl H))) K3)
    as (st4 & w4 & H4 & K4 & C4).
  exists st4, w4.
  split; [|split; [exact K4|]].
  - erewrite bind_Some by exact H1. erewrite bind_Some by exact H2.
    erewrite bind_Some by exact H3. exact H4.
  - destruct (lowercase (charset o)), (uppercase (charset o)),
      (numbers (charset o)), (special (charset o)); cbn in *; lia.
Qed.

Lemma require_minimum_kept P n fuel minimum char_set st w st' w' :
  (0 < minimum -> drawable P char_set) -> kept P n st ->
  require_minimum fuel minimum char_set st w = Some (st', w') ->
  kept P n st'.
Proof.
  intros Hset Hst. unfold require_minimum.
  destruct (N.ltb_spec 0 minimum); [|intros [= <- _]; exact Hst].
  now apply raise_count_kept; [apply Hset|].
Qed.

Lemma require_minimum_enough P n fuel minimum char_set st w :
  (0 < minimum -> drawable P char_set) -> kept P n st ->
  minimum <= N.of_nat (modifiable_count (snd st)) ->
  (N.to_nat minimum <= fuel)%nat ->
  exists st' w',
    require_minimum fuel minimum char_set st w = Some (st', w') /\
    kept P n st' /\
    (modifiable_count (snd st) <=
       modifiable_count (snd st') + N.to_nat minimum)%nat.
Proof.
  intros Hset Hst Hle Hfuel. unfold require_minimum.
  destruct (N.ltb_spec 0 minimum);
    [|exists st, w; split; [reflexivity|]; split; [assumption | lia]].
  destruct (raise_count_enough P n fuel char_set minimum
              (count_char_type (fst st) char_set) st w (Hset H) Hst)
    as (st' & w' & Hgo & Hleft); [lia | lia |].
  exists st', w'. split; [exact Hgo|]. split; [|lia].
  eapply raise_count_kept; [apply Hset, H | exact Hst | exact Hgo].
Qed.

(** The repair pass, when it returns, has kept the length of the buffer
    and the property of its characters. *)
Lemma ensure_minimum_requirements_kept P fuel password o w password' w' :
  repair_sets_drawable P o -> strlen password = length password ->
  Forall P password ->
  ensure_minimum_requirements fuel password o w = Some (password', w') ->
  length password' = length password /\ Forall P password'.
Proof.
  intros Hsets Hlen HP. unfold ensure_minimum_requirements. rewrite Hlen.
  destruct (length password =? 0)%nat; [intros [= <- _]; now split|].
  destruct (allocate_eq w) as [w0 Hw0]. erewrite bind_Some by exact Hw0.
  destruct (alloc_ok w (alloc_pos w)); cbn [negb];
    [|intros [= <- _]; now split].
  set (n := length password).
  assert (K0 : kept P n (password, replicate n 1%Z))
    by (repeat split; [apply length_replicate | exact HP]).
  destruct (required_types_kept P n o _ w0 Hsets K0)
    as (st1 & w1 & H1 & K1 & _).
  erewrite bind_Some by exact H1. intros H.
  apply bind_inv in H as (st2 & w2 & H2 & H).
  apply bind_inv in H as (st3 & w3 & H3 & H). injection H as <- _.
  destruct Hsets as (_ & _ & Hn & Hs).
  assert (K2 : kept P n st2)
    by (eapply require_minimum_kept; [|exact K1 | exact H2]; auto).
  assert (K3 : kept P n st3)
    by (eapply require_minimum_kept; [|exact K2 | exact H3]; auto).
  destruct K3 as (Hl3 & _ & HP3). now split.
Qed.

(** The repair pass returns whenever the positions consumed by the
    required types and the two minimums fit into the buffer. *)
Lemma ensure_minimum_requirements_returns P fuel password o w :
  repair_sets_drawable P o -> strlen password = length password ->
  Forall P password ->
  required_positions o + min_numbers o + min_special o <=
    N.of_nat (length password) ->
  (length password <= fuel)%nat ->
  exists password' w',
    ensure_minimum_requirements fuel password o w = Some (password', w').
Proof.
  intros Hsets Hlen HP Hfit Hfuel. unfold ensure_minimum_requirements.
  rewrite Hlen.
  destruct (length password =? 0)%nat; [now eexists _, _|].
  destruct (allocate_eq w) as [w0 Hw0]. erewrite bind_Some by exact Hw0.
  destruct (alloc_ok w (alloc_pos w)); cbn [negb]; [|now eexists _, _].
  set (n := length password) in *.
  assert (K0 : kept P n (password, replicate n 1%Z))
    by (repeat split; [apply length_replicate | exact HP]).
  destruct (required_types_kept P n o _ w0 Hsets K0)
    as (st1 & w1 & H1 & K1 & C1).
  cbn [snd] in C1. rewrite modifiable_count_replicate in C1.
  erewrite bind_Some by exact H1.
  destruct Hsets as (_ & _ & Hn & Hs).
  destruct (require_minimum_enough P n fuel (min_numbers o) number_chars
              st1 w1) as (st2 & w2 & H2 & K2 & C2); [auto | exact K1 | lia..|].
  erewrite bind_Some by exact H2.
  destruct (require_minimum_enough P n fuel (min_special o) special_chars
              st2 w2) as (st3 & w3 & H3 & K3 & C3); [auto | exact K2 | lia..|].
  erewrite bind_Some by exact H3.
  now eexists _, _.
Qed.

End RepairedPasswords.


(* ===================================================================== *)
(** ** Generated passwords                                                *)
(* ===================================================================== *)

Section GeneratedPasswords.

Variable entropy_percent : list ascii -> PasswordOptions -> Z.

Implicit Types (pw : list ascii) (o : PasswordOptions) (w : World).
Implicit Types (fuel : nat) (P : ascii -> Prop) (r : PasswordResult).

Lemma fill_random_kept P char_set k i (password : list ascii) w :
  char_set <> [] -> (forall ch, In ch char_set -> P ch) ->
  (i + k <= length password)%nat -> Forall P (take i password) ->
  exists password' w',
    fill_random k i char_set password w = Some (password', w') /\
    length password' = length password /\
    Forall P (take (i + k) password').
Proof.
  intros Hne HP. revert i password w.
  induction k as [|k IH]; intros i password w Hik Hdone; cbn [fill_random].
  - exists password, w. rewrite Nat.add_0_r. now repeat split.
  - unfold mbind at 1, M_bind at 1, random_byte at 1.
    set (ch := char_at char_set _).
    assert (Hch : In ch char_set).
    { unfold ch, char_at. apply nth_In.
      assert (length char_set <> 0%nat) by (now destruct char_set).
      pose proof (N.mod_upper_bound
                    (random_bytes w (random_pos w) mod 256)
                    (N.of_nat (length char_set)) ltac:(lia)).
      lia. }
    match goal with
    | |- context [fill_random k (S i) char_set ?p ?w1] =>
      destruct (IH (S i) p w1) as (password' & w' & Hgo & Hlen & Hall)
    end.
    + rewrite length_insert. lia.
    + rewrite (take_S_r (<[i := ch]> password) i ch)
        by (apply list_lookup_insert_eq; lia).
      rewrite take_insert_ge by lia.
      apply Forall_app. split; [exact Hdone | repeat constructor; auto].
    + exists password', w'. rewrite length_insert in Hlen.
      replace (i + S k)%nat with (S i + k)%nat by lia. now repeat split.
Qed.

Lemma valid_options_facts o :
  validate_options (Some o) = true ->
  8 <= opt_length o /\ opt_length o <= 128 /\
  (0 < min_numbers o -> numbers (charset o) = true) /\
  (0 < min_special o -> special (charset o) = true) /\
  min_numbers o + min_special o <= opt_length o.
Proof.
  destruct o as [len [l u n s a] req mn ms]; cbn.
  unfold MIN_PASSWORD_LENGTH, MAX_PASSWORD_LENGTH.
  destruct (N.ltb_spec len 8); cbn; [discriminate|].
  destruct (N.ltb_spec 128 len); cbn; [discriminate|].
  destruct (_ && _); [discriminate|]. destruct (_ && _); [discriminate|].
  destruct (N.ltb_spec (if n then len else 0) mn); cbn; [discriminate|].
  destruct (N.ltb_spec (if s then len else 0) ms); cbn; [discriminate|].
  assert (Hsum : size_add mn ms = mn + ms).
  { apply size_add_small. change SIZE_MOD with 18446744073709551616.
    destruct n, s; lia. }
  rewrite Hsum. destruct (N.ltb_spec len (mn + ms)); [discriminate|].
  intros _. destruct n, s; repeat split; try lia; intros; lia.
Qed.

Lemma pool_members (c : CharSetConfig) :
  (lowercase c = true ->
   forall ch, In ch lowercase_chars -> In ch (build_char_set c)) /\
  (uppercase c = true ->
   forall ch, In ch uppercase_chars -> In ch (build_char_set c)) /\
  (numbers c = true ->
   forall ch, In ch number_chars -> In ch (build_char_set c)) /\
  (special c = true ->
   forall ch, In ch special_chars -> In ch (build_char_set c)) /\
  (forall ch, In ch (selected_pool c) -> In ch (build_char_set c)) /\
  (forall ch, In ch (build_char_set c) -> is_nul ch = false).
Proof.
  destruct c as [l u n s a]. unfold selected_pool, build_char_set.
  cbn [lowercase uppercase numbers special avoid_ambiguous].
  repeat split.
  - intros ->. intros ch H. destruct u, n, s; rewrite ?in_app_iff; tauto.
  - intros ->. intros ch H. destruct l, n, s; rewrite ?in_app_iff; tauto.
  - intros ->. intros ch H. destruct l, u, s; rewrite ?in_app_iff; tauto.
  - intros ->. intros ch H. destruct l, u, n; rewrite ?in_app_iff; tauto.
  - intros ch. destruct a; [|tauto]. unfold filter_ambiguous.
    rewrite filter_In. tauto.
  - intros ch H.
    assert (Hall : forallb (fun ch => negb (is_nul ch))
                     (lowercase_chars ++ uppercase_chars ++ number_chars ++
                      special_chars) = true) by reflexivity.
    rewrite forallb_forall in Hall. apply negb_true_iff, Hall.
    destruct l, u, n, s; rewrite ?in_app_iff in *; cbn [In] in *; tauto.
Qed.

Lemma sub_alphabets_well_formed :
  strlen lowercase_chars = length lowercase_chars /\
  strlen uppercase_chars = length uppercase_chars /\
  strlen number_chars = length number_chars /\
  strlen special_chars = length special_chars.
Proof. now repeat split. Qed.

Lemma pool_drawable o :
  validate_options (Some o) = true ->
  repair_sets_drawable (fun ch => In ch (build_char_set (charset o))) o.
Proof.
  intros Hvalid.
  destruct (valid_options_facts o Hvalid) as (_ & _ & Hn & Hs & _).
  destruct (pool_members (charset o)) as (Pl & Pu & Pn & Ps & _).
  repeat split; try reflexivity; try discriminate; intros; auto.
  - apply Pn; [|assumption]. destruct H as [[_ H]|H]; auto.
  - apply Ps; [|assumption]. destruct H as [[_ H]|H]; auto.
Qed.

(** The part of the generator behind the allocations: what it returns
    holds a password of the requested length whose characters all satisfy
    a property that the pool and the repair alphabets have. *)
Lemma generate_tail_kept P fuel o w r w' :
  validate_options (Some o) = true ->
  (forall ch, In ch (selected_pool (charset o)) -> P ch) ->
  repair_sets_drawable P o ->
  (forall ch, P ch -> is_nul ch = false) ->
  generate_tail entropy_percent fuel o w = Some (r, w') ->
  exists pw,
    password r = Some pw /\ res_length r = opt_length o /\
    length pw = N.to_nat (opt_length o) /\ Forall P pw.
Proof.
  intros Hvalid Hpool Hsets Hnul H. unfold generate_tail in H.
  destruct (valid_pool_nonempty o Hvalid) as [_ Hne].
  set (n := N.to_nat (opt_length o)) in *.
  destruct (fill_random_kept P (selected_pool (charset o)) n 0
              (replicate n NUL) w) as (pw1 & w1 & H1 & L1 & A1).
  { intros E. rewrite E in Hne. discriminate. }
  { exact Hpool. }
  { rewrite length_replicate. lia. }
  { constructor. }
  rewrite length_replicate in L1.
  rewrite firstn_all2 in A1 by (cbn; lia).
  erewrite bind_Some in H by exact H1.
  apply bind_inv in H as (pw2 & w2 & H2 & H). injection H as <- _.
  exists pw2. split; [reflexivity|]. split; [reflexivity|].
  destruct (_ || _) in H2.
  - apply (ensure_minimum_requirements_kept P) in H2 as [L2 A2];
      [split; [lia | exact A2] | exact Hsets | | exact A1].
    apply strlen_Forall. eapply Forall_impl; [exact A1 | exact Hnul].
  - injection H2 as <- _. now split.
Qed.

Lemma generate_password_success fuel o w r w' pw :
  generate_password entropy_percent fuel (Some o) w = Some (r, w') ->
  password r = Some pw ->
  validate_options (Some o) = true /\
  exists w2, generate_tail entropy_percent fuel o w2 = Some (r, w').
Proof.
  intros H Hp. destruct (validate_options (Some o)) eqn:Hvalid.
  - split; [reflexivity|].
    destruct (generate_password_valid entropy_percent o w Hvalid)
      as (w1 & w2 & Hgen).
    rewrite Hgen in H. destruct (generator_out_of_memory o w).
    + injection H as <- _. discriminate.
    + now exists w2.
  - unfold generate_password in H. rewrite Hvalid in H.
    injection H as <- _. discriminate.
Qed.

(** X1: a password returned by [generate_password] has exactly the
    requested number of characters, none of them NUL, and the result
    records that length. *)
Theorem generate_password_length fuel o w r w' pw :
  generate_password entropy_percent fuel (Some o) w = Some (r, w') ->
  password r = Some pw ->
  length pw = N.to_nat (opt_length o) /\
  strlen pw = length pw /\
  res_length r = opt_length o.
Proof.
  intros H Hp.
  destruct (generate_password_success fuel o w r w' pw H Hp)
    as (Hvalid & w2 & Htail).
  destruct (pool_members (charset o)) as (_ & _ & _ & _ & Hsub & Hnul).
  destruct (generate_tail_kept
              (fun ch => In ch (build_char_set (charset o)))
              fuel o w2 r w' Hvalid Hsub (pool_drawable o Hvalid) Hnul Htail)
    as (pw0 & Hpw & Hres & Hlen & Hall).
  rewrite Hp in Hpw. injection Hpw as <-.
  split; [exact Hlen|]. split; [|exact Hres].
  apply strlen_Forall. eapply Forall_impl; [exact Hall | exact Hnul].
Qed.

(** X2: every character of a password returned by [generate_password]
    comes from the alphabet of a selected category, also when the repair
    pass has overwritten positions. *)
Theorem generate_password_alphabet fuel o w r w' pw :
  generate_password entropy_percent fuel (Some o) w = Some (r, w') ->
  password r = Some pw ->
  Forall (fun ch => In ch (build_char_set (charset o))) pw.
Proof.
  intros H Hp.
  destruct (generate_password_success fuel o w r w' pw H Hp)
    as (Hvalid & w2 & Htail).
  destruct (pool_members (charset o)) as (_ & _ & _ & _ & Hsub & Hnul).
  destruct (generate_tail_kept
              (fun ch => In ch (build_char_set (charset o)))
              fuel o w2 r w' Hvalid Hsub (pool_drawable o Hvalid) Hnul Htail)
    as (pw0 & Hpw & _ & _ & Hall).
  rewrite Hp in Hpw. injection Hpw as <-. exact Hall.
Qed.

(** X3: with [avoid_ambiguous] set, when not all types are required and no
    digit minimum is asked for, the password returned holds none of the
    characters [l], [I], [1], [O], [0]: the pool is filtered and the only
    repair left draws special characters. *)
Theorem generate_password_unambiguous fuel o w r w' pw :
  avoid_ambiguous (charset o) = true -> require_all_types o = false ->
  min_numbers o = 0 ->
  generate_password entropy_percent fuel (Some o) w = Some (r, w') ->
  password r = Some pw ->
  has_ambiguous pw = false.
Proof.
  intros Havoid Hreq Hmin H Hp.
  destruct (generate_password_success fuel o w r w' pw H Hp)
    as (Hvalid & w2 & Htail).
  set (P := fun ch => is_nul ch = false /\
                      existsb (Ascii.eqb ch) (lit "lI1O0") = false).
  destruct (generate_tail_kept P fuel o w2 r w' Hvalid)
    as (pw0 & Hpw & _ & _ & Hall).
  - intros ch Hin. unfold selected_pool in Hin. rewrite Havoid in Hin.
    assert (Hall : forallb
                     (fun ch => negb (is_nul ch) &&
                                negb (existsb (Ascii.eqb ch) (lit "lI1O0")))
                     (filter_ambiguous
                        (lowercase_chars ++ uppercase_chars ++
                         number_chars ++ special_chars)) = true)
      by reflexivity.
    rewrite forallb_forall in Hall.
    assert (Hin' : In ch (filter_ambiguous
                            (lowercase_chars ++ uppercase_chars ++
                             number_chars ++ special_chars))).
    { unfold filter_ambiguous in *. rewrite filter_In in *.
      destruct Hin as [Hin Hk]. split; [|exact Hk].
      unfold build_char_set in Hin.
      destruct (lowercase (charset o)), (uppercase (charset o)),
        (numbers (charset o)), (special (charset o));
        rewrite ?in_app_iff in *; cbn [In] in *; tauto. }
    specialize (Hall ch Hin'). apply andb_true_iff in Hall as [Ha Hb].
    split; now apply negb_true_iff.
  - assert (Hspecial : drawable P special_chars).
    { split; [reflexivity|]. split; [discriminate|]. intros ch Hin.
      assert (Hall : forallb
                       (fun ch => negb (is_nul ch) &&
                                  negb (existsb (Ascii.eqb ch)
                                          (lit "lI1O0")))
                       special_chars = true) by reflexivity.
      rewrite forallb_forall in Hall. specialize (Hall ch Hin).
      apply andb_true_iff in Hall as [Ha Hb].
      split; now apply negb_true_iff. }
    unfold repair_sets_drawable. rewrite Hreq, Hmin.
    split; [discriminate|]. split; [discriminate|].
    split; [intros [[? _]|?]; (discriminate || lia)|].
    intros _. exact Hspecial.
  - intros ch [Hn _]. exact Hn.
  - exact Htail.
  - rewrite Hp in Hpw. injection Hpw as <-. unfold has_ambiguous.
    apply not_true_is_false. intros He.
    apply existsb_exists in He as (ch & Hin & Hch).
    rewrite Forall_forall in Hall.
    destruct (Hall ch (proj2 (list_elem_of_In _ _) Hin)) as [_ Hno].
    congruence.
Qed.

(** The part of [generate_password] behind its allocations returns when
    the repairs have room. *)
Lemma generate_tail_returns fuel o w :
  validate_options (Some o) = true ->
  required_positions o + min_numbers o + min_special o <= opt_length o ->
  (N.to_nat (opt_length o) <= fuel)%nat ->
  exists r w', generate_tail entropy_percent fuel o w = Some (r, w').
Proof.
  intros Hvalid Hfit Hfuel. unfold generate_tail.
  destruct (valid_pool_nonempty o Hvalid) as [_ Hne].
  destruct (pool_members (charset o)) as (_ & _ & _ & _ & Hsub & Hnul).
  set (n := N.to_nat (opt_length o)) in *.
  destruct (fill_random_kept
              (fun ch => In ch (build_char_set (charset o)))
              (selected_pool (charset o)) n 0 (replicate n NUL) w)
    as (pw1 & w3 & H1 & L1 & A1).
  { intros E. rewrite E in Hne. discriminate. }
  { exact Hsub. }
  { rewrite length_replicate. lia. }
  { constructor. }
  rewrite length_replicate in L1.
  rewrite firstn_all2 in A1 by (cbn; lia).
  erewrite bind_Some by exact H1.
  destruct (_ || _); [|now eexists _, _].
  destruct (ensure_minimum_requirements_returns
              (fun ch => In ch (build_char_set (charset o)))
              fuel pw1 o w3 (pool_drawable o Hvalid))
    as (pw2 & w4 & H2); [| exact A1 | lia | lia |].
  { apply strlen_Forall. eapply Forall_impl; [exact A1 | exact Hnul]. }
  erewrite bind_Some by exact H2. now eexists _, _.
Qed.

(** X4: [generate_password] returns, with fuel equal to the length, for
    all valid options in which the positions the required types may
    consume (one per selected category when all types are required) and
    the two minimums together fit into the length. *)
Theorem generate_password_returns fuel o w :
  validate_options (Some o) = true ->
  required_positions o + min_numbers o + min_special o <= opt_length o ->
  (N.to_nat (opt_length o) <= fuel)%nat ->
  exists r w',
    generate_password entropy_percent fuel (Some o) w = Some (r, w').
Proof.
  intros Hvalid Hfit Hfuel.
  destruct (generate_password_valid entropy_percent o w Hvalid)
    as (w1 & w2 & Hgen).
  rewrite Hgen. destruct (generator_out_of_memory o w); [now eexists _, _|].
  now apply generate_tail_returns.
Qed.

End GeneratedPasswords.


Lemma generate_password_length_witness :
  length (lit "0!aaaaaa") = N.to_nat (opt_length all_types_options) /\
  strlen (lit "0!aaaaaa") = length (lit "0!aaaaaa") /\
  res_length (with_metadata (fun _ _ => 0%Z) (lit "0!aaaaaa") 8
                all_types_options) = opt_length all_types_options.
Proof.
  eapply (generate_password_length (fun _ _ => 0%Z) 0%nat all_types_options
            (world_of [26])).
  - vm_compute. reflexivity.
  - reflexivity.
Defined.

Lemma generate_password_alphabet_witness :
  Forall (fun ch => In ch (build_char_set (charset all_types_options)))
         (lit "0!aaaaaa").
Proof.
  eapply (generate_password_alphabet (fun _ _ => 0%Z) 0%nat
            all_types_options (world_of [26])).
  - vm_compute. reflexivity.
  - reflexivity.
Defined.

Lemma generate_password_unambiguous_witness :
  has_ambiguous (lit "aaaaaaaa") = false.
Proof.
  eapply (generate_password_unambiguous (fun _ _ => 0%Z) 0%nat
            plain_unambiguous_options (world_of [])).
  - reflexivity.
  - reflexivity.
  - reflexivity.
  - vm_compute. reflexivity.
  - reflexivity.
Defined.

Lemma generate_password_returns_witness :
  exists r w',
    generate_password (fun _ _ => 0%Z) 16 (Some password_options_init)
      (world_of []) = Some (r, w').
Proof.
  apply (generate_password_returns (fun _ _ => 0%Z) 16%nat
           password_options_init (world_of [])).
  - reflexivity.
  - vm_compute. discriminate.
  - vm_compute. lia.
Defined.

(* ===================================================================== *)
(** ** Results, labels and the bulk generator                             *)
(* ===================================================================== *)

Section ResultsAndLabels.

Variable entropy_percent : list ascii -> PasswordOptions -> Z.

Implicit Types (pw : list ascii) (o : PasswordOptions) (w : World).
Implicit Types (fuel : nat) (r : PasswordResult).

(** X5: the pool size that [calculate_entropy] computes from the options
    is the size of the pool that [generate_password] draws from, for every
    selection of categories with and without ambiguous characters. *)
Theorem entropy_pool_size_is_pool_length o :
  entropy_pool_size o = N.of_nat (length (selected_pool (charset o))).
Proof.
  destruct o as [len [l u n s a] req mn ms].
  unfold entropy_pool_size. cbn [charset lowercase uppercase numbers special
                                  avoid_ambiguous].
  destruct l, u, n, s, a; vm_compute; reflexivity.
Qed.

(** X6: the empty-pool branch of [generate_password] is never taken: no
    result carries the reason [No character set selected]. *)
Theorem generate_password_pool_never_empty fuel options w r w' :
  generate_password entropy_percent fuel options w = Some (r, w') ->
  strength r <> Some "No character set selected"%string.
Proof.
  intros H. destruct (validate_options options) eqn:Hvalid.
  - destruct options as [o|]; [|discriminate].
    destruct (generate_password_valid entropy_percent o w Hvalid)
      as (w1 & w2 & Hgen).
    rewrite Hgen in H. destruct (generator_out_of_memory o w).
    + injection H as <- _. discriminate.
    + apply generate_tail_success in H.
      apply (success_not_failure_status r H). cbn. tauto.
  - assert (Hr : r = failure "Invalid options").
    { destruct options as [o|]; unfold generate_password in H;
        [rewrite Hvalid in H|]; now injection H as <- _. }
    rewrite Hr. discriminate.
Qed.

Lemma bulk_loop_spec k i fuel o (results : list PasswordResult) w n results' w' :
  bulk_loop entropy_percent k i fuel o results (N.of_nat i) w =
    Some ((n, results'), w') ->
  (i + k <= length results)%nat ->
  length results' = length results /\
  (i <= N.to_nat n <= i + k)%nat /\
  (forall j, (i <= j < N.to_nat n)%nat ->
             exists r, results' !! j = Some r /\ is_success_result r) /\
  ((N.to_nat n < i + k)%nat ->
   exists r, results' !! N.to_nat n = Some r /\ is_failure_result r) /\
  (forall j, (j < i \/ N.to_nat n < j)%nat -> results' !! j = results !! j).
Proof.
  revert i results w. induction k as [|k IH]; intros i results w H Hlen;
    cbn [bulk_loop] in H.
  - injection H as <- <- _. rewrite Nat2N.id.
    repeat split; try lia; intros; lia.
  - apply bind_inv in H as (r & w1 & Hgen & H).
    assert (Hr : is_failure_result r \/ is_success_result r).
    { destruct (validate_options (Some o)) eqn:Hvalid.
      - destruct (generate_password_valid entropy_percent o w Hvalid)
          as (wa & wb & Hg).
        rewrite Hg in Hgen. destruct (generator_out_of_memory o w).
        + injection Hgen as <- _. left. apply failure_is_failure. cbn. tauto.
        + right. eapply generate_tail_success. exact Hgen.
      - unfold generate_password in Hgen. rewrite Hvalid in Hgen.
        injection Hgen as <- _. left. apply failure_is_failure. cbn. tauto. }
    destruct (password r) as [pw|] eqn:Hpw.
    + replace (N.of_nat i + 1) with (N.of_nat (S i)) in H by lia.
      apply IH in H; [|rewrite length_insert; lia].
      destruct H as (L & B & S1 & F1 & U1). rewrite length_insert in L.
      assert (Hs : is_success_result r).
      { destruct Hr as [(reason & _ & ->)|Hs]; [discriminate | exact Hs]. }
      split; [exact L|]. split; [lia|]. split; [|split].
      * intros j Hj. destruct (Nat.eq_dec j i) as [->|Hne].
        -- exists r. split; [|exact Hs].
           rewrite U1 by lia. apply list_lookup_insert_eq. lia.
        -- apply S1. lia.
      * intros Hn. apply F1. lia.
      * intros j Hj. rewrite U1 by lia. apply list_lookup_insert_ne. lia.
    + injection H as <- <- _. rewrite Nat2N.id.
      split; [apply length_insert|]. split; [lia|]. split; [|split].
      * intros j Hj. lia.
      * intros _. exists r. split; [apply list_lookup_insert_eq; lia|].
        destruct Hr as [Hf|(pw & ? & Hs & _)]; [exact Hf | congruence].
      * intros j Hj. apply list_lookup_insert_ne. lia.
Qed.

(** The loop of [generate_bulk_passwords] returns when each call of
    [generate_password] does. *)
Lemma bulk_loop_returns k i fuel o (results : list PasswordResult)
  successful w :
  validate_options (Some o) = true ->
  required_positions o + min_numbers o + min_special o <= opt_length o ->
  (N.to_nat (opt_length o) <= fuel)%nat ->
  exists n results' w',
    bulk_loop entropy_percent k i fuel o results successful w =
      Some ((n, results'), w').
Proof.
  intros Hvalid Hfit Hfuel. revert i results successful w.
  induction k as [|k IH]; intros i results successful w; cbn [bulk_loop];
    [now eexists _, _, _|].
  assert (Hgen : exists r w1,
             generate_password entropy_percent fuel (Some o) w =
               Some (r, w1)).
  { destruct (generate_password_valid entropy_percent o w Hvalid)
      as (wa & wb & Hg).
    rewrite Hg. destruct (generator_out_of_memory o w);
      [now eexists _, _|].
    now apply generate_tail_returns. }
  destruct Hgen as (r & w1 & Hgen). erewrite bind_Some by exact Hgen.
  destruct (password r); [apply IH | now eexists _, _, _].
Qed.

(** X7: [generate_bulk_passwords] answers 0 and leaves the array alone
    for a count of 0, a count above 100 or options that fail validation.
    For a count 1..100, an array of at least [count] entries and valid
    options whose required positions and minimums fit into the length, it
    answers, with fuel equal to the length, some [n <= count]: the first
    [n] entries then hold passwords, the entry behind them (when
    [n < count]) holds the failure result, and the entries behind that one
    are untouched. *)
Theorem generate_bulk_passwords_spec fuel o count
  (results : list PasswordResult) w :
  (count = 0 \/ 100 < count \/ validate_options (Some o) = false ->
   generate_bulk_passwords entropy_percent fuel (Some o) count
     (Some results) w = Some ((0, Some results), w)) /\
  (0 < count <= 100 -> validate_options (Some o) = true ->
   required_positions o + min_numbers o + min_special o <= opt_length o ->
   (N.to_nat (opt_length o) <= fuel)%nat ->
   (N.to_nat count <= length results)%nat ->
   exists n results' w',
     generate_bulk_passwords entropy_percent fuel (Some o) count
       (Some results) w = Some ((n, Some results'), w') /\
     n <= count /\ length results' = length results /\
     (forall j, (j < N.to_nat n)%nat ->
                exists r, results' !! j = Some r /\ is_success_result r) /\
     (n < count ->
      exists r, results' !! N.to_nat n = Some r /\ is_failure_result r) /\
     (forall j, (N.to_nat n < j)%nat -> results' !! j = results !! j)).
Proof.
  unfold generate_bulk_passwords, MAX_BULK_GENERATE. split.
  - intros H. destruct (N.eqb_spec count 0); [reflexivity|].
    destruct (N.ltb_spec 100 count); [reflexivity|]. cbn [orb].
    destruct H as [H|[H|H]]; [lia | lia |]. now rewrite H.
  - intros Hcount Hvalid Hfit Hfuel Hlen.
    destruct (N.eqb_spec count 0); [lia|].
    destruct (N.ltb_spec 100 count); [lia|].
    cbn [orb]. rewrite Hvalid. cbn [negb].
    destruct (bulk_loop_returns (N.to_nat count) 0 fuel o results 0 w
                Hvalid Hfit Hfuel) as (m & results' & w' & Hloop).
    erewrite bind_Some by exact Hloop.
    exists m, results', w'. split; [reflexivity|].
    apply (bulk_loop_spec (N.to_nat count) 0) in Hloop; [|lia].
    destruct Hloop as (L & B & S1 & F1 & U1).
    split; [lia|]. split; [exact L|]. split; [|split].
    + intros j Hj. apply S1. lia.
    + intros Hn. apply F1. lia.
    + intros j Hj. apply U1. lia.
Qed.

(** X8: for a score between 0 and 100 the label that the generator puts
    into a result ([get_strength_category]) is the label of the category
    that the assessment derives from the same score
    ([get_strength_string] of [score / 20]) except for the scores 75..79
    and 90..99; the label behind the strength meter of ui.c is always the
    assessment's. *)
Theorem strength_labels_compared (score : Z) :
  (0 <= score <= 100)%Z ->
  (get_strength_category score =
     get_strength_string (category_of_int (score ÷ 20)) <->
   ~ ((75 <= score < 80)%Z \/ (90 <= score < 100)%Z)) /\
  snd (show_strength_meter score) =
    get_strength_string (category_of_int (score ÷ 20)).
Proof.
  intros H.
  assert (Hall :
            forallb
              (fun n =>
                 let s := Z.of_nat n in
                 let assessed :=
                   get_strength_string (category_of_int (s ÷ 20)) in
                 Bool.eqb (String.eqb (get_strength_category s) assessed)
                          (negb ((75 <=? s) && (s <? 80) ||
                                 (90 <=? s) && (s <? 100)))%Z &&
                 String.eqb (snd (show_strength_meter s)) assessed)
              (seq 0 101) = true) by (vm_compute; reflexivity).
  rewrite forallb_forall in Hall.
  specialize (Hall (Z.to_nat score)).
  rewrite Z2Nat.id in Hall by lia. cbn zeta in Hall.
  destruct (andb_prop _ _ (Hall ltac:(apply in_seq; lia))) as [Hgen Hmeter].
  apply String.eqb_eq in Hmeter. split; [|exact Hmeter].
  apply Bool.eqb_prop in Hgen.
  destruct (String.eqb_spec (get_strength_category score)
              (get_strength_string (category_of_int (score ÷ 20))))
    as [Heq|Hne]; symmetry in Hgen.
  - apply negb_true_iff, orb_false_iff in Hgen as [H1 H2].
    apply andb_false_iff in H1, H2. split; [intros _; lia | auto].
  - apply negb_false_iff, orb_true_iff in Hgen.
    rewrite !andb_true_iff in Hgen.
    split; [contradiction | intros Hn; exfalso; apply Hn; lia].
Qed.

End ResultsAndLabels.

Lemma generate_password_pool_never_empty_witness :
  strength (failure "Invalid options") <>
    Some "No character set selected"%string.
Proof.
  apply (generate_password_pool_never_empty (fun _ _ => 0%Z) 0%nat None
           (world_of []) _ (world_of [])).
  reflexivity.
Defined.

Lemma generate_bulk_passwords_spec_witness :
  generate_bulk_passwords (fun _ _ => 0%Z) 8 (Some plain_unambiguous_options)
    0 (Some []) (world_of []) = Some ((0, Some []), world_of []) /\
  exists n results' w',
    generate_bulk_passwords (fun _ _ => 0%Z) 8
      (Some plain_unambiguous_options) 2
      (Some (replicate 3 (failure ""))) (world_of []) =
      Some ((n, Some results'), w') /\
    n <= 2 /\ length results' = 3%nat /\
    (forall j, (j < N.to_nat n)%nat ->
               exists r, results' !! j = Some r /\ is_success_result r) /\
    (n < 2 ->
     exists r, results' !! N.to_nat n = Some r /\ is_failure_result r) /\
    (forall j, (N.to_nat n < j)%nat ->
               results' !! j = replicate 3 (failure "") !! j).
Proof.
  split.
  - apply (proj1 (generate_bulk_passwords_spec (fun _ _ => 0%Z) 8%nat
                    plain_unambiguous_options 0 [] (world_of []))).
    left. reflexivity.
  - apply (proj2 (generate_bulk_passwords_spec (fun _ _ => 0%Z) 8%nat
                    plain_unambiguous_options 2
                    (replicate 3 (failure "")) (world_of []))).
    + lia.
    + reflexivity.
    + vm_compute. discriminate.
    + vm_compute. lia.
    + cbn. lia.
Defined.

Lemma strength_labels_compared_witness :
  (get_strength_category 90 =
     get_strength_string (category_of_int (90 ÷ 20)) <->
   ~ ((75 <= 90 < 80)%Z \/ (90 <= 90 < 100)%Z)) /\
  snd (show_strength_meter 90) =
    get_strength_string (category_of_int (90 ÷ 20)).
Proof. apply (strength_labels_compared 90). lia. Defined.


(* ===================================================================== *)
(** ** What the weak-pattern scan detects                                 *)
(* ===================================================================== *)

Section WeakPatternDetection.

Implicit Types (s : list ascii) (i k : nat).

Lemma sequential_body_at s i :
  (i + 2 <= length s)%nat ->
  sequential_body s (N.of_nat i) tt =
    Done (if sequential_at s i then Leave true else Next tt).
Proof.
  intros H. unfold sequential_body, sequential_at.
  replace (N.of_nat i + 1) with (N.of_nat (i + 1)) by lia.
  replace (N.of_nat i + 2) with (N.of_nat (i + 2)) by lia.
  rewrite !read_in_bounds by lia. cbn [mbind access_bind]. cbn zeta.
  destruct (isdigit (char_at s i) && isdigit (char_at s (i + 1)) &&
            isdigit (char_at s (i + 2)));
    destruct (isalpha (char_at s i) && isalpha (char_at s (i + 1)) &&
              isalpha (char_at s (i + 2)));
    cbn [andb orb];
    repeat match goal with
           | |- context [(?a =? ?b)%Z] => destruct (a =? b)%Z; cbn [andb orb]
           end; reflexivity.
Qed.

Lemma repeated_body_at s i :
  (i + 2 <= length s)%nat ->
  repeated_body s (N.of_nat i) tt =
    Done (if repeated_at s i then Leave true else Next tt).
Proof.
  intros H. unfold repeated_body, repeated_at.
  replace (N.of_nat i + 1) with (N.of_nat (i + 1)) by lia.
  replace (N.of_nat i + 2) with (N.of_nat (i + 2)) by lia.
  rewrite !read_in_bounds by lia. cbn [mbind access_bind].
  destruct (Ascii.eqb (char_at s i) (char_at s (i + 1))); cbn [andb];
    [|reflexivity].
  now destruct (Ascii.eqb (char_at s i) (char_at s (i + 2))).
Qed.

(** A scan whose body leaves with [true] exactly where [p] holds finds the
    first such position, if there is one. *)
Lemma scan_exists s (body : N -> unit -> access (flow unit bool))
  (p : nat -> bool) :
  (forall i, (i + 2 <= length s)%nat ->
             body (N.of_nat i) tt =
               Done (if p i then Leave true else Next tt)) ->
  forall k i, (i + k + 1 <= length s)%nat ->
              for_range k (N.of_nat i) body tt =
                Done (if existsb p (seq i k) then Leave true else Next tt).
Proof.
  intros Hbody. induction k as [|k IH]; intros i Hi;
    cbn [for_range seq existsb]; [reflexivity|].
  rewrite Hbody by lia. destruct (p i); cbn [orb]; [reflexivity|].
  replace (N.of_nat i + 1) with (N.of_nat (S i)) by lia.
  apply IH. lia.
Qed.

(** The value of [check_weak_patterns] on a password of at least two
    characters. *)
Lemma check_weak_patterns_value s :
  (2 <= strlen s)%nat -> N.of_nat (strlen s) < SIZE_MOD ->
  check_weak_patterns (Some s) = Done (weak_pattern_present s).
Proof.
  intros Hlen Hsize. unfold check_weak_patterns, weak_pattern_present.
  destruct (existsb (strstr s) weak_patterns); cbn [orb]; [reflexivity|].
  pose proof (strlen_le_length s) as Hle.
  rewrite !for_size_range, size_sub_small by lia.
  replace (N.to_nat (N.of_nat (strlen s) - 2 - 0)) with (strlen s - 2)%nat
    by lia.
  change 0 with (N.of_nat 0).
  rewrite (scan_exists s (sequential_body s) (sequential_at s)
             (sequential_body_at s)) by lia.
  cbn [mbind access_bind].
  destruct (existsb (sequential_at s) _); cbn [orb]; [reflexivity|].
  rewrite (scan_exists s (repeated_body s) (repeated_at s)
             (repeated_body_at s)) by lia.
  cbn [mbind access_bind].
  now destruct (existsb (repeated_at s) _).
Qed.

Lemma prefixb_spec needle hay :
  prefixb needle hay = true <-> exists post, hay = needle ++ post.
Proof.
  revert hay. induction needle as [|a needle IH]; intros hay; cbn.
  - split; [now exists hay | reflexivity].
  - destruct hay as [|b hay].
    + split; [discriminate | intros [post [=]]].
    + rewrite andb_true_iff, IH, Ascii.eqb_eq. split.
      * intros [-> [post ->]]. now exists post.
      * intros [post [= -> ->]]. split; [reflexivity | now exists post].
Qed.

Lemma infixb_spec needle hay :
  infixb needle hay = true <-> exists pre post, hay = pre ++ needle ++ post.
Proof.
  induction hay as [|b hay IH]; cbn [infixb].
  - rewrite orb_false_r, prefixb_spec. split.
    + intros [post H]. now exists [], post.
    + intros (pre & post & H). destruct pre as [|x pre]; [|discriminate].
      now exists post.
  - rewrite orb_true_iff, prefixb_spec, IH. split.
    + intros [[post H] | (pre & post & H)].
      * now exists [], post.
      * exists (b :: pre), post. cbn. now rewrite H.
    + intros (pre & post & H). destruct pre as [|x pre].
      * left. now exists post.
      * right. injection H as -> H. now exists pre, post.
Qed.

Lemma strstr_occurs s p :
  Forall (fun c => is_nul c = false) p ->
  strstr s p = true <-> occurs p s.
Proof.
  intros Hp. unfold strstr, occurs.
  replace (chars p) with p; [apply infixb_spec|].
  unfold chars. rewrite (strlen_Forall p Hp). symmetry. apply firstn_all.
Qed.

Lemma weak_patterns_well_formed p :
  In p weak_patterns -> Forall (fun c => is_nul c = false) p.
Proof.
  intros Hin.
  assert (Hall : forallb (forallb (fun c => negb (is_nul c)))
                   weak_patterns = true) by reflexivity.
  rewrite forallb_forall in Hall. specialize (Hall p Hin).
  rewrite forallb_forall in Hall. apply Forall_forall.
  intros c Hc. apply list_elem_of_In in Hc.
  specialize (Hall c Hc). now apply negb_true_iff in Hall.
Qed.

Lemma keyboard_rows_well_formed row :
  In row keyboard_rows -> Forall (fun c => is_nul c = false) row.
Proof.
  intros Hin.
  assert (Hall : forallb (forallb (fun c => negb (is_nul c)))
                   keyboard_rows = true) by reflexivity.
  rewrite forallb_forall in Hall. specialize (Hall row Hin).
  rewrite forallb_forall in Hall. apply Forall_forall.
  intros c Hc. apply list_elem_of_In in Hc.
  specialize (Hall c Hc). now apply negb_true_iff in Hall.
Qed.

(** The three characters at [i] of a row are neighbours, and all
    neighbours are found at some [i]. *)
Lemma neighbours_at row a b c :
  neighbours row a b c <->
  exists i, (i + 2 < length row)%nat /\
            a = char_at row i /\ b = char_at row (i + 1) /\
            c = char_at row (i + 2).
Proof.
  unfold neighbours, char_at. split.
  - intros (pre & post & ->). exists (length pre).
    rewrite !length_app. cbn [length]. split; [lia|].
    rewrite !app_nth2_plus. cbn.
    replace (length pre) with (length pre + 0)%nat at 1 by lia.
    now rewrite app_nth2_plus.
  - intros (i & Hi & -> & -> & ->).
    exists (take i row), (drop (i + 3) row).
    rewrite <- (take_drop i row) at 1. f_equal.
    assert (E0 : nth i row NUL = nth 0 (drop i row) NUL)
      by (rewrite nth_skipn; f_equal; lia).
    assert (E1 : nth (i + 1) row NUL = nth 1 (drop i row) NUL)
      by (now rewrite nth_skipn).
    assert (E2 : nth (i + 2) row NUL = nth 2 (drop i row) NUL)
      by (now rewrite nth_skipn).
    assert (E3 : drop (i + 3) row = drop 3 (drop i row))
      by (now rewrite drop_drop).
    rewrite E0, E1, E2, E3.
    assert (Hl : (3 <= length (drop i row))%nat)
      by (rewrite length_drop; lia).
    destruct (drop i row) as [|x [|y [|z l]]]; cbn in Hl; try lia.
    reflexivity.
Qed.

Lemma keyboard_match_spec s :
  keyboard_match s = true <->
  exists row a b c,
    In row keyboard_rows /\ neighbours row a b c /\
    (occurs [a; b; c] s \/ occurs [c; b; a] s).
Proof.
  unfold keyboard_match. rewrite existsb_exists. split.
  - intros (row & Hrow & H). apply existsb_exists in H as (i & Hi & H).
    apply in_seq in Hi.
    pose proof (keyboard_rows_well_formed row Hrow) as Hfree.
    rewrite (strlen_Forall row Hfree) in Hi.
    assert (Hthree : forall j, (j < length row)%nat ->
                               is_nul (char_at row j) = false).
    { intros j Hj. rewrite Forall_forall in Hfree. apply Hfree.
      apply list_elem_of_In, nth_In. exact Hj. }
    exists row, (char_at row i), (char_at row (i + 1)), (char_at row (i + 2)).
    split; [exact Hrow|]. split.
    + apply neighbours_at. exists i. split; [lia | tauto].
    + apply orb_true_iff in H as [H|H]; [left | right];
        (apply strstr_occurs in H; [exact H|]);
        repeat constructor; apply Hthree; lia.
  - intros (row & a & b & c & Hrow & Hn & H).
    apply neighbours_at in Hn as (i & Hi & -> & -> & ->).
    pose proof (keyboard_rows_well_formed row Hrow) as Hfree.
    assert (Hthree : forall j, (j < length row)%nat ->
                               is_nul (char_at row j) = false).
    { intros j Hj. rewrite Forall_forall in Hfree. apply Hfree.
      apply list_elem_of_In, nth_In. exact Hj. }
    exists row. split; [exact Hrow|]. apply existsb_exists. exists i.
    split; [apply in_seq; rewrite (strlen_Forall row Hfree); lia|].
    apply orb_true_iff.
    destruct H as [H|H]; [left | right];
      (apply strstr_occurs; [|exact H]);
      repeat constructor; apply Hthree; lia.
Qed.

Lemma weak_pattern_present_spec s :
  weak_pattern_present s = true <-> weak_pattern s.
Proof.
  unfold weak_pattern_present, weak_pattern.
  rewrite !orb_true_iff, keyboard_match_spec, !existsb_exists.
  assert (Hseq : forall i, In i (seq 0 (strlen s - 2)) <->
                           (i + 2 < strlen s)%nat)
    by (intros i; rewrite in_seq; lia).
  split.
  - intros [[[(p & Hp & H) | (i & Hi & H)] | (i & Hi & H)] | H].
    + left. exists p. split; [exact Hp|].
      exact (proj1 (strstr_occurs s p (weak_patterns_well_formed p Hp)) H).
    + right. left. exists i. now rewrite <- Hseq.
    + right. right. left. exists i. now rewrite <- Hseq.
    + right. right. right. exact H.
  - intros [(p & Hp & H) | [(i & Hi & H) | [(i & Hi & H) | H]]].
    + left. left. left. exists p. split; [exact Hp|].
      exact (proj2 (strstr_occurs s p (weak_patterns_well_formed p Hp)) H).
    + left. left. right. exists i. now rewrite Hseq.
    + left. right. exists i. now rewrite Hseq.
    + right. exact H.
Qed.

(** X9: on a password of at least two characters [check_weak_patterns]
    answers true when, and only when, the password holds an entry of the
    table, three characters in a row that are digits or letters in steps
    of one (up or down, case ignored), three equal characters in a row, or
    three neighbours of a keyboard row, forwards or backwards. *)
Theorem check_weak_patterns_characterised s :
  (2 <= strlen s)%nat -> N.of_nat (strlen s) < SIZE_MOD ->
  (weak_pattern s -> check_weak_patterns (Some s) = Done true) /\
  (~ weak_pattern s -> check_weak_patterns (Some s) = Done false).
Proof.
  intros Hlen Hsize. rewrite check_weak_patterns_value by assumption.
  rewrite <- weak_pattern_present_spec.
  destruct (weak_pattern_present s); split; intros H;
    try reflexivity; [now destruct H | discriminate].
Qed.

(** X10: a run of three digits or letters in steps of one, or three equal
    characters, anywhere inside the password makes [check_weak_patterns]
    answer true. *)
Theorem check_weak_patterns_detects_runs s i :
  (i + 2 < strlen s)%nat -> N.of_nat (strlen s) < SIZE_MOD ->
  sequential_at s i = true \/ repeated_at s i = true ->
  check_weak_patterns (Some s) = Done true.
Proof.
  intros Hi Hsize Hrun. rewrite check_weak_patterns_value by lia.
  f_equal. unfold weak_pattern_present.
  assert (Hin : In i (seq 0 (strlen s - 2))) by (apply in_seq; lia).
  destruct Hrun as [Hrun|Hrun].
  - assert (existsb (sequential_at s) (seq 0 (strlen s - 2)) = true)
      as -> by (apply existsb_exists; eauto).
    now rewrite orb_true_r.
  - assert (existsb (repeated_at s) (seq 0 (strlen s - 2)) = true)
      as -> by (apply existsb_exists; eauto).
    now rewrite !orb_true_r.
Qed.

End WeakPatternDetection.

Lemma check_weak_patterns_characterised_witness :
  check_weak_patterns (Some (lit "xQ7!uytZ")) = Done true.
Proof.
  destruct (check_weak_patterns_characterised (lit "xQ7!uytZ"))
    as [Hfound _].
  - cbn. lia.
  - reflexivity.
  - apply Hfound. right. right. right.
    exists (lit "qwertyuiop"), "t"%char, "y"%char, "u"%char.
    split; [cbn; tauto|]. split.
    + exists (lit "qwer"), (lit "iop"). reflexivity.
    + right. exists (lit "xQ7!"), (lit "Z"). reflexivity.
Defined.

Lemma check_weak_patterns_detects_runs_witness :
  check_weak_patterns (Some (lit "xQ7!mmmZ")) = Done true.
Proof.
  apply (check_weak_patterns_detects_runs (lit "xQ7!mmmZ") 4).
  - cbn. lia.
  - reflexivity.
  - right. reflexivity.
Defined.


(* ===================================================================== *)
(** ** More on the strength score and the assessment                      *)
(* ===================================================================== *)

Section ScoreFacts.

Implicit Types (s : list ascii) (c : ascii).

Lemma class_count_positive s : s <> [] -> (1 <= class_count s <= 4)%Z.
Proof.
  intros Hne. unfold class_count. destruct s as [|c s]; [contradiction|].
  assert (H : existsb islower (c :: s) || existsb isupper (c :: s) ||
              existsb isdigit (c :: s) || existsb is_other (c :: s) = true).
  { cbn [existsb]. unfold is_other.
    destruct (islower c), (isupper c), (isdigit c); cbn;
      rewrite ?orb_true_r; reflexivity. }
  destruct (existsb islower (c :: s)), (existsb isupper (c :: s)),
    (existsb isdigit (c :: s)), (existsb is_other (c :: s));
    cbn in *; try lia; discriminate.
Qed.

(** X11: a password of at least 8 characters scores a multiple of ten
    between 30 and 100, and the cap at 100 never cuts anything off: the
    score is the plain sum of the four components. *)
Theorem calculate_strength_score_range s :
  (8 <= length s)%nat -> N.of_nat (length s) < SIZE_MOD ->
  exists v,
    calculate_strength_score (Some s) (N.of_nat (length s)) = Done v /\
    v = (length_points s + 10 * class_count s + middle_points s +
         composite_points s)%Z /\
    (30 <= v <= 100)%Z /\ (v mod 10 = 0)%Z.
Proof.
  intros H8 Hsize. exists (strength_score_formula s).
  split; [now apply calculate_strength_score_formula|].
  assert (Hc : (1 <= class_count s <= 4)%Z)
    by (apply class_count_positive; intros ->; cbn in H8; lia).
  unfold strength_score_formula, length_points, middle_points,
    composite_points in *.
  unfold class_count in *. clear H8 Hsize.
  destruct (12 <=? length s)%nat, (10 <=? length s)%nat,
    (existsb islower s), (existsb isupper s), (existsb isdigit s),
    (existsb is_other s), (existsb (fun c => negb (isalpha c)) (middle s));
    vm_compute in Hc |- *;
    first [ exfalso; destruct Hc as [Hc _]; exact (Hc eq_refl)
          | repeat split; first [reflexivity | discriminate] ].
Qed.

End ScoreFacts.

Lemma calculate_strength_score_range_witness :
  exists v,
    calculate_strength_score (Some (lit "Xk9mTq2wLp7z")) 12 = Done v /\
    v = (length_points (lit "Xk9mTq2wLp7z") +
         10 * class_count (lit "Xk9mTq2wLp7z") +
         middle_points (lit "Xk9mTq2wLp7z") +
         composite_points (lit "Xk9mTq2wLp7z"))%Z /\
    (30 <= v <= 100)%Z /\ (v mod 10 = 0)%Z.
Proof.
  apply (calculate_strength_score_range (lit "Xk9mTq2wLp7z")).
  - cbn. lia.
  - reflexivity.
Defined.

Section AssessmentFacts.

Implicit Types (s : list ascii) (base : Z).

Lemma adjusted_score_le (weak word : bool) base :
  (0 <= base <= 100)%Z -> (adjusted_score weak word base <= base)%Z.
Proof.
  intros Hb. unfold adjusted_score. cbn zeta.
  assert (H70 : (base * 70 / 100 <= base)%Z)
    by (apply Z.div_le_upper_bound; lia).
  assert (H70' : (0 <= base * 70 / 100)%Z) by (apply Z.div_pos; lia).
  set (first := if weak then (base * 70 / 100)%Z else base).
  assert (Hf : (0 <= first <= base)%Z) by (unfold first; destruct weak; lia).
  assert (H60 : (first * 60 / 100 <= first)%Z)
    by (apply Z.div_le_upper_bound; lia).
  assert (H60' : (0 <= first * 60 / 100)%Z) by (apply Z.div_pos; lia).
  destruct word; lia.
Qed.

(** The record that [assess_password_security] returns for a password of
    at least two characters. *)
Lemma assess_password_security_value strdup_ok s :
  (2 <= strlen s)%nat -> N.of_nat (length s) < SIZE_MOD ->
  exists base,
    calculate_strength_score (Some s) (N.of_nat (length s)) = Done base /\
    (0 <= base <= 100)%Z /\
    assess_password_security strdup_ok (Some s) (N.of_nat (length s)) =
      Done {| score :=
                adjusted_score (weak_pattern_present s)
                  (check_dictionary_words strdup_ok (Some s)) base;
              category :=
                category_by_twenties
                  (adjusted_score (weak_pattern_present s)
                     (check_dictionary_words strdup_ok (Some s)) base);
              has_weak_pattern := weak_pattern_present s;
              has_dictionary_word :=
                check_dictionary_words strdup_ok (Some s);
              is_duplicate := false |}.
Proof.
  intros Hlen Hsize.
  destruct (calculate_strength_score_total s Hsize) as (base & Hbase & Hb).
  pose proof (strlen_le_length s) as Hle.
  exists base. split; [exact Hbase|]. split; [exact Hb|].
  unfold assess_password_security.
  destruct (N.eqb_spec (N.of_nat (length s)) 0); [lia|].
  rewrite Hbase, check_weak_patterns_value by lia.
  cbn [mbind access_bind].
  pose proof (penalties_adjusted (weak_pattern_present s)
                (check_dictionary_words strdup_ok (Some s)) base Hb) as Hp.
  cbn zeta in Hp. rewrite Hp.
  rewrite category_of_int_twenties by apply adjusted_score_range.
  reflexivity.
Qed.

(** X12: the assessment of a password of at least two characters returns;
    its score lies between 0 and the base score of
    [calculate_strength_score], equals the base score when neither a weak
    pattern nor a dictionary word was found, and is 0 with category
    VeryWeak for every password shorter than 8 characters. *)
Theorem assess_password_security_never_raises strdup_ok s :
  (2 <= strlen s)%nat -> N.of_nat (length s) < SIZE_MOD ->
  exists base a,
    calculate_strength_score (Some s) (N.of_nat (length s)) = Done base /\
    assess_password_security strdup_ok (Some s) (N.of_nat (length s)) =
      Done a /\
    (0 <= score a <= base)%Z /\
    (has_weak_pattern a = false -> has_dictionary_word a = false ->
     score a = base) /\
    ((length s < 8)%nat -> score a = 0%Z /\ category a = STRENGTH_VERY_WEAK).
Proof.
  intros Hlen Hsize.
  destruct (assess_password_security_value strdup_ok s Hlen Hsize)
    as (base & Hbase & Hb & Ha).
  eexists base, _. split; [exact Hbase|]. split; [exact Ha|].
  cbn [score category has_weak_pattern has_dictionary_word].
  pose proof (adjusted_score_range (weak_pattern_present s)
                (check_dictionary_words strdup_ok (Some s)) base).
  pose proof (adjusted_score_le (weak_pattern_present s)
                (check_dictionary_words strdup_ok (Some s)) base Hb).
  split; [lia|]. split.
  - intros -> ->. unfold adjusted_score. cbn zeta. lia.
  - intros Hshort.
    rewrite calculate_strength_score_short in Hbase by lia.
    injection Hbase as <-.
    assert (Hz : adjusted_score (weak_pattern_present s)
                   (check_dictionary_words strdup_ok (Some s)) 0 = 0%Z)
      by lia.
    rewrite Hz. split; reflexivity.
Qed.

End AssessmentFacts.

Lemma assess_password_security_never_raises_witness :
  exists base a,
    calculate_strength_score (Some (lit "password123")) 11 = Done base /\
    assess_password_security true (Some (lit "password123")) 11 = Done a /\
    (0 <= score a <= base)%Z /\
    (has_weak_pattern a = false -> has_dictionary_word a = false ->
     score a = base) /\
    ((11 < 8)%nat -> score a = 0%Z /\ category a = STRENGTH_VERY_WEAK).
Proof.
  apply (assess_password_security_never_raises true (lit "password123")).
  - cbn. lia.
  - reflexivity.
Defined.

Section GeneratedAndAssessed.

Variable entropy_percent : list ascii -> PasswordOptions -> Z.

(** X13: every password that [generate_password] returns can be handed to
    [assess_password_security] with the recorded length, as the display
    code does: the assessment returns, reading inside the buffer only,
    and the base score is at least 30. *)
Theorem generated_password_assessable strdup_ok fuel o w r w' pw :
  generate_password entropy_percent fuel (Some o) w = Some (r, w') ->
  password r = Some pw ->
  exists base a,
    calculate_strength_score (Some pw) (res_length r) = Done base /\
    (30 <= base <= 100)%Z /\
    assess_password_security strdup_ok (Some pw) (res_length r) = Done a /\
    (0 <= score a <= base)%Z.
Proof.
  intros H Hp.
  destruct (generate_password_success entropy_percent fuel o w r w' pw H Hp)
    as (Hvalid & w2 & Htail).
  destruct (valid_options_facts o Hvalid) as (H8 & H128 & _).
  destruct (pool_members (charset o)) as (_ & _ & _ & _ & Hsub & Hnul).
  destruct (generate_tail_kept entropy_percent
              (fun ch => In ch (build_char_set (charset o)))
              fuel o w2 r w' Hvalid Hsub (pool_drawable o Hvalid) Hnul Htail)
    as (pw0 & Hpw & Hres & Hlen & Hall).
  rewrite Hp in Hpw. injection Hpw as <-.
  assert (Hstr : strlen pw = length pw)
    by (apply strlen_Forall; eapply Forall_impl; [exact Hall | exact Hnul]).
  assert (Hn : res_length r = N.of_nat (length pw)) by lia.
  assert (Hsize : N.of_nat (length pw) < SIZE_MOD)
    by (change SIZE_MOD with 18446744073709551616; lia).
  rewrite Hn.
  destruct (assess_password_security_value strdup_ok pw)
    as (base & Hbase & Hb & Ha); [lia | exact Hsize |].
  eexists base, _. split; [exact Hbase|].
  rewrite calculate_strength_score_formula in Hbase by (lia || exact Hsize).
  injection Hbase as <-.
  assert (Hc : (1 <= class_count pw <= 4)%Z)
    by (apply class_count_positive; intros ->; cbn in Hlen; lia).
  split.
  { split; [|apply strength_score_formula_range].
    unfold strength_score_formula, length_points, middle_points,
      composite_points.
    destruct (12 <=? length pw)%nat, (10 <=? length pw)%nat,
      (existsb (fun c => negb (isalpha c)) (middle pw)),
      (existsb islower pw && existsb isupper pw && existsb isdigit pw);
      lia. }
  split; [exact Ha|]. cbn [score].
  pose proof (adjusted_score_range (weak_pattern_present pw)
                (check_dictionary_words strdup_ok (Some pw))
                (strength_score_formula pw)).
  pose proof (adjusted_score_le (weak_pattern_present pw)
                (check_dictionary_words strdup_ok (Some pw))
                (strength_score_formula pw)
                (strength_score_formula_range pw)).
  lia.
Qed.

End GeneratedAndAssessed.

Lemma generated_password_assessable_witness :
  exists base a,
    calculate_strength_score (Some (lit "0!aaaaaa"))
      (res_length (with_metadata (fun _ _ => 0%Z) (lit "0!aaaaaa") 8
                     all_types_options)) = Done base /\
    (30 <= base <= 100)%Z /\
    assess_password_security true (Some (lit "0!aaaaaa"))
      (res_length (with_metadata (fun _ _ => 0%Z) (lit "0!aaaaaa") 8
                     all_types_options)) = Done a /\
    (0 <= score a <= base)%Z.
Proof.
  eapply (generated_password_assessable (fun _ _ => 0%Z) true 0%nat
            all_types_options (world_of [26])).
  - vm_compute. reflexivity.
  - reflexivity.
Defined.


(* ===================================================================== *)
(** ** What the dictionary check detects                                  *)
(* ===================================================================== *)

Section DictionaryDetection.

Implicit Types (s t pre post word : list ascii) (c : ascii) (n : nat).

Lemma is_nul_tolower c : is_nul (tolower c) = is_nul c.
Proof. destruct c as [[] [] [] [] [] [] [] []]; reflexivity. Qed.

Lemma is_nul_leet_substitute c : is_nul (leet_substitute c) = is_nul c.
Proof. destruct c as [[] [] [] [] [] [] [] []]; reflexivity. Qed.

Lemma strlen_map (f : ascii -> ascii) s :
  (forall c, is_nul (f c) = is_nul c) -> strlen (map f s) = strlen s.
Proof.
  intros Hf. induction s as [|c s IH]; cbn; [reflexivity|].
  rewrite Hf. destruct (is_nul c); [reflexivity|]. now rewrite IH.
Qed.

(** X14: [check_dictionary_words] ignores the case of letters: two
    passwords that agree after [tolower] get the same answer. *)
Theorem check_dictionary_words_ignores_case strdup_ok s t :
  map tolower s = map tolower t ->
  check_dictionary_words strdup_ok (Some s) =
  check_dictionary_words strdup_ok (Some t).
Proof.
  intros H. unfold check_dictionary_words.
  rewrite <- (strlen_map tolower s is_nul_tolower).
  rewrite <- (strlen_map tolower t is_nul_tolower).
  rewrite <- !firstn_map, H. reflexivity.
Qed.

Lemma strlen_app_nul_free s t :
  Forall (fun c => is_nul c = false) s ->
  strlen (s ++ t) = (length s + strlen t)%nat.
Proof.
  induction 1 as [|c s Hc _ IH]; cbn; [reflexivity|]. now rewrite Hc, IH.
Qed.

Lemma take_strlen_nul_free s n :
  (n <= strlen s)%nat -> Forall (fun c => is_nul c = false) (take n s).
Proof.
  revert n. induction s as [|c s IH]; intros [|n] Hn; cbn in *;
    try constructor.
  - destruct (is_nul c) eqn:Hc; [lia | reflexivity].
  - apply IH. destruct (is_nul c); lia.
Qed.

Lemma chars_Forall s :
  Forall (fun c => is_nul c = false) s -> chars s = s.
Proof.
  intros H. unfold chars. rewrite (strlen_Forall s H). apply firstn_all.
Qed.

Lemma prefixb_app word post : prefixb word (word ++ post) = true.
Proof.
  induction word as [|c word IH]; cbn; [reflexivity|].
  now rewrite Ascii.eqb_refl, IH.
Qed.

Lemma infixb_app pre word post : infixb word (pre ++ word ++ post) = true.
Proof.
  induction pre as [|c pre IH]; cbn [app].
  - destruct (word ++ post) eqn:E; cbn; rewrite <- E, prefixb_app;
      reflexivity.
  - cbn [infixb]. rewrite IH. apply orb_true_r.
Qed.

Lemma dictionary_words_well_formed word :
  In word dictionary_words ->
  Forall (fun c => is_nul c = false) word.
Proof.
  intros Hin.
  assert (Hall : forallb (forallb (fun c => negb (is_nul c)))
                   dictionary_words = true) by reflexivity.
  rewrite forallb_forall in Hall. specialize (Hall word Hin).
  rewrite forallb_forall in Hall. apply Forall_forall. intros c Hc.
  apply negb_true_iff, Hall, list_elem_of_In, Hc.
Qed.

Lemma Forall_nul_map (f : ascii -> ascii) s :
  (forall c, is_nul (f c) = is_nul c) ->
  Forall (fun c => is_nul c = false) (map f s) <->
  Forall (fun c => is_nul c = false) s.
Proof.
  intros Hf. rewrite Forall_map.
  split; intros H; (eapply Forall_impl; [exact H|]); intros c; cbn;
    rewrite Hf; auto.
Qed.

(** X15: a dictionary word that stands in the first 255 characters of the
    password, in any mix of upper and lower case, is reported; so is,
    when [strdup] obtains memory, a spelling of the word with the digits
    and signs of the leet-speak table. *)
Theorem check_dictionary_words_finds_words strdup_ok pre spelled post word :
  In word dictionary_words ->
  map tolower spelled = word \/
  strdup_ok = true /\ map leet_substitute (map tolower spelled) = word ->
  Forall (fun c => is_nul c = false) pre ->
  (length pre + length spelled <= 255)%nat ->
  check_dictionary_words strdup_ok (Some (pre ++ spelled ++ post)) = true.
Proof.
  intros Hin Hspelled Hpre Hfit.
  pose proof (dictionary_words_well_formed word Hin) as Hword.
  assert (Hsp : Forall (fun c => is_nul c = false) spelled).
  { destruct Hspelled as [<-|[_ <-]].
    - now apply (Forall_nul_map tolower spelled is_nul_tolower).
    - apply (Forall_nul_map tolower spelled is_nul_tolower).
      now apply (Forall_nul_map leet_substitute _ is_nul_leet_substitute). }
  unfold check_dictionary_words.
  set (s := pre ++ spelled ++ post).
  assert (Hstr : strlen s = (length pre + length spelled + strlen post)%nat).
  { unfold s. rewrite !strlen_app_nul_free by assumption. lia. }
  set (pass_len := if (256 <=? strlen s)%nat then (256 - 1)%nat
                   else strlen s).
  assert (Hp : (length pre + length spelled <= pass_len <= strlen s)%nat).
  { unfold pass_len. destruct (Nat.leb_spec 256 (strlen s)); lia. }
  assert (Htake : take pass_len s =
                  pre ++ spelled ++
                  take (pass_len - length pre - length spelled) post).
  { unfold s. rewrite take_app_ge by lia. f_equal.
    rewrite take_app_ge by lia. reflexivity. }
  assert (Hfree : Forall (fun c => is_nul c = false) (take pass_len s))
    by (apply take_strlen_nul_free; lia).
  set (lower_password := map tolower (take pass_len s)).
  assert (Hlower : Forall (fun c => is_nul c = false) lower_password)
    by now apply (Forall_nul_map tolower _ is_nul_tolower).
  destruct (existsb (strstr lower_password) dictionary_words) eqn:Hdirect;
    [reflexivity|].
  destruct Hspelled as [Hdir|[-> Hleet]].
  - exfalso. apply not_true_iff_false in Hdirect. apply Hdirect.
    apply existsb_exists. exists word. split; [exact Hin|].
    unfold strstr. rewrite (chars_Forall word Hword).
    rewrite (chars_Forall lower_password Hlower).
    unfold lower_password. rewrite Htake, !map_app, Hdir.
    apply infixb_app.
  - cbn [negb]. apply existsb_exists. exists word. split; [exact Hin|].
    unfold strstr. rewrite (chars_Forall word Hword).
    rewrite (chars_Forall lower_password Hlower).
    rewrite chars_Forall
      by now apply (Forall_nul_map leet_substitute _ is_nul_leet_substitute).
    unfold lower_password. rewrite Htake, !map_app, Hleet.
    apply infixb_app.
Qed.

End DictionaryDetection.

Lemma check_dictionary_words_ignores_case_witness :
  check_dictionary_words true (Some (lit "PassWord")) =
  check_dictionary_words true (Some (lit "pASSwORD")).
Proof.
  apply (check_dictionary_words_ignores_case true (lit "PassWord")
           (lit "pASSwORD")).
  reflexivity.
Defined.

Lemma check_dictionary_words_finds_words_witness :
  check_dictionary_words true (Some (lit "xx" ++ lit "P4ssW0rd" ++ lit "!"))
  = true.
Proof.
  apply (check_dictionary_words_finds_words true (lit "xx") (lit "P4ssW0rd")
           (lit "!") (lit "password")).
  - cbn. tauto.
  - right. split; reflexivity.
  - repeat constructor.
  - cbn. lia.
Defined.

(* ===================================================================== *)
(** ** Properties of [trim_whitespace] and the prompts that call it       *)
(* ===================================================================== *)

Section Trimming.

Lemma isspace_not_nul c : isspace c = true -> is_nul c = false.
Proof. destruct c as [[] [] [] [] [] [] [] []]; vm_compute; congruence. Qed.

Lemma strip_left_drop l : strip_left l = drop (skip_space l) l.
Proof.
  induction l as [|c l IH]; cbn; [reflexivity|].
  destruct (isspace c); [exact IH | reflexivity].
Qed.

Lemma skip_space_blank l : blank (take (skip_space l) l).
Proof.
  unfold blank. induction l as [|c l IH]; cbn; [constructor|].
  destruct (isspace c) eqn:Hc; cbn; [|constructor].
  constructor; assumption.
Qed.

Lemma strip_left_head l c l' :
  strip_left l = c :: l' -> isspace c = false.
Proof.
  induction l as [|x l IH]; cbn; [discriminate|].
  destruct (isspace x) eqn:Hx; [exact IH|].
  intros [= -> _]. exact Hx.
Qed.

Lemma chars_strip_left l : chars (strip_left l) = strip_left (chars l).
Proof.
  unfold chars. induction l as [|c l IH]; [reflexivity|].
  cbn [strip_left strlen]. destruct (isspace c) eqn:Hc.
  - rewrite (isspace_not_nul c Hc). cbn [take strip_left]. rewrite Hc.
    exact IH.
  - cbn [strlen]. destruct (is_nul c); cbn [take strip_left];
      [reflexivity|]. now rewrite Hc.
Qed.

Lemma chars_app_nul_free a b :
  Forall (fun c => is_nul c = false) a -> chars (a ++ b) = a ++ chars b.
Proof.
  intros Ha. unfold chars. rewrite (strlen_app_nul_free a b Ha).
  now rewrite take_app_add.
Qed.

Lemma blank_nul_free l : blank l -> Forall (fun c => is_nul c = false) l.
Proof.
  intros H. eapply Forall_impl; [exact H|]. exact isspace_not_nul.
Qed.

Lemma chars_insert_nul s i :
  (i <= strlen s)%nat -> chars (<[i := NUL]> s) = take i s.
Proof.
  unfold chars. revert i. induction s as [|c s IH]; intros i Hi; cbn in *.
  - now destruct i.
  - destruct i as [|i]; cbn; [reflexivity|].
    destruct (is_nul c) eqn:Hc; [lia|]. cbn. f_equal. apply IH. lia.
Qed.

Lemma back_over_space_le str k : (back_over_space str k <= k)%nat.
Proof.
  induction k as [|k IH]; cbn [back_over_space]; [lia|].
  destruct (isspace (char_at str (S k))); lia.
Qed.

Lemma lookup_char_at (s : list ascii) i :
  (i < length s)%nat -> s !! i = Some (char_at s i).
Proof.
  revert i. induction s as [|c s IH]; intros [|i] Hi; cbn in *;
    try lia; [reflexivity|].
  apply IH. lia.
Qed.

Lemma back_over_space_take str k :
  isspace (char_at str 0) = false -> (k < length str)%nat ->
  take (S (back_over_space str k)) str = strip_right (take (S k) str).
Proof.
  intros H0 Hk. induction k as [|k IH].
  - cbn [back_over_space]. destruct str as [|c str]; [cbn in Hk; lia|].
    change (isspace c = false) in H0. unfold strip_right.
    cbn [take]. rewrite take_0. cbn [rev app strip_left]. now rewrite H0.
  - cbn [back_over_space].
    rewrite (take_S_r str (S k) (char_at str (S k)))
      by (apply lookup_char_at; lia).
    unfold strip_right. rewrite rev_unit. cbn [strip_left].
    destruct (isspace (char_at str (S k))) eqn:Hx.
    + apply IH. lia.
    + cbn [rev]. rewrite rev_involutive.
      now rewrite (take_S_r str (S k) (char_at str (S k)))
        by (apply lookup_char_at; lia).
Qed.

Lemma strlen_pos_char_at s :
  is_nul (char_at s 0) = false -> (0 < strlen s)%nat.
Proof. destruct s as [|c s]; cbn; [discriminate|]. intros ->. lia. Qed.

Lemma strip_left_blank ws l : blank ws -> strip_left (ws ++ l) = strip_left l.
Proof. induction 1 as [|c ws Hc _ IH]; cbn; [reflexivity|]. now rewrite Hc. Qed.

Lemma strip_right_app_blank l ws :
  blank ws -> strip_right (l ++ ws) = strip_right l.
Proof.
  intros H. unfold strip_right. rewrite rev_app_distr.
  rewrite strip_left_blank; [reflexivity|].
  unfold blank in *. now apply Forall_rev.
Qed.

Lemma strip_left_app l l' c k :
  strip_left l = c :: k -> strip_left (l ++ l') = strip_left l ++ l'.
Proof.
  induction l as [|x l IH]; cbn; [discriminate|].
  destruct (isspace x); [exact IH | reflexivity].
Qed.

Lemma strip_right_app_r ws l :
  strip_right l <> [] -> strip_right (ws ++ l) = ws ++ strip_right l.
Proof.
  unfold strip_right. intros H. rewrite rev_app_distr.
  destruct (strip_left (rev l)) as [|c k] eqn:E; [now destruct H|].
  rewrite (strip_left_app _ _ c k E), E.
  now rewrite rev_app_distr, rev_involutive.
Qed.

Lemma char_at_chars s : char_at (chars s) 0 = char_at s 0.
Proof.
  unfold chars. destruct s as [|c s]; cbn; [reflexivity|].
  destruct (is_nul c) eqn:Hc; cbn; [|reflexivity].
  unfold is_nul in Hc. now apply Ascii.eqb_eq in Hc.
Qed.

(** The string in front of the terminator, cut behind [k] characters. *)
Lemma take_chars s k : (k <= strlen s)%nat -> take k (chars s) = take k s.
Proof. intros H. unfold chars. rewrite take_take. f_equal. lia. Qed.

(** What [trim_buffer] does, in one statement for both theorems below:
    with [start] the leading white space and [str] the rest, either [str]
    is empty and the buffer is left alone, or the buffer is cut behind the
    last character of [str] that is no white space. *)
Lemma trim_buffer_cases buffer :
  let start := skip_space buffer in
  let str := drop start buffer in
  (is_nul (char_at str 0) = true /\ trim_buffer buffer = (start, buffer) /\
   strip_left (chars buffer) = [])
  \/
  (is_nul (char_at str 0) = false /\
   exists e, (e < strlen str)%nat /\
     trim_buffer buffer = (start, <[(start + S e)%nat := NUL]> buffer) /\
     take (S e) str = strip_right (chars str) /\
     chars str = strip_left (chars buffer)).
Proof.
  intros start str. unfold trim_buffer. fold start. fold str.
  assert (Hstr : chars str = strip_left (chars buffer)).
  { unfold str, start. rewrite <- strip_left_drop. apply chars_strip_left. }
  destruct (is_nul (char_at str 0)) eqn:H0.
  - left. repeat split. rewrite <- Hstr. unfold chars.
    destruct str as [|c s]; cbn in *; [reflexivity|]. now rewrite H0.
  - right. split; [reflexivity|].
    pose proof (strlen_pos_char_at str H0) as Hpos.
    exists (back_over_space str (strlen str - 1)).
    pose proof (back_over_space_le str (strlen str - 1)) as Hle.
    split; [lia|]. split; [now rewrite Nat.add_1_r|]. split; [|exact Hstr].
    assert (Hns : isspace (char_at str 0) = false).
    { unfold str, start. rewrite <- strip_left_drop.
      destruct (strip_left buffer) as [|c k] eqn:E.
      - unfold str, start in H0. rewrite <- strip_left_drop, E in H0.
        discriminate.
      - cbn. exact (strip_left_head _ _ _ E). }
    pose proof (strlen_le_length str) as Hlen.
    rewrite back_over_space_take by (assumption || lia).
    replace (S (strlen str - 1)) with (strlen str) by lia. reflexivity.
Qed.

(** X16: the string that [trim_whitespace] returns is the string of the
    buffer without its leading and its trailing white space. *)
Theorem trim_whitespace_returns_stripped buffer :
  exists start buffer',
    trim_whitespace (Some buffer) = Some (start, buffer') /\
    chars (drop start buffer') = strip (chars buffer).
Proof.
  unfold trim_whitespace.
  destruct (trim_buffer_cases buffer)
    as [(H0 & -> & Hs) | (H0 & e & He & -> & Ht & Hs)].
  - eexists _, _. split; [reflexivity|].
    rewrite <- strip_left_drop, chars_strip_left. unfold strip. now rewrite Hs.
  - eexists _, _. split; [reflexivity|].
    rewrite drop_insert_ge by lia.
    replace (skip_space buffer + S e - skip_space buffer)%nat with (S e)
      by lia.
    rewrite chars_insert_nul by lia. rewrite Ht. unfold strip.
    now rewrite Hs.
Qed.

Lemma trim_buffer_in_place buffer :
  chars (snd (trim_buffer buffer)) =
    (if decide (strip (chars buffer) = []) then chars buffer
     else strip_right (chars buffer)).
Proof.
  pose proof (skip_space_blank buffer) as Hb.
  pose proof (take_drop (skip_space buffer) buffer) as Hsplit.
  destruct (trim_buffer_cases buffer)
    as [(H0 & -> & Hs) | (H0 & e & He & -> & Ht & Hs)]; cbn [snd].
  - unfold strip. rewrite Hs. now rewrite decide_True by reflexivity.
  - set (start := skip_space buffer) in *.
    set (str := drop start buffer) in *.
    assert (Hne : strip_right (chars str) <> []).
    { rewrite <- Ht. destruct str; [cbn in He; lia | discriminate]. }
    assert (Hc : chars buffer = take start buffer ++ chars str).
    { rewrite <- Hsplit at 1. apply chars_app_nul_free, blank_nul_free, Hb. }
    unfold strip. rewrite <- Hs. rewrite decide_False by exact Hne.
    rewrite Hc, strip_right_app_r by exact Hne. rewrite <- Ht.
    rewrite chars_insert_nul.
    + unfold str. now rewrite take_take_drop.
    + rewrite <- (length_chars buffer), Hc, length_app, length_chars.
      rewrite length_take. pose proof (f_equal length Hsplit) as Hl.
      rewrite length_app, length_take in Hl. fold str in Hl.
      pose proof (strlen_le_length str). lia.
Qed.

(** X17: the buffer itself, which is what every caller goes on to use,
    loses its trailing white space only, and a buffer of nothing but white
    space is left as it is. *)
Theorem trim_whitespace_in_place buffer :
  exists start buffer',
    trim_whitespace (Some buffer) = Some (start, buffer') /\
    chars buffer' =
      (if decide (strip (chars buffer) = []) then chars buffer
       else strip_right (chars buffer)).
Proof.
  unfold trim_whitespace. destruct (trim_buffer buffer) as [start b] eqn:E.
  exists start, b. split; [reflexivity|].
  pose proof (trim_buffer_in_place buffer) as H. now rewrite E in H.
Qed.

Lemma strlen_zero s : (strlen s =? 0)%nat = is_nul (char_at s 0).
Proof. destruct s as [|c s]; cbn; [reflexivity|]. now destruct (is_nul c). Qed.

Lemma char_at_insert_other (s : list ascii) i x :
  (0 < i)%nat -> char_at (<[i := x]> s) 0 = char_at s 0.
Proof.
  intros Hi. destruct s as [|c s]; [reflexivity|]. now destruct i; [lia|].
Qed.

Lemma trim_buffer_first buffer :
  char_at (snd (trim_buffer buffer)) 0 = char_at buffer 0.
Proof.
  destruct (trim_buffer_cases buffer)
    as [(H0 & -> & Hs) | (H0 & e & He & -> & Ht & Hs)]; [reflexivity|].
  cbn [snd]. apply char_at_insert_other. lia.
Qed.

(** X18: [prompt_yes_no] answers with its default only when no line could
    be read or the line is empty.  Whatever else is typed is judged by its
    first character, so that the line of the Enter key alone counts as a
    no, whatever the default. *)
Theorem prompt_yes_no_first_character buffer default_yes :
  is_nul (char_at buffer 0) = false ->
  prompt_yes_no (Some buffer) default_yes =
  Ascii.eqb (tolower (char_at buffer 0)) "y".
Proof.
  intros H. unfold prompt_yes_no.
  rewrite strlen_zero, !trim_buffer_first, H. reflexivity.
Qed.

End Trimming.

Lemma prompt_yes_no_first_character_witness :
  prompt_yes_no (Some [newline]) true = false.
Proof.
  apply (prompt_yes_no_first_character [newline] true). reflexivity.
Defined.

(* ===================================================================== *)
(** ** Properties of [string_to_int] and of the numbers read from a line  *)
(* ===================================================================== *)

Section Numbers.

Lemma isdigit_facts c :
  isdigit c = true ->
  isspace c = false /\ is_nul c = false /\
  Ascii.eqb c "-" = false /\ Ascii.eqb c "+" = false /\
  Ascii.eqb c newline = false.
Proof.
  destruct c as [[] [] [] [] [] [] [] []]; vm_compute; intros H;
    repeat split; congruence.
Qed.

Lemma skip_space_app_blank ws l :
  blank ws -> skip_space (ws ++ l) = (length ws + skip_space l)%nat.
Proof.
  induction 1 as [|c ws Hc _ IH]; cbn; [reflexivity|]. now rewrite Hc, IH.
Qed.

Lemma leading_digits_app ds tail :
  Forall (fun c => isdigit c = true) ds ->
  leading_digits (ds ++ tail) = ds ++ leading_digits tail.
Proof.
  induction 1 as [|c ds Hc _ IH]; cbn; [reflexivity|]. now rewrite Hc, IH.
Qed.

Lemma decimal_nonneg_from ds acc :
  Forall (fun c => isdigit c = true) ds -> (0 <= acc)%Z ->
  (0 <= fold_left (fun acc c => 10 * acc + (code c - 48)) ds acc)%Z.
Proof.
  intros H. revert acc. induction H as [|c ds Hc _ IH]; intros acc Hacc;
    cbn; [exact Hacc|].
  apply IH. unfold isdigit, in_range in Hc. lia.
Qed.

Lemma decimal_nonneg ds :
  Forall (fun c => isdigit c = true) ds -> (0 <= decimal ds)%Z.
Proof. intros H. apply decimal_nonneg_from; [exact H | lia]. Qed.

Lemma char_at_app_r (a b : list ascii) i :
  char_at (a ++ b) (length a + i) = char_at b i.
Proof.
  unfold char_at. induction a as [|c a IH]; cbn; [reflexivity | exact IH].
Qed.

Lemma skip_space_stop l :
  isspace (char_at l 0) = false -> skip_space l = 0%nat.
Proof. destruct l as [|c l]; cbn; [reflexivity|]. now intros ->. Qed.

Lemma leading_digits_stop l :
  isdigit (char_at l 0) = false -> leading_digits l = [].
Proof. destruct l as [|c l]; cbn; [reflexivity|]. now intros ->. Qed.

Lemma strtol_padded ws ds tail :
  blank ws -> numeral ds -> isdigit (char_at tail 0) = false ->
  strtol (ws ++ ds ++ tail) =
  {| strtol_value := Z.max LONG_MIN (Z.min LONG_MAX (decimal ds));
     strtol_endptr := (length ws + length ds)%nat;
     strtol_erange :=
       ((decimal ds <? LONG_MIN) || (LONG_MAX <? decimal ds))%Z |}.
Proof.
  intros Hws [Hne Hds] Htd.
  destruct ds as [|d ds']; [now destruct Hne|]. set (ds := d :: ds') in *.
  assert (Hd : isdigit d = true) by now inversion Hds.
  destruct (isdigit_facts d Hd) as (Hd1 & Hd2 & Hd3 & Hd4 & Hd5).
  unfold strtol.
  rewrite skip_space_app_blank by exact Hws.
  rewrite (skip_space_stop (ds ++ tail)) by exact Hd1.
  rewrite Nat.add_0_r, drop_app_length.
  change (char_at (ds ++ tail) 0) with d. rewrite Hd3, Hd4.
  cbn [orb]. rewrite drop_0, leading_digits_app by exact Hds.
  rewrite (leading_digits_stop tail Htd), app_nil_r.
  change (length ds =? 0)%nat with false. cbv iota.
  now rewrite Nat.add_0_r.
Qed.

Lemma string_to_int_padded ws ds tail min max :
  blank ws -> numeral ds ->
  is_nul (char_at tail 0) || Ascii.eqb (char_at tail 0) newline = true ->
  (INT_MIN <= min)%Z -> (max <= INT_MAX)%Z ->
  string_to_int (Some (ws ++ ds ++ tail)) min max =
  if ((min <=? decimal ds) && (decimal ds <=? max))%Z
  then Some (decimal ds) else None.
Proof.
  intros Hws Hds Htail Hmin Hmax.
  assert (Htd : isdigit (char_at tail 0) = false).
  { destruct (isdigit (char_at tail 0)) eqn:E; [|reflexivity].
    destruct (isdigit_facts _ E) as (_ & E2 & _ & _ & E5).
    rewrite E2, E5 in Htail. discriminate. }
  pose proof (decimal_nonneg ds (proj2 Hds)) as Hpos.
  unfold string_to_int. rewrite strtol_padded by assumption.
  cbn [strtol_value strtol_endptr strtol_erange].
  rewrite app_assoc, <- length_app.
  rewrite <- (Nat.add_0_r (length (ws ++ ds))), char_at_app_r.
  unfold INT_MIN, INT_MAX, LONG_MIN, LONG_MAX in *.
  destruct (decimal ds <? - 2 ^ 63)%Z eqn:E1; [lia|].
  destruct (2 ^ 63 - 1 <? decimal ds)%Z eqn:E2.
  { cbn [orb]. destruct (decimal ds <=? max)%Z eqn:E3; [lia|].
    now rewrite andb_false_r. }
  cbn [orb].
  replace (Z.max (- 2 ^ 63) (Z.min (2 ^ 63 - 1) (decimal ds)))
    with (decimal ds) by lia.
  destruct (decimal ds <? - 2 ^ 31)%Z eqn:E4; [lia|].
  destruct (2 ^ 31 - 1 <? decimal ds)%Z eqn:E5.
  { cbn [orb]. destruct (decimal ds <=? max)%Z eqn:E3; [lia|].
    now rewrite andb_false_r. }
  cbn [orb].
  destruct (is_nul (char_at tail 0)); cbn [negb andb].
  - destruct (decimal ds <? min)%Z eqn:E6, (max <? decimal ds)%Z eqn:E7,
      (min <=? decimal ds)%Z eqn:E8, (decimal ds <=? max)%Z eqn:E9;
      cbn; try reflexivity; lia.
  - cbn [orb] in Htail. rewrite Htail. cbn [negb].
    destruct (decimal ds <? min)%Z eqn:E6, (max <? decimal ds)%Z eqn:E7,
      (min <=? decimal ds)%Z eqn:E8, (decimal ds <=? max)%Z eqn:E9;
      cbn; try reflexivity; lia.
Qed.

(** X19: [string_to_int] reads an unsigned decimal numeral, which may
    follow white space and may be followed by a newline: the answer is the
    value of the numeral when it lies between [min] and [max], and a
    failure otherwise, also for a numeral that fits no [int]. *)
Theorem string_to_int_reads_numeral ws ds tail min max :
  blank ws -> numeral ds -> tail = [] \/ tail = [newline] ->
  (INT_MIN <= min)%Z -> (max <= INT_MAX)%Z ->
  string_to_int (Some (ws ++ ds ++ tail)) min max =
  if ((min <=? decimal ds) && (decimal ds <=? max))%Z
  then Some (decimal ds) else None.
Proof.
  intros Hws Hds Htail. apply string_to_int_padded; try assumption.
  now destruct Htail as [-> | ->].
Qed.

Lemma strip_left_stop l :
  isspace (char_at l 0) = false -> strip_left l = l.
Proof. destruct l as [|c l]; cbn; [reflexivity|]. now intros ->. Qed.

Lemma strip_right_numeral ds : numeral ds -> strip_right ds = ds.
Proof.
  intros [Hne Hds]. unfold strip_right.
  rewrite strip_left_stop; [apply rev_involutive|].
  apply Forall_rev in Hds. destruct (rev ds) as [|c k] eqn:E.
  - apply (f_equal (@rev ascii)) in E. rewrite rev_involutive in E.
    now destruct Hne.
  - inversion Hds as [|? ? Hc _]; subst. cbn.
    exact (proj1 (isdigit_facts c Hc)).
Qed.

Lemma numeral_nul_free ds :
  numeral ds -> Forall (fun c => is_nul c = false) ds.
Proof.
  intros [_ H]. eapply Forall_impl; [exact H|].
  intros c Hc. exact (proj1 (proj2 (isdigit_facts c Hc))).
Qed.

(** The buffer that [trim_buffer] leaves of a padded numeral. *)
Lemma trim_buffer_padded ws1 ds ws2 :
  blank ws1 -> numeral ds -> blank ws2 ->
  snd (trim_buffer (ws1 ++ ds ++ ws2)) = ws1 ++ ds ++ <[0%nat := NUL]> ws2.
Proof.
  intros H1 Hds H2. pose proof Hds as [Hne Hall].
  destruct ds as [|d ds']; [now destruct Hne|]. set (ds := d :: ds') in *.
  assert (Hd : isdigit d = true) by now inversion Hall.
  destruct (isdigit_facts d Hd) as (Hd1 & Hd2 & _).
  assert (Hstart : skip_space (ws1 ++ ds ++ ws2) = length ws1).
  { rewrite skip_space_app_blank by exact H1.
    rewrite (skip_space_stop (ds ++ ws2)) by exact Hd1. lia. }
  destruct (trim_buffer_cases (ws1 ++ ds ++ ws2))
    as [(H0 & _) | (H0 & e & He & -> & Ht & Hs)].
  { rewrite Hstart, drop_app_length in H0.
    change (char_at (ds ++ ws2) 0) with d in H0. congruence. }
  cbn [snd]. rewrite Hstart, drop_app_length in *.
  assert (Hfree : Forall (fun c => is_nul c = false) (ds ++ ws2)).
  { apply Forall_app. split; [now apply numeral_nul_free|].
    now apply blank_nul_free. }
  rewrite (chars_Forall _ Hfree) in Ht.
  rewrite (strlen_Forall _ Hfree) in He.
  rewrite strip_right_app_blank, strip_right_numeral in Ht by assumption.
  assert (Hlen : S e = length ds).
  { apply (f_equal length) in Ht. rewrite length_take in Ht. lia. }
  rewrite Hlen, insert_app_r.
  rewrite <- (Nat.add_0_r (length ds)), insert_app_r. reflexivity.
Qed.

Lemma insert_nul_tail ws :
  is_nul (char_at (<[0%nat := NUL]> ws) 0) ||
  Ascii.eqb (char_at (<[0%nat := NUL]> ws) 0) newline = true.
Proof. now destruct ws. Qed.

(** X20: a line that fits the buffer of 32 bytes, so that [fgets] delivers
    it whole, and that holds a numeral with white space around it is read
    by [get_integer_input] and by [print_main_menu]: the value of the
    numeral is the answer when it lies in the range asked for, and
    otherwise the default, which for the menu is the choice 0. *)
Theorem padded_numerals_are_read ws1 ds ws2 min max default_value :
  (length (ws1 ++ ds ++ ws2) < LINE_BUFFER_SIZE)%nat ->
  blank ws1 -> numeral ds -> blank ws2 ->
  (INT_MIN <= min)%Z -> (max <= INT_MAX)%Z ->
  get_integer_input (Some (ws1 ++ ds ++ ws2)) min max default_value =
    (if ((min <=? decimal ds) && (decimal ds <=? max))%Z
     then decimal ds else default_value) /\
  print_main_menu (Some (ws1 ++ ds ++ ws2)) =
    (if ((1 <=? decimal ds) && (decimal ds <=? 8))%Z
     then decimal ds else 0%Z).
Proof.
  intros _ H1 Hds H2 Hmin Hmax.
  unfold get_integer_input, print_main_menu.
  rewrite strlen_zero, trim_buffer_first.
  rewrite !trim_buffer_padded by assumption.
  assert (Hfirst : is_nul (char_at (ws1 ++ ds ++ ws2) 0) = false).
  { destruct ws1 as [|c ws1]; cbn [app].
    - destruct Hds as [Hne Hall]. destruct ds as [|d ds]; [now destruct Hne|].
      inversion Hall as [|? ? Hd _]; subst. cbn.
      exact (proj1 (proj2 (isdigit_facts d Hd))).
    - inversion H1 as [|? ? Hc _]; subst. cbn. now apply isspace_not_nul. }
  rewrite Hfirst.
  rewrite !string_to_int_padded; try assumption;
    try apply insert_nul_tail; try (vm_compute; discriminate).
  split.
  - now destruct ((min <=? decimal ds) && (decimal ds <=? max))%Z.
  - now destruct ((1 <=? decimal ds) && (decimal ds <=? 8))%Z.
Qed.

(** X21: the line of the Enter key alone, or any line of white space that
    begins with a newline, is not taken by [get_integer_input] as a
    request for the default: it is read as the number 0, which is the
    answer whenever 0 lies in the range. *)
Theorem get_integer_input_blank_line ws min max default_value :
  blank ws ->
  get_integer_input (Some (newline :: ws)) min max default_value =
  if ((min <=? 0) && (0 <=? max))%Z then 0%Z else default_value.
Proof.
  intros Hws. unfold get_integer_input.
  rewrite strlen_zero, trim_buffer_first. change (is_nul _) with false.
  assert (Hb : blank (newline :: ws)) by now constructor.
  assert (Hskip : skip_space (newline :: ws) = length (newline :: ws)).
  { rewrite <- (app_nil_r (newline :: ws)) at 1.
    rewrite skip_space_app_blank by exact Hb. cbn. lia. }
  assert (Htrim : trim_buffer (newline :: ws) =
                  (length (newline :: ws), newline :: ws)).
  { unfold trim_buffer. rewrite Hskip, drop_all. reflexivity. }
  rewrite Htrim. cbn [snd]. unfold string_to_int, strtol.
  rewrite Hskip, drop_all. cbn [char_at nth Ascii.eqb orb drop leading_digits
    length Nat.eqb strtol_value strtol_endptr strtol_erange].
  change (Ascii.eqb NUL "-") with false. change (Ascii.eqb NUL "+") with false.
  cbn [orb drop leading_digits length Nat.eqb strtol_value strtol_endptr
       strtol_erange char_at nth].
  change (0 <? INT_MIN)%Z with false. change (INT_MAX <? 0)%Z with false.
  change (is_nul newline) with false.
  change (Ascii.eqb newline newline) with true. cbn [orb negb andb].
  destruct (0 <? min)%Z eqn:E1, (max <? 0)%Z eqn:E2,
    (min <=? 0)%Z eqn:E3, (0 <=? max)%Z eqn:E4; cbn; try reflexivity; lia.
Qed.

Lemma strcspn_newline_le line : (strcspn_newline line <= strlen line)%nat.
Proof.
  induction line as [|c line IH]; cbn; [lia|].
  destruct (is_nul c); cbn; [lia|]. destruct (Ascii.eqb c newline); lia.
Qed.

(** X22: [get_user_input] accepts every line with a character in front of
    its newline, also a line of white space only, which it hands back as
    it was typed; of any other accepted line the buffer holds the text in
    front of the newline without its trailing white space, the leading
    white space still there. *)
Theorem get_user_input_accepts line :
  let text := take (strcspn_newline line) line in
  exists buffer,
    get_user_input (Some line) =
      (negb (strcspn_newline line =? 0)%nat, Some buffer) /\
    chars buffer =
      (if decide (strip text = []) then text else strip_right text).
Proof.
  intros text. unfold get_user_input.
  set (cut := <[strcspn_newline line := NUL]> line).
  assert (Hcut : chars cut = text).
  { apply chars_insert_nul, strcspn_newline_le. }
  exists (snd (trim_buffer cut)). split.
  - f_equal.
    pose proof (strlen_zero (snd (trim_buffer cut))) as Hz.
    rewrite trim_buffer_first in Hz.
    assert (Hk : is_nul (char_at cut 0) = (strcspn_newline line =? 0)%nat).
    { unfold cut. destruct line as [|c line]; [reflexivity|].
      cbn [strcspn_newline].
      destruct (is_nul c || Ascii.eqb c newline) eqn:E; [reflexivity|].
      cbn. apply orb_false_iff in E. tauto. }
    rewrite <- Hk, <- Hz.
    destruct (strlen (snd (trim_buffer cut))); reflexivity.
  - rewrite trim_buffer_in_place, Hcut. reflexivity.
Qed.

End Numbers.

Lemma string_to_int_reads_numeral_witness :
  string_to_int (Some (lit " 16" ++ [newline])) 8 128 = Some 16%Z.
Proof.
  apply (string_to_int_reads_numeral (lit " ") (lit "16") [newline] 8 128).
  - repeat constructor.
  - split; [discriminate | repeat constructor].
  - right. reflexivity.
  - vm_compute. discriminate.
  - vm_compute. discriminate.
Defined.

Lemma padded_numerals_are_read_witness :
  get_integer_input (Some (lit " 3 " ++ [newline])) 1 100 5 = 3%Z /\
  print_main_menu (Some (lit " 3 " ++ [newline])) = 3%Z.
Proof.
  apply (padded_numerals_are_read (lit " ") (lit "3") (lit " " ++ [newline])
           1 100 5).
  - vm_compute. lia.
  - repeat constructor.
  - split; [discriminate | repeat constructor].
  - repeat constructor.
  - vm_compute. discriminate.
  - vm_compute. discriminate.
Defined.

Lemma get_integer_input_blank_line_witness :
  get_integer_input (Some [newline]) 0 16 1 = 0%Z.
Proof.
  apply (get_integer_input_blank_line [] 0 16 1). constructor.
Defined.

(* ===================================================================== *)
(** ** Properties of the escaping loops of file_ops.c                     *)
(* ===================================================================== *)

Section Escaping.

Variable entropy_percent : list ascii -> PasswordOptions -> Z.

#[local] Existing Instance ascii_eq_decision.

Lemma escape_loop_bound escaped n password dest :
  (forall c, length (escaped c) <= n)%nat -> (n <= 3)%nat ->
  (length dest <= ESCAPED_SIZE - 4 + n)%nat ->
  (length (escape_loop escaped password dest) <= ESCAPED_SIZE - 4 + n)%nat.
Proof.
  intros Hn Hn3. revert dest.
  induction password as [|c rest IH]; intros dest Hd; cbn [escape_loop];
    [exact Hd|].
  destruct (is_nul c); [exact Hd|].
  destruct (length dest <? ESCAPED_SIZE - 3)%nat eqn:E; [|exact Hd].
  apply IH. rewrite length_app. apply Nat.ltb_lt in E.
  pose proof (Hn c). unfold ESCAPED_SIZE in *. lia.
Qed.

(** X23: whatever the password, the escaping loops of
    [save_passwords_to_csv] and [save_passwords_to_json] stay inside the
    array of 1024 bytes: at most 1023 and 1022 bytes are written, so that
    the terminator stored behind them has a place. *)
Theorem escaped_password_fits password :
  (length (csv_escaped_password password) < ESCAPED_SIZE)%nat /\
  (length (json_escaped_password password) < ESCAPED_SIZE)%nat.
Proof.
  split.
  - pose proof (escape_loop_bound csv_escaped 3 password []) as H.
    unfold csv_escaped_password, ESCAPED_SIZE in *.
    cbn [length] in H. apply Nat.lt_succ_r. apply H; try lia.
    intros c. unfold csv_escaped.
    destruct (Ascii.eqb c quote); [cbn; lia|].
    destruct (Ascii.eqb c ","); cbn; lia.
  - pose proof (escape_loop_bound json_escaped 2 password []) as H.
    unfold json_escaped_password, ESCAPED_SIZE in *.
    cbn [length] in H.
    enough (length (escape_loop json_escaped password []) <= 1022)%nat
      by lia.
    apply H; try lia.
    intros c. unfold json_escaped.
    repeat match goal with
           | |- context [if ?b then _ else _] => destruct b; [cbn; lia|]
           end.
    cbn; lia.
Qed.

Lemma escape_loop_plain escaped password dest :
  Forall (fun c => is_nul c = false /\ escaped c = [c]) password ->
  (length dest + length password <= ESCAPED_SIZE - 3)%nat ->
  escape_loop escaped password dest = dest ++ password.
Proof.
  intros H. revert dest.
  induction H as [|c rest [Hc He] _ IH]; intros dest Hlen;
    cbn [escape_loop]; [now rewrite app_nil_r|].
  rewrite Hc. cbn [length] in Hlen.
  replace (length dest <? ESCAPED_SIZE - 3)%nat with true
    by (symmetry; apply Nat.ltb_lt; lia).
  rewrite He, IH by (rewrite length_app; cbn [length]; lia).
  now rewrite <- app_assoc.
Qed.

Lemma alphabet_plain c ch :
  In ch (build_char_set c) ->
  is_nul ch = false /\ csv_escaped ch = [ch] /\ json_escaped ch = [ch].
Proof.
  set (plain := fun ch : ascii =>
    negb (is_nul ch) &&
    bool_decide (csv_escaped ch = [ch]) &&
    bool_decide (json_escaped ch = [ch])).
  assert (H : forallb plain (build_char_set c) = true).
  { destruct c as [[] [] [] [] []]; vm_compute; reflexivity. }
  intros Hin. rewrite forallb_forall in H. specialize (H ch Hin).
  unfold plain in H. apply andb_prop in H as [H H3].
  apply andb_prop in H as [H1 H2].
  apply bool_decide_eq_true in H2, H3. apply negb_true_iff in H1. tauto.
Qed.

(** X24: a password that [generate_password] returns is written to CSV and
    to JSON exactly as it is: none of its characters is escaped and it is
    not cut short. *)
Theorem generated_password_written_unchanged fuel o w r w' pw :
  generate_password entropy_percent fuel (Some o) w = Some (r, w') ->
  password r = Some pw ->
  csv_escaped_password pw = pw /\ json_escaped_password pw = pw.
Proof.
  intros H Hp.
  destruct (generate_password_success entropy_percent fuel o w r w' pw H Hp)
    as (Hvalid & w2 & Htail).
  destruct (pool_members (charset o)) as (_ & _ & _ & _ & Hsub & Hnul).
  destruct (generate_tail_kept entropy_percent
              (fun ch => In ch (build_char_set (charset o)))
              fuel o w2 r w' Hvalid Hsub (pool_drawable o Hvalid) Hnul Htail)
    as (pw0 & Hpw & _ & Hlen & Hall).
  rewrite Hp in Hpw. injection Hpw as <-.
  destruct (valid_options_facts o Hvalid) as (Hmin & Hmax & _).
  assert (Hshort : (0 + length pw <= ESCAPED_SIZE - 3)%nat).
  { rewrite Hlen. unfold ESCAPED_SIZE, MAX_PASSWORD_LENGTH in *. lia. }
  unfold csv_escaped_password, json_escaped_password.
  split; (rewrite escape_loop_plain; [reflexivity | | exact Hshort]);
    (eapply Forall_impl; [exact Hall|]); intros ch Hch;
    destruct (alphabet_plain _ _ Hch) as (? & ? & ?); tauto.
Qed.

End Escaping.

Lemma generated_password_written_unchanged_witness :
  csv_escaped_password (lit "0!aaaaaa") = lit "0!aaaaaa" /\
  json_escaped_password (lit "0!aaaaaa") = lit "0!aaaaaa".
Proof.
  eapply (generated_password_written_unchanged (fun _ _ => 0%Z) 0%nat
            all_types_options (world_of [26])).
  - vm_compute. reflexivity.
  - reflexivity.
Defined.

(* ===================================================================== *)
(** ** Properties of [SecureString] and of the pool built with it         *)
(* ===================================================================== *)

Section SecureStringProperties.

(** X25: on a well-formed string whose capacity can be doubled,
    [secure_string_append] either appends the character and leaves the
    string well formed, so that the terminator has its byte, or answers
    [false] and changes nothing; the latter only for a full string. *)
Theorem secure_string_append_well_formed str data c w :
  well_formed str -> str_data str = Some data ->
  2 * str_capacity str < SIZE_MOD ->
  exists ok str' w',
    secure_string_append str c w = Some ((ok, str'), w') /\
    if ok : bool
    then str_data str' = Some (data ++ [c]) /\ well_formed str'
    else str' = str /\ str_length str = str_capacity str.
Proof.
  intros (d & Hd & Hlen & Hle & Hpos) Hdata Hcap.
  rewrite Hdata in Hd. injection Hd as <-.
  unfold secure_string_append. rewrite Hdata.
  assert (Hadd : size_add (str_length str) 1 = str_length str + 1).
  { unfold size_add. apply N.mod_small. lia. }
  destruct (N.leb_spec (str_capacity str) (str_length str)) as [Hfull|Hroom].
  - unfold mbind, M_bind, allocate.
    destruct (alloc_ok w (alloc_pos w)); cbn.
    + eexists true, _, _. split; [reflexivity|]. split; [reflexivity|].
      exists (data ++ [c]). cbn. rewrite Hadd, length_app. cbn.
      rewrite N.mod_small by lia. repeat split; lia.
    + eexists false, _, _. split; [reflexivity|]. split; [reflexivity | lia].
  - eexists true, _, _. split; [reflexivity|]. split; [reflexivity|].
    exists (data ++ [c]). cbn. rewrite Hadd, length_app. cbn.
    repeat split; lia.
Qed.

(** X26: the pool that [generate_password] builds in a [SecureString] is
    the pool of the selected alphabets, filtered when ambiguous characters
    are avoided.  The capacity of 256 is never used up, so that no append
    asks for memory and the answers that [generate_password] does not look
    at are all [true]: the only failures are the at most two
    initialisations. *)
Theorem build_secure_char_set_is_pool fuel o w :
  exists answer w',
    build_secure_char_set fuel o w = Some (answer, w') /\
    (alloc_pos w' <= S (S (alloc_pos w)))%nat /\
    answer =
      if alloc_ok w (alloc_pos w) &&
         (negb (avoid_ambiguous (charset o)) ||
          (length (build_char_set (charset o)) =? 0)%nat ||
          alloc_ok w (S (alloc_pos w)))
      then Some (pool_string (selected_pool (charset o)))
      else None.
Proof.
  destruct o as [len [[] [] [] [] []] req mn ms];
    destruct w as [rb rp ok ap];
    unfold build_secure_char_set, secure_string_init, mbind, M_bind,
      allocate;
    cbn [alloc_ok alloc_pos Password.charset lowercase uppercase numbers
         special avoid_ambiguous N.eqb];
    (destruct (ok ap) eqn:E1;
     [|eexists _, _; split; [reflexivity|]; split; [cbn; lia | reflexivity]]);
    cbn [negb andb orb];
    try (eexists _, _; split; [vm_compute; reflexivity|];
         split; [cbn; lia | vm_compute; reflexivity]);
    vm_compute; destruct (ok (S ap)) eqn:E2;
    eexists _, _; (split; [reflexivity|]); split;
    try reflexivity; cbn; lia.
Qed.

End SecureStringProperties.

Lemma secure_string_append_well_formed_witness :
  exists ok str' w',
    secure_string_append (pool_string (lit "ab")) "c" (world_of []) =
      Some ((ok, str'), w') /\
    if ok : bool
    then str_data str' = Some (lit "ab" ++ ["c"%char]) /\ well_formed str'
    else str' = pool_string (lit "ab") /\
         str_length (pool_string (lit "ab")) =
         str_capacity (pool_string (lit "ab")).
Proof.
  apply (secure_string_append_well_formed (pool_string (lit "ab")) (lit "ab")
           "c" (world_of [])).
  - exists (lit "ab"). cbn. repeat split; lia.
  - reflexivity.
  - vm_compute. reflexivity.
Defined.

(* ===================================================================== *)
(** ** Properties of [parse_command_line]                                 *)
(* ===================================================================== *)

Section CommandLine.

Lemma string_to_int_range str min max value :
  string_to_int str min max = Some value -> (min <= value <= max)%Z.
Proof.
  unfold string_to_int. destruct str as [s|]; [|discriminate].
  destruct (_ || _ || _)%bool; [discriminate|].
  destruct (_ && _)%bool; [discriminate|].
  destruct (Z.ltb_spec (strtol_value (strtol s)) min); [discriminate|].
  destruct (Z.ltb_spec max (strtol_value (strtol s))); [discriminate|].
  cbn. intros [= <-]. lia.
Qed.

Ltac split_switch H :=
  repeat match type of H with
         | (if ?b then _ else _) = Some _ => destruct b eqn:?
         | match ?m with Some _ => _ | None => _ end = Some _ =>
           destruct m eqn:?
         end.

Lemma parse_option_ready a o o' :
  generation_ready o -> parse_option a o = Some o' -> generation_ready o'.
Proof.
  intros Hr H. unfold parse_option in H. split_switch H;
    try discriminate; injection H as <-; try exact Hr;
    try match goal with
        | E : string_to_int _ _ _ = Some _ |- _ =>
          apply string_to_int_range in E
        end;
    unfold generation_ready, MIN_PASSWORD_LENGTH, MAX_PASSWORD_LENGTH,
      MAX_BULK_GENERATE in *;
    destruct Hr as (H1 & H2 & H3 & H4 & H5 & H6 & H7 & H8 & H9);
    cbn in *; repeat split; try assumption; try reflexivity; lia.
Qed.

Lemma parse_loop_ready answers o :
  generation_ready o -> generation_ready (snd (parse_loop answers o)).
Proof.
  revert o. induction answers as [|a answers IH]; intros o Hr;
    cbn [parse_loop]; [exact Hr|].
  destruct (opt a =? -1)%Z; [exact Hr|].
  destruct (parse_option a o) as [o'|] eqn:E; [|exact Hr].
  apply IH. exact (parse_option_ready a o o' Hr E).
Qed.

Lemma default_command_line_ready : generation_ready default_command_line.
Proof. unfold generation_ready. cbn. repeat split; vm_compute; congruence. Qed.

Lemma parse_command_line_ready answers :
  generation_ready (snd (parse_command_line answers)).
Proof.
  unfold parse_command_line.
  pose proof (parse_loop_ready answers default_command_line
                default_command_line_ready) as Hr.
  destruct (parse_loop answers default_command_line) as [parsed o].
  cbn [snd] in Hr. destruct parsed; cbn [negb]; [|exact Hr].
  destruct Hr as (H1 & H2 & H3 & H4 & H5).
  rewrite H1. cbn [negb andb snd]. repeat split; tauto.
Qed.

(** X27: whatever the command line, the options that [parse_command_line]
    leaves select all four categories (the switches [-u], [-L], [-n] and
    [-s] can only set what the defaults have set), they are accepted by
    [validate_options], and the count lies between 1 and 100. *)
Theorem parse_command_line_options_valid answers :
  let options := snd (parse_command_line answers) in
  let c := charset (pass_opts options) in
  selected_types c = 4 /\
  validate_options (Some (pass_opts options)) = true /\
  (1 <= count options <= 100)%Z.
Proof.
  intros options c. subst c.
  destruct (parse_command_line_ready answers)
    as (H1 & H2 & H3 & H4 & H5 & H6 & H7 & H8 & H9).
  fold options in H1, H2, H3, H4, H5, H6, H7, H8, H9.
  split; [|split; [|exact H9]].
  - unfold selected_types. now rewrite H1, H2, H3, H4.
  - unfold validate_options, selected_types.
    rewrite H1, H2, H3, H4, H6, H7, H8.
    unfold MIN_PASSWORD_LENGTH, MAX_PASSWORD_LENGTH in *.
    destruct (N.ltb_spec (opt_length (pass_opts options)) 8); [lia|].
    destruct (N.ltb_spec 128 (opt_length (pass_opts options))); [lia|].
    cbn [orb negb andb].
    destruct (N.ltb_spec (opt_length (pass_opts options)) (1 + 1 + 1 + 1));
      [lia|].
    destruct (N.ltb_spec (opt_length (pass_opts options)) 1); [lia|].
    cbn [orb].
    destruct (N.ltb_spec (opt_length (pass_opts options)) (size_add 1 1));
      [|reflexivity].
    change (size_add 1 1) with 2 in *. lia.
Qed.

Lemma parse_option_mode a o o' :
  opt a <> code "q" -> mode o = UI_MODE_INTERACTIVE ->
  parse_option a o = Some o' -> mode o' = UI_MODE_INTERACTIVE.
Proof.
  intros Hq Hm H. unfold parse_option in H.
  destruct (case_char (opt a) "q") eqn:Eq.
  { unfold case_char in Eq. apply Z.eqb_eq in Eq. contradiction. }
  split_switch H; try discriminate; injection H as <-;
    first [exact Hm | reflexivity].
Qed.

Lemma parse_loop_mode answers o :
  (forall a, In a answers -> opt a <> code "q") ->
  mode o = UI_MODE_INTERACTIVE ->
  mode (snd (parse_loop answers o)) = UI_MODE_INTERACTIVE.
Proof.
  revert o. induction answers as [|a answers IH]; intros o Hq Hm;
    cbn [parse_loop]; [exact Hm|].
  destruct (opt a =? -1)%Z; [exact Hm|].
  destruct (parse_option a o) as [o'|] eqn:E; [|exact Hm].
  apply IH.
  - intros b Hb. apply Hq. now right.
  - apply (parse_option_mode a o o'); [apply Hq; now left | exact Hm | exact E].
Qed.

Lemma parse_option_generation a o :
  In (opt a) generation_switches ->
  show_help o = false -> show_version o = false ->
  exists o', parse_option a o = Some o' /\
             show_help o' = false /\ show_version o' = false.
Proof.
  intros Hin Hh Hv. unfold parse_option. cbn in Hin.
  repeat (destruct Hin as [<- | Hin];
          [repeat match goal with
                  | |- context [case_char ?z ?c] =>
                    let v := eval vm_compute in (case_char z c) in
                    change (case_char z c) with v; cbv iota
                  end;
           try change (0 =? 0)%Z with true; cbv iota;
           repeat match goal with
                  | |- context [string_to_int ?s ?a ?b] =>
                    destruct (string_to_int s a b)
                  | |- context [String.eqb ?a ?b] => destruct (String.eqb a b)
                  end;
           eexists; (split; [reflexivity | split; cbn; assumption])|]).
  contradiction.
Qed.

Lemma parse_loop_generation answers o :
  (forall a, In a answers -> In (opt a) generation_switches) ->
  show_help o = false -> show_version o = false ->
  exists o', parse_loop answers o = (true, o') /\
             show_help o' = false /\ show_version o' = false.
Proof.
  revert o. induction answers as [|a answers IH]; intros o Hin Hh Hv;
    cbn [parse_loop]; [now exists o|].
  destruct (opt a =? -1)%Z; [now exists o|].
  destruct (parse_option_generation a o) as (o1 & -> & Hh1 & Hv1);
    [apply Hin; now left | exact Hh | exact Hv |].
  apply IH; [|exact Hh1 | exact Hv1].
  intros b Hb. apply Hin. now right.
Qed.

(** X28: unless [getopt_long] reports the switch [-q], the mode that
    [parse_command_line] leaves is the interactive one and [main] never
    comes to generate from the command line, whatever length, count or
    pattern is given.  When the random source is there and the command
    line holds nothing but switches that concern the generation, [main]
    runs the interactive menu. *)
Theorem parse_command_line_interactive answers :
  (forall a, In a answers -> opt a <> code "q") ->
  mode (snd (parse_command_line answers)) = UI_MODE_INTERACTIVE /\
  (forall init_ok, main init_ok answers <> run_command_line) /\
  ((forall a, In a answers -> In (opt a) generation_switches) ->
   main true answers = run_interactive_mode).
Proof.
  intros Hq.
  assert (Hmode : mode (snd (parse_command_line answers))
                  = UI_MODE_INTERACTIVE).
  { unfold parse_command_line.
    pose proof (parse_loop_mode answers default_command_line Hq eq_refl)
      as Hm.
    destruct (parse_loop answers default_command_line) as [parsed o].
    cbn [snd] in Hm. destruct parsed; cbn [negb]; [|exact Hm].
    destruct (_ && _)%bool; exact Hm. }
  split; [exact Hmode|]. split.
  - intros init_ok. unfold main. destruct (negb init_ok); [discriminate|].
    destruct (parse_command_line answers) as [parsed o]. cbn [snd] in Hmode.
    destruct (negb parsed); [discriminate|].
    destruct (show_help o); [discriminate|].
    destruct (show_version o); [discriminate|].
    rewrite Hmode. discriminate.
  - intros Hgen. unfold main. cbn [negb].
    destruct (parse_loop_generation answers default_command_line Hgen
                eq_refl eq_refl) as (o & Hloop & Hh & Hv).
    unfold parse_command_line in *. rewrite Hloop in *. cbn [negb] in *.
    destruct (_ && _)%bool; cbn in Hmode |- *;
      rewrite ?Hh, ?Hv, Hmode; reflexivity.
Qed.

End CommandLine.

Lemma parse_command_line_interactive_witness :
  mode (snd (parse_command_line
               [short_option "l" (Some (lit "20"));
                short_option "c" (Some (lit "5"))])) = UI_MODE_INTERACTIVE /\
  (forall init_ok,
     main init_ok [short_option "l" (Some (lit "20"));
                   short_option "c" (Some (lit "5"))] <> run_command_line) /\
  main true [short_option "l" (Some (lit "20"));
             short_option "c" (Some (lit "5"))] = run_interactive_mode.
Proof.
  destruct (parse_command_line_interactive
              [short_option "l" (Some (lit "20"));
               short_option "c" (Some (lit "5"))])
    as (Hmode & Hnever & Hmenu).
  - intros a [<- | [<- | []]]; vm_compute; discriminate.
  - split; [exact Hmode|]. split; [exact Hnever|]. apply Hmenu.
    intros a [<- | [<- | []]]; vm_compute; tauto.
Defined.

(* ===================================================================== *)
(** ** How often each character of an alphabet is drawn                   *)
(* ===================================================================== *)

Section Drawing.


End Drawing.

